(** * A shallow embedding of the EthereumJS execution stack

  The development follows the package layout of the monorepo:
  [util] (byte helpers), [common] (chain, hardfork and EIP parameters),
  [block] (header base-fee arithmetic), [evm] (precompile table and
  message execution) and [tx] (the EIP-4844 blob transaction codec).

  Conventions: a JS [bigint] is a [Z]; a [Uint8Array] is a list of
  octets, each a [Z] in [0, 256); a value that may be [undefined] is an
  [option]; a function that may [throw] returns a [result]. *)

From Stdlib Require Import ZArith Lia Ascii String.
From stdpp Require Import base option list gmap strings.

Local Open Scope Z_scope.

(** ** Exceptions

  A thrown [Error] carries its message; the interpolated parts of the
  messages are left out. *)

Inductive result (A : Type) : Type :=
| Ok (a : A)
| Err (msg : string).
Arguments Ok {A} a.
Arguments Err {A} msg.

#[global] Instance result_ret : MRet result := λ A a, Ok a.
#[global] Instance result_bind : MBind result :=
λ A B f m, match m with Ok a => f a | Err e => Err e end.

Definition isOk {A} (r : result A) : bool :=
match r with Ok _ => true | Err _ => false end.

(** ** packages/util: byte helpers

    Modelled from the spec: the byte helpers of the util package
    ([bytesToBigInt], [bigIntToUnpaddedBytes], [intToBytes], [bytesToHex],
    [bytesToUnprefixedHex], [hexToBytes] on a padded hexadecimal number)
    are not among the sources; they are the usual big-endian conversions
    (section 6, "unsigned CRC32" and "RLP field bytes must have no leading
    zeros"). *)

Module util.

Abbreviation bytes := (list Z).

Definition hexDigit (n : Z) : ascii :=
  match n with
  | 0 => "0" | 1 => "1" | 2 => "2" | 3 => "3" | 4 => "4" | 5 => "5"
  | 6 => "6" | 7 => "7" | 8 => "8" | 9 => "9" | 10 => "a" | 11 => "b"
  | 12 => "c" | 13 => "d" | 14 => "e" | _ => "f"
  end%char.

Fixpoint bytesToUnprefixedHex (bs : bytes) : string :=
  match bs with
  | [] => EmptyString
  | b :: r =>
      String (hexDigit (b / 16)) (String (hexDigit (b mod 16))
        (bytesToUnprefixedHex r))
  end.

Definition bytesToHex (bs : bytes) : string :=
  String "0" (String "x" (bytesToUnprefixedHex bs)).

Definition bytesToBigInt (bs : bytes) : Z :=
  fold_left (λ acc b, acc * 256 + b) bs 0.

(** Big-endian digits of [n] in base 256, most significant first, put in
    front of [acc]; [fuel] bounds the number of digits. *)
Fixpoint beDigits (fuel : nat) (n : Z) (acc : bytes) : bytes :=
  match fuel with
  | O => acc
  | S fuel => if n <=? 0 then acc
              else beDigits fuel (n / 256) (n mod 256 :: acc)
  end.

(** [bigIntToUnpaddedBytes]: no leading zero octet, [0] is the empty
    array. *)
Definition bigIntToUnpaddedBytes (n : Z) : bytes :=
  beDigits (S (Z.to_nat (Z.log2 n))) n [].

(** [intToBytes]: as above, but [0] is the single octet [00]. *)
Definition intToBytes (n : Z) : bytes :=
  if n =? 0 then [0] else bigIntToUnpaddedBytes n.

(** [setLengthLeft]: pad with zero octets on the left up to [len]. *)
Definition setLengthLeft (bs : bytes) (len : nat) : bytes :=
  replicate (len - length bs) 0 ++ bs.

Definition equalsBytes (a b : bytes) : bool := bool_decide (a = b).

(** The IEEE CRC-32 of the [crc] library (reflected polynomial
    [0xEDB88320]), one bit at a time. *)
Definition crc32_bit (c : Z) : Z :=
  if Z.testbit c 0 then Z.lxor (Z.shiftr c 1) 0xEDB88320 else Z.shiftr c 1.

Definition crc32_byte (c b : Z) : Z :=
  Nat.iter 8 crc32_bit (Z.lxor c b).

Definition crc32 (bs : bytes) : Z :=
  Z.lxor (fold_left crc32_byte bs 0xFFFFFFFF) 0xFFFFFFFF.

End util.

(** ** Array helpers of the JS runtime *)

Module js.

(** [Array.prototype.findIndex]: the index of the first element that
    satisfies [p], or [-1]. *)
Fixpoint findIndex {A} (p : A → bool) (l : list A) : Z :=
  match l with
  | [] => -1
  | x :: r => if p x then 0 else
                let i := findIndex p r in if i =? -1 then -1 else i + 1
  end.

(** [l.slice(start, stop)]: a negative bound counts from the end, and
    both bounds are clamped to the array. *)
Definition sliceBound (len i : Z) : Z :=
  if i <? 0 then Z.max (len + i) 0 else Z.min i len.

Definition slice {A} (start stop : Z) (l : list A) : list A :=
  let len := Z.of_nat (length l) in
  let start := sliceBound len start in
  let stop := sliceBound len stop in
  take (Z.to_nat (stop - start)) (drop (Z.to_nat start) l).

(** [l.slice(start)]. *)
Definition sliceFrom {A} (start : Z) (l : list A) : list A :=
  slice start (Z.of_nat (length l)) l.

(** [l[i]], [undefined] outside of the array. *)
Definition at_ {A} (l : list A) (i : Z) : option A :=
  if i <? 0 then None else l !! Z.to_nat i.

End js.

(** ** packages/common: chain, hardfork and EIP parameters *)

Module common.

(** Names of the [Hardfork] enumeration that the sources refer to. *)
Module Hardfork.
Definition Chainstart : string := "chainstart".
Definition Homestead : string := "homestead".
Definition SpuriousDragon : string := "spuriousDragon".
Definition Byzantium : string := "byzantium".
Definition Istanbul : string := "istanbul".
Definition London : string := "london".
Definition Paris : string := "paris".
End Hardfork.

(** The [ttd] field of a hardfork entry is tested against both [null]
    and [undefined] in the sources, so the three cases are kept apart. *)
Inductive TTD := TtdUndefined | TtdNull | TtdValue (v : Z).

#[global] Instance TTD_eq_dec : EqDecision TTD.
Proof. solve_decision. Defined.

(** [HardforkConfig]: [block] is a number or [null]; [timestamp] and
    [forkHash] may be missing. *)
Record HardforkConfig := {
  name : string;
  block : option Z;
  ttd : TTD;
  timestamp : option Z;
  storedForkHash : option string;
}.

(** A parameter table: topic [↦] parameter name [↦] value ([.v]). *)
Abbreviation ParamTable := (gmap string (gmap string Z)).

(** An entry of the [EIPs] registry. *)
Record EIPConfig := {
  minimumHardfork : string;
  requiredEIPs : list Z;
  eipParams : ParamTable;
}.

(** A hardfork file of [HARDFORK_SPECS]: either it lists EIPs
    (['eips' in hf]) or it inlines its parameters. *)
Record HardforkSpec := {
  specName : string;
  specEips : option (list Z);
  specParams : ParamTable;
}.

(** The state of a [Common] object, together with the registries it
    imports ([EIPs]; [HARDFORK_CHANGES] is the hardfork list paired
    with the hardfork files in the constructor). *)
Record Common := {
  EIPs : gmap Z EIPConfig;
  chainId : Z;
  hardforks : list HardforkConfig;
  _hardfork : string;
  _eips : list Z;
  HARDFORK_CHANGES : list (string * HardforkSpec);
}.

Definition hardfork (c : Common) : string := _hardfork c.
Definition eips (c : Common) : list Z := _eips c.

(** *** Parameter lookup *)

Definition paramByEIP (c : Common) (topic pname : string) (eip : Z)
  : result (option Z) :=
  match EIPs c !! eip with
  | None => Err "EIP not supported"
  | Some eipParams_ =>
      match eipParams eipParams_ !! topic with
      | None => Err "Topic not defined"
      | Some t => Ok (t !! pname)
      end
  end.

(** The inner loop of [paramByHardfork] over the EIPs of one hardfork
    file: a later EIP overrides an earlier one. *)
Fixpoint paramByHardfork_eips (c : Common) (topic pname : string)
    (hfEIPs : list Z) (value : option Z) : result (option Z) :=
  match hfEIPs with
  | [] => Ok value
  | eip :: rest =>
      valueEIP ← paramByEIP c topic pname eip;
      paramByHardfork_eips c topic pname rest
        (match valueEIP with Some v => Some v | None => value end)
  end.

(** The outer loop of [paramByHardfork], with its [break]. *)
Fixpoint paramByHardfork_loop (c : Common) (topic pname hardfork_ : string)
    (changes : list (string * HardforkSpec)) (value : option Z)
  : result (option Z) :=
  match changes with
  | [] => Ok value
  | hfChanges :: rest =>
      value' ←
        match specEips hfChanges.2 with
        | Some hfEIPs => paramByHardfork_eips c topic pname hfEIPs value
        | None =>
            match specParams hfChanges.2 !! topic with
            | None => Err "Topic not defined"
            | Some t =>
                Ok (match t !! pname with Some v => Some v | None => value end)
            end
        end;
      if String.eqb hfChanges.1 hardfork_ then Ok value'
      else paramByHardfork_loop c topic pname hardfork_ rest value'
  end.

Definition paramByHardfork (c : Common) (topic pname hardfork_ : string)
  : result Z :=
  value ← paramByHardfork_loop c topic pname hardfork_ (HARDFORK_CHANGES c) None;
  Ok (default 0 value).

(** The loop of [param] over the EIPs set by the user. *)
Fixpoint param_eips (c : Common) (topic pname : string) (l : list Z)
  : result (option Z) :=
  match l with
  | [] => Ok None
  | eip :: rest =>
      value ← paramByEIP c topic pname eip;
      match value with
      | Some v => Ok (Some v)
      | None => param_eips c topic pname rest
      end
  end.

Definition param (c : Common) (topic pname : string) : result Z :=
  value ← param_eips c topic pname (_eips c);
  match value with
  | Some v => Ok v
  | None => paramByHardfork c topic pname (_hardfork c)
  end.

(** *** Hardfork order and EIP activation *)

(** The position loop of [hardforkGteHardfork]: the last index at which
    a name occurs, [-1] if it does not. *)
Fixpoint lastPos (hardfork_ : string) (hfs : list HardforkConfig)
    (index pos : Z) : Z :=
  match hfs with
  | [] => pos
  | hf :: rest =>
      lastPos hardfork_ rest (index + 1)
        (if String.eqb (name hf) hardfork_ then index else pos)
  end.

Definition hardforkGteHardfork (c : Common) (hardfork1 : option string)
    (hardfork2 : string) : bool :=
  let hardfork1 := default (_hardfork c) hardfork1 in
  let posHf1 := lastPos hardfork1 (hardforks c) 0 (-1) in
  let posHf2 := lastPos hardfork2 (hardforks c) 0 (-1) in
  (posHf2 <=? posHf1) && negb (posHf2 =? -1).

Definition gteHardfork (c : Common) (hardfork_ : string) : bool :=
  hardforkGteHardfork c None hardfork_.

Definition inZ (x : Z) (l : list Z) : bool := existsb (Z.eqb x) l.

Definition isActivatedEIP (c : Common) (eip : Z) : bool :=
  if inZ eip (eips c) then true
  else
    existsb
      (λ hfChanges : string * HardforkSpec,
         let hf := hfChanges.2 in
         gteHardfork c (specName hf) &&
         match specEips hf with
         | Some es => inZ eip es
         | None => false
         end)
      (HARDFORK_CHANGES c).

Definition _getHardfork (c : Common) (hardfork_ : string)
  : option HardforkConfig :=
  List.find (λ hf, String.eqb (name hf) hardfork_) (hardforks c).

Definition hardforkBlock (c : Common) (hardfork_ : option string) : option Z :=
  let hardfork_ := default (_hardfork c) hardfork_ in
  _getHardfork c hardfork_ ≫= block.

(** *** Hardfork selection *)

Definition isApplied (hf : HardforkConfig) : bool :=
  bool_decide (block hf ≠ None)
  || match ttd hf with TtdValue _ => true | _ => false end
  || bool_decide (timestamp hf ≠ None).

Definition hasTTD (hf : HardforkConfig) : bool :=
  match ttd hf with TtdValue _ => true | _ => false end.

(** [BigInt(hf.ttd!)] *)
Definition ttdBigInt (hf : HardforkConfig) : result Z :=
  match ttd hf with
  | TtdValue v => Ok v
  | _ => Err "TypeError: Cannot convert to a BigInt"
  end.

(** [hfs[i]] where a property of the element is read next. *)
Definition hfAt (hfs : list HardforkConfig) (i : Z) : result HardforkConfig :=
  match js.at_ hfs i with
  | Some hf => Ok hf
  | None => Err "TypeError: Cannot read properties of undefined"
  end.

Definition exceeds (blockNumber timestamp_ : option Z) (hf : HardforkConfig)
  : bool :=
  match blockNumber, block hf with
  | Some bn, Some b => bn <? b
  | _, _ => false
  end
  || match timestamp_, timestamp hf with
     | Some ts, Some t => ts <? t
     | _, _ => false
     end.

Definition blockOrTTD (hf : HardforkConfig) : bool :=
  bool_decide (block hf ≠ None)
  || match ttd hf with TtdUndefined => false | _ => true end.

(** The number of steps of the loop that moves [hfIndex] to the end of
    the hardforks scheduled on the same block and timestamp: [hf] is the
    entry at [hfIndex], [rest] the entries after it. *)
Fixpoint sameSchedule (hf : HardforkConfig) (rest : list HardforkConfig) : Z :=
  match rest with
  | [] => 0
  | hf' :: rest' =>
      if bool_decide (block hf ≠ block hf')
         || bool_decide (timestamp hf ≠ timestamp hf')
      then 0
      else 1 + sameSchedule hf' rest'
  end.

Definition moveToLastOfSchedule (hfs : list HardforkConfig) (hfIndex : Z)
  : result Z :=
  if hfIndex <? Z.of_nat (length hfs) - 1 then
    hf ← hfAt hfs hfIndex;
    Ok (hfIndex + sameSchedule hf (js.sliceFrom (hfIndex + 1) hfs))
  else Ok hfIndex.

(** [getHardforkBy], up to the index into the applied hardforks. *)
Definition getHardforkIndex (hfs : list HardforkConfig)
    (blockNumber timestamp_ td : option Z) : result Z :=
  let mergeIndex := js.findIndex hasTTD hfs in
  let doubleTTDHF := js.findIndex hasTTD (js.sliceFrom (mergeIndex + 1) hfs) in
  if 0 <=? doubleTTDHF then
    Err "More than one merge hardforks found with ttd specified"
  else
  let hfIndex := js.findIndex (exceeds blockNumber timestamp_) hfs in
  hfIndex ←
    (if hfIndex =? -1 then Ok (Z.of_nat (length hfs))
     else if hfIndex =? 0 then Err "Must have at least one hardfork at block 0"
     else Ok hfIndex);
  let hfIndex :=
    match timestamp_ with
    | None =>
        let stepBack :=
          js.findIndex blockOrTTD (reverse (js.slice 0 hfIndex hfs)) in
        hfIndex - stepBack
    | Some _ => hfIndex
    end in
  let hfIndex := hfIndex - 1 in
  cur ← hfAt hfs hfIndex;
  hfIndex ←
    (if bool_decide (block cur = None) && bool_decide (timestamp cur = None)
     then
       match td with
       | None => Ok (hfIndex - 1)
       | Some td_ =>
           mergeTtd ← ttdBigInt cur;
           Ok (if td_ <? mergeTtd then hfIndex - 1 else hfIndex)
       end
     else
       match td with
       | Some td_ =>
           if 0 <=? mergeIndex then
             merge ← hfAt hfs mergeIndex;
             mergeTtd ← ttdBigInt merge;
             if (mergeIndex <=? hfIndex) && (td_ <? mergeTtd) then
               Err "Maximum HF determined by total difficulty is lower than the block number HF"
             else if (hfIndex <? mergeIndex) && (mergeTtd <=? td_) then
               Err "HF determined by block number is lower than the minimum total difficulty HF"
             else Ok hfIndex
           else Ok hfIndex
       | None => Ok hfIndex
       end);
  let hfStartIndex := hfIndex in
  hfIndex ← moveToLastOfSchedule hfs hfIndex;
  match timestamp_ with
  | Some ts =>
      let minTimeStamp :=
        fold_left (λ acc hf, Z.max (default 0 (timestamp hf)) acc)
                  (js.slice 0 hfStartIndex hfs) 0 in
      if ts <? minTimeStamp then
        Err "Maximum HF determined by timestamp is lower than the block number/ttd HF"
      else
        let maxTimeStamp :=
          fold_left (λ acc hf, Z.min (default ts (timestamp hf)) acc)
                    (js.sliceFrom (hfIndex + 1) hfs) ts in
        if maxTimeStamp <? ts then
          Err "Maximum HF determined by block number/ttd is lower than timestamp HF"
        else Ok hfIndex
  | None => Ok hfIndex
  end.

Definition appliedHardforks (c : Common) : list HardforkConfig :=
  List.filter isApplied (hardforks c).

Definition getHardforkBy (c : Common) (blockNumber timestamp_ td : option Z)
  : result string :=
  let hfs := appliedHardforks c in
  hfIndex ← getHardforkIndex hfs blockNumber timestamp_ td;
  hardfork_ ← hfAt hfs hfIndex;
  Ok (name hardfork_).

(** *** Fork hash (EIP-2124) *)

(** [hexToBytes('0x' + blockOrTime.toString(16).padStart(16, '0'))]: the
    big-endian octets of the number, at least eight of them. A negative
    number has no hexadecimal rendering that [hexToBytes] accepts. *)
Definition hfBlockBytes (blockOrTime : Z) : result util.bytes :=
  if blockOrTime <? 0 then Err "hexToBytes: invalid hex string"
  else Ok (util.setLengthLeft (util.bigIntToUnpaddedBytes blockOrTime) 8).

(** [timestamp ?? block] *)
Definition blockOrTimeOf (hf : HardforkConfig) : option Z :=
  match timestamp hf with
  | Some t => Some t
  | None => block hf
  end.

(** The body of the loop of [_calcForkHash] before its [break]: the new
    [hfBytes] and [prevBlockOrTime]. *)
Definition _calcForkHash_step (hf : HardforkConfig) (hfBytes : util.bytes)
    (prevBlockOrTime : Z) : result (util.bytes * Z) :=
  match blockOrTimeOf hf with
  | Some blockOrTime =>
      if negb (blockOrTime =? 0)
         && negb (blockOrTime =? prevBlockOrTime)
         && negb (String.eqb (name hf) Hardfork.Paris)
      then
        hfBlockBytes_ ← hfBlockBytes blockOrTime;
        Ok (hfBytes ++ hfBlockBytes_, blockOrTime)
      else Ok (hfBytes, prevBlockOrTime)
  | None => Ok (hfBytes, prevBlockOrTime)
  end.

(** The loop of [_calcForkHash]. *)
Fixpoint _calcForkHash_loop (hardfork_ : string) (hfs : list HardforkConfig)
    (hfBytes : util.bytes) (prevBlockOrTime : Z) : result util.bytes :=
  match hfs with
  | [] => Ok hfBytes
  | hf :: rest =>
      st ← _calcForkHash_step hf hfBytes prevBlockOrTime;
      if String.eqb (name hf) hardfork_ then Ok st.1
      else _calcForkHash_loop hardfork_ rest st.1 st.2
  end.

(** [crc] is the checksum of the external [crc] library, which may
    deliver a negative 32-bit number; [>>> 0] makes it unsigned. *)
Definition _calcForkHash (crc : util.bytes → Z) (c : Common)
    (hardfork_ : string) (genesisHash : util.bytes) : result string :=
  hfBytes ← _calcForkHash_loop hardfork_ (hardforks c) [] 0;
  let inputBytes := genesisHash ++ hfBytes in
  Ok (util.bytesToHex (util.intToBytes (crc inputBytes mod 2 ^ 32))).

Definition forkHash (crc : util.bytes → Z) (c : Common)
    (hardfork_ : option string) (genesisHash : option util.bytes)
  : result string :=
  let hardfork_ := default (_hardfork c) hardfork_ in
  match _getHardfork c hardfork_ with
  | None => Err "No fork hash calculation possible for future hardfork"
  | Some data =>
      if bool_decide (block data = None)
         && bool_decide (timestamp data = None)
         && bool_decide (ttd data = TtdUndefined)
      then Err "No fork hash calculation possible for future hardfork"
      else
        match storedForkHash data with
        | Some fh => Ok fh
        | None =>
            match genesisHash with
            | None => Err "genesisHash required for forkHash calculation"
            | Some g => _calcForkHash crc c hardfork_ g
            end
        end
  end.

End common.

(** ** packages/block: the header's base fee *)

Module block.

(** [a / b] on [bigint]: rounds towards zero, throws on a zero divisor. *)
Definition bigIntDiv (a b : Z) : result Z :=
  if b =? 0 then Err "RangeError: Division by zero" else Ok (Z.quot a b).

(** An arithmetic operand that has to be a [bigint]. *)
Definition requireBigInt (x : option Z) : result Z :=
  match x with
  | Some v => Ok v
  | None => Err "TypeError: Cannot mix BigInt and other types"
  end.

(** The fields of [BlockHeader] that the fee computations read. *)
Record BlockHeader := {
  number : Z;
  gasLimit : Z;
  gasUsed : Z;
  timestamp : Z;
  baseFeePerGas : option Z;
  common : common.Common;
}.

(** [calcNextBaseFee]; the result is [undefined] when the header has no
    base fee and the gas used is on target. *)
Definition calcNextBaseFee (h : BlockHeader) : result (option Z) :=
  if negb (common.isActivatedEIP (common h) 1559) then
    Err "calcNextBaseFee() can only be called with EIP1559 being activated"
  else
    elasticity ← common.param (common h) "gasConfig" "elasticityMultiplier";
    parentGasTarget ← bigIntDiv (gasLimit h) elasticity;
    if parentGasTarget =? gasUsed h then
      Ok (baseFeePerGas h)
    else if parentGasTarget <? gasUsed h then
      let gasUsedDelta := gasUsed h - parentGasTarget in
      baseFeeMaxChangeDenominator ←
        common.param (common h) "gasConfig" "baseFeeMaxChangeDenominator";
      baseFee ← requireBigInt (baseFeePerGas h);
      q ← bigIntDiv (baseFee * gasUsedDelta) parentGasTarget;
      calculatedDelta ← bigIntDiv q baseFeeMaxChangeDenominator;
      Ok (Some ((if 1 <? calculatedDelta then calculatedDelta else 1) + baseFee))
    else
      let gasUsedDelta := parentGasTarget - gasUsed h in
      baseFeeMaxChangeDenominator ←
        common.param (common h) "gasConfig" "baseFeeMaxChangeDenominator";
      baseFee ← requireBigInt (baseFeePerGas h);
      q ← bigIntDiv (baseFee * gasUsedDelta) parentGasTarget;
      calculatedDelta ← bigIntDiv q baseFeeMaxChangeDenominator;
      Ok (Some (if 0 <? baseFee - calculatedDelta
                then baseFee - calculatedDelta else 0)).

End block.

(** ** packages/evm: precompile table and message execution *)

Module evm.

Abbreviation bytes := (list Z).
Abbreviation Address := (list Z).

(** [ERROR] of [exceptions.js]: the members that the sources and the
    error taxonomy name; any other member is [OTHER]. *)
Inductive ERROR :=
| OUT_OF_GAS
| CODESTORE_OUT_OF_GAS
| CODESIZE_EXCEEDS_MAXIMUM
| STACK_UNDERFLOW
| STACK_OVERFLOW
| INVALID_JUMP
| INVALID_OPCODE
| REVERT
| STATIC_STATE_CHANGE
| CREATE_COLLISION
| VALUE_OVERFLOW
| INSUFFICIENT_BALANCE
| INVALID_BYTECODE_RESULT
| INVALID_EOF_FORMAT
| INITCODE_SIZE_VIOLATION
| OTHER (description : string).

#[global] Instance ERROR_eq_dec : EqDecision ERROR.
Proof. solve_decision. Defined.

(** A log: address, topics, data. *)
Definition Log : Type := bytes * list bytes * bytes.

(** [ExecResult], without the [runState] of the interpreter. *)
Record ExecResult := {
  exceptionError : option ERROR;
  gas : option Z;
  executionGasUsed : Z;
  returnValue : bytes;
  logs : option (list Log);
  selfdestruct : option (gset string);
  createdAddresses : option (gset string);
  gasRefund : option Z;
  dataGasUsed : option Z;
}.

(** The object literal [{ returnValue, executionGasUsed, exceptionError }]
    that the result constructors build. *)
Definition errorResult (e : ERROR) (gasUsed : Z) : ExecResult :=
  {| exceptionError := Some e; gas := None; executionGasUsed := gasUsed;
     returnValue := []; logs := None; selfdestruct := None;
     createdAddresses := None; gasRefund := None; dataGasUsed := None |}.

Definition OOGResult (gasLimit : Z) : ExecResult :=
  errorResult OUT_OF_GAS gasLimit.
Definition COOGResult (gasUsedCreateCode : Z) : ExecResult :=
  errorResult CODESTORE_OUT_OF_GAS gasUsedCreateCode.
Definition INVALID_BYTECODE_RESULT_ (gasLimit : Z) : ExecResult :=
  errorResult INVALID_BYTECODE_RESULT gasLimit.
Definition INVALID_EOF_RESULT (gasLimit : Z) : ExecResult :=
  errorResult INVALID_EOF_FORMAT gasLimit.
Definition CodesizeExceedsMaximumError (gasUsed : Z) : ExecResult :=
  errorResult CODESIZE_EXCEEDS_MAXIMUM gasUsed.
Definition EvmErrorResult (error : ERROR) (gasUsed : Z) : ExecResult :=
  errorResult error gasUsed.

(** [{ ...result, ...r }] for an [r] built by one of the constructors
    above: its three fields override those of [result]. *)
Definition spreadOver (result r : ExecResult) : ExecResult :=
  {| exceptionError := exceptionError r; gas := gas result;
     executionGasUsed := executionGasUsed r; returnValue := returnValue r;
     logs := logs result; selfdestruct := selfdestruct result;
     createdAddresses := createdAddresses result;
     gasRefund := gasRefund result; dataGasUsed := dataGasUsed result |}.

(** *** precompiles/index.ts *)

Record PrecompileInput := {
  inputData : bytes;
  inputGasLimit : Z;
  inputCommon : common.Common;
}.

(** The precompile functions imported by [precompiles/index.ts]. *)
Inductive BuiltinPrecompile :=
| precompile01 | precompile02 | precompile03 | precompile04 | precompile05
| precompile06 | precompile07 | precompile08 | precompile09 | precompile0a
| precompile0c | precompile0d | precompile0e | precompile0f | precompile10
| precompile11 | precompile12 | precompile13 | precompile14.

(** A [PrecompileFunc] is one of the imported functions or a function
    supplied by the user. *)
Inductive PrecompileFunc :=
| Builtin (p : BuiltinPrecompile)
| UserFunc (f : PrecompileInput → ExecResult).

Inductive PrecompileAvailabilityCheckType :=
| CheckHardfork (param : string)
| CheckEIP (param : Z).

Record PrecompileEntry := {
  address : string;
  check : PrecompileAvailabilityCheckType;
  precompile : PrecompileFunc;
}.

Definition addr (last2 : string) : string :=
  "00000000000000000000000000000000000000" +:+ last2.

Definition ripemdPrecompileAddress : string := addr "03".

Definition precompileEntries : list PrecompileEntry := [
  {| address := addr "01"; check := CheckHardfork common.Hardfork.Chainstart;
     precompile := Builtin precompile01 |};
  {| address := addr "02"; check := CheckHardfork common.Hardfork.Chainstart;
     precompile := Builtin precompile02 |};
  {| address := addr "03"; check := CheckHardfork common.Hardfork.Chainstart;
     precompile := Builtin precompile03 |};
  {| address := addr "04"; check := CheckHardfork common.Hardfork.Chainstart;
     precompile := Builtin precompile04 |};
  {| address := addr "05"; check := CheckHardfork common.Hardfork.Byzantium;
     precompile := Builtin precompile05 |};
  {| address := addr "06"; check := CheckHardfork common.Hardfork.Byzantium;
     precompile := Builtin precompile06 |};
  {| address := addr "07"; check := CheckHardfork common.Hardfork.Byzantium;
     precompile := Builtin precompile07 |};
  {| address := addr "08"; check := CheckHardfork common.Hardfork.Byzantium;
     precompile := Builtin precompile08 |};
  {| address := addr "09"; check := CheckHardfork common.Hardfork.Istanbul;
     precompile := Builtin precompile09 |};
  {| address := addr "0a"; check := CheckEIP 4844;
     precompile := Builtin precompile0a |};
  {| address := addr "0c"; check := CheckEIP 2537;
     precompile := Builtin precompile0c |};
  {| address := addr "0d"; check := CheckEIP 2537;
     precompile := Builtin precompile0d |};
  {| address := addr "0e"; check := CheckEIP 2537;
     precompile := Builtin precompile0e |};
  {| address := addr "0f"; check := CheckEIP 2537;
     precompile := Builtin precompile0f |};
  {| address := addr "10"; check := CheckEIP 2537;
     precompile := Builtin precompile10 |};
  {| address := addr "11"; check := CheckEIP 2537;
     precompile := Builtin precompile11 |};
  {| address := addr "12"; check := CheckEIP 2537;
     precompile := Builtin precompile12 |};
  {| address := addr "13"; check := CheckEIP 2537;
     precompile := Builtin precompile13 |};
  {| address := addr "14"; check := CheckEIP 2537;
     precompile := Builtin precompile14 |}
].

(** [AddPrecompile | DeletePrecompile]: the [function] key is optional. *)
Record CustomPrecompile := {
  customAddress : Address;
  customFunction : option PrecompileFunc;
}.

(** The availability test of an entry in [getActivePrecompiles]. *)
Definition isAvailable (c : common.Common) (entry : PrecompileEntry) : bool :=
  match check entry with
  | CheckHardfork param => common.gteHardfork c param
  | CheckEIP param => common.isActivatedEIP c param
  end.

(** A [Map<string, PrecompileFunc>] whose values may be [undefined]. *)
Abbreviation PrecompileMap := (gmap string (option PrecompileFunc)).

Definition setCustom (precompileMap : PrecompileMap) (p : CustomPrecompile)
  : PrecompileMap :=
  <[util.bytesToUnprefixedHex (customAddress p) := customFunction p]>
    precompileMap.

Definition setEntry (c : common.Common) (precompileMap : PrecompileMap)
    (entry : PrecompileEntry) : PrecompileMap :=
  if bool_decide (is_Some (precompileMap !! address entry)) then precompileMap
  else if isAvailable c entry then
    <[address entry := Some (precompile entry)]> precompileMap
  else precompileMap.

Definition getActivePrecompiles (c : common.Common)
    (customPrecompiles : option (list CustomPrecompile)) : PrecompileMap :=
  let precompileMap :=
    match customPrecompiles with
    | Some l => fold_left setCustom l ∅
    | None => ∅
    end in
  fold_left (setEntry c) precompileEntries precompileMap.

(** [Map.prototype.get]: [undefined] for a missing key and for a key
    bound to [undefined]. *)
Definition mapGet (m : PrecompileMap) (key : string) : option PrecompileFunc :=
  mjoin (m !! key).

(** *** State

    Modelled from the spec: the state manager, the journal
    ([journal.js]) and the transient storage ([transientStorage.js]) are
    not among the sources. Section 6 gives the state manager interface;
    sections 4.3 and 4.4 say that a checkpoint pushes a boundary, that a
    revert restores all values written since the matching checkpoint,
    that a commit keeps them, and that the transient storage has an
    independent stack of the same kind. *)

Record Account := {
  nonce : Z;
  balance : Z;
  storageRoot : bytes;
  codeHash : bytes;
}.

Definition KECCAK256_NULL : bytes :=
  [0xc5; 0xd2; 0x46; 0x01; 0x86; 0xf7; 0x23; 0x3c; 0x92; 0x7e; 0x7d; 0xb2;
   0xdc; 0xc7; 0x03; 0xc0; 0xe5; 0x00; 0xb6; 0x53; 0xca; 0x82; 0x27; 0x3b;
   0x7b; 0xfa; 0xd8; 0x04; 0x5d; 0x85; 0xa4; 0x70].

Definition KECCAK256_RLP : bytes :=
  [0x56; 0xe8; 0x1f; 0x17; 0x1b; 0xcc; 0x55; 0xa6; 0xff; 0x83; 0x45; 0xe6;
   0x92; 0xc0; 0xf8; 0x6e; 0x5b; 0x48; 0xe0; 0x1b; 0x99; 0x6c; 0xad; 0xc0;
   0x01; 0x62; 0x2f; 0xb5; 0xe3; 0x63; 0xb4; 0x21].

Definition MAX_INTEGER : Z := 2 ^ 256 - 1.

(** [new Account()] *)
Definition newAccount : Account :=
  {| nonce := 0; balance := 0; storageRoot := KECCAK256_RLP;
     codeHash := KECCAK256_NULL |}.

Definition Address_zero : Address := replicate 20 0.

(** [address.toString()] *)
Definition Address_toString (a : Address) : string := util.bytesToHex a.

Record StateManager := {
  accounts : gmap Address Account;
  contractCode : gmap Address bytes;
  contractStorage : gmap Address (gmap bytes bytes);
}.

Abbreviation TransientMap := (gmap (Address * bytes) bytes).

(** What the journal and the transient storage currently hold. *)
Record Current := {
  stateManager : StateManager;
  warmedAddresses : gset Address;
  transientStorage : TransientMap;
}.

(** [_tx] and [_block] of the EVM object. *)
Record TxContext := {
  gasPrice : Z;
  origin : Address;
}.

Record Block := {
  headerNumber : Z;
  headerCoinbase : Address;
  headerTimestamp : Z;
  headerDifficulty : Z;
  headerPrevRandao : bytes;
  headerGasLimit : Z;
  headerBaseFeePerGas : option Z;
}.

Definition defaultBlock : Block :=
  {| headerNumber := 0; headerCoinbase := Address_zero; headerTimestamp := 0;
     headerDifficulty := 0; headerPrevRandao := replicate 32 0;
     headerGasLimit := 0; headerBaseFeePerGas := None |}.

(** The mutable state of an EVM object: the current state, the
    checkpoints of the journal, the checkpoints of the transient storage,
    and the transaction and block contexts. *)
Record World := {
  current : Current;
  journalCheckpoints : list (StateManager * gset Address);
  transientCheckpoints : list TransientMap;
  _tx : option TxContext;
  _block : option Block;
}.

(** The configuration of an EVM object. [_precompiles] is what
    [getActivePrecompiles] returned for [common] and
    [_customPrecompiles]. *)
Record EVM := {
  common : common.Common;
  allowUnlimitedContractSize : bool;
  allowUnlimitedInitCodeSize : bool;
  _customPrecompiles : option (list CustomPrecompile);
  _precompiles : PrecompileMap;
}.

(** [message.code]: bytecode or a precompile. *)
Inductive Code :=
| Bytecode (bs : bytes)
| Compiled (f : PrecompileFunc).

(** [Message] of [message.js]. *)
Record Message := {
  to : option Address;
  value : Z;
  caller : Address;
  gasLimit : Z;
  data : bytes;
  depth : Z;
  code : option Code;
  _codeAddress : option Address;
  isStatic : bool;
  isCompiled : bool;
  salt : option bytes;
  containerCode : option bytes;
  msgSelfdestruct : option (gset string);
  msgCreatedAddresses : option (gset string);
  delegatecall : bool;
  authcallOrigin : option Address;
  msgGasRefund : Z;
  versionedHashes : option (list bytes);
}.

(** The options of [runCall]. *)
Record EVMRunCallOpts := {
  optBlock : option Block;
  optGasPrice : option Z;
  optOrigin : option Address;
  optCaller : option Address;
  optGasLimit : option Z;
  optTo : option Address;
  optValue : option Z;
  optData : option bytes;
  optCode : option Code;
  optDepth : option Z;
  optIsCompiled : option bool;
  optIsStatic : option bool;
  optSalt : option bytes;
  optSelfdestruct : option (gset string);
  optCreatedAddresses : option (gset string);
  optSkipBalance : option bool;
  optDelegatecall : option bool;
  optVersionedHashes : option (list bytes);
  optMessage : option Message;
}.

Record EVMResult := {
  createdAddress : option Address;
  execResult : ExecResult;
}.

(** The environment handed to the interpreter by [runInterpreter]. *)
Record Env := {
  envAddress : Address;
  envCaller : Address;
  envCallData : bytes;
  envCallValue : Z;
  envCode : option Code;
  envIsStatic : bool;
  envDepth : Z;
  envGasPrice : Z;
  envOrigin : Address;
  envBlock : Block;
  envContract : Account;
  envCodeAddress : Address;
  envGasRefund : Z;
  envContainerCode : option bytes;
  envVersionedHashes : list bytes;
}.

(** What [runInterpreter] reads after [interpreter.run]: the exception
    and the run state of the result, and [interpreter._result]. *)
Record InterpreterOutcome := {
  runException : option ERROR;
  gasLeft : Z;
  runGasRefund : Z;
  resultLogs : list Log;
  resultReturnValue : option bytes;
  resultSelfdestruct : option (gset string);
  resultCreatedAddresses : option (gset string);
}.

(** **** Field updates *)

Definition withAccounts (f : gmap Address Account → gmap Address Account)
    (sm : StateManager) : StateManager :=
  {| accounts := f (accounts sm); contractCode := contractCode sm;
     contractStorage := contractStorage sm |}.

Definition withStateManager (f : StateManager → StateManager) (c : Current)
  : Current :=
  {| stateManager := f (stateManager c);
     warmedAddresses := warmedAddresses c;
     transientStorage := transientStorage c |}.

Definition withCurrent (f : Current → Current) (w : World) : World :=
  {| current := f (current w); journalCheckpoints := journalCheckpoints w;
     transientCheckpoints := transientCheckpoints w; _tx := _tx w;
     _block := _block w |}.

Definition withCode (m : Message) (c : option Code) (compiled : bool)
    (container : option bytes) : Message :=
  {| to := to m; value := value m; caller := caller m; gasLimit := gasLimit m;
     data := data m; depth := depth m; code := c;
     _codeAddress := _codeAddress m; isStatic := isStatic m;
     isCompiled := compiled; salt := salt m; containerCode := container;
     msgSelfdestruct := msgSelfdestruct m;
     msgCreatedAddresses := msgCreatedAddresses m;
     delegatecall := delegatecall m; authcallOrigin := authcallOrigin m;
     msgGasRefund := msgGasRefund m; versionedHashes := versionedHashes m |}.

(** The assignments [message.code = message.data],
    [message.data = new Uint8Array(0)], [message.to = address] and the
    addition to [message.createdAddresses] of [_executeCreate]. *)
Definition asCreate (m : Message) (address_ : Address)
    (created : option (gset string)) : Message :=
  {| to := Some address_; value := value m; caller := caller m;
     gasLimit := gasLimit m; data := []; depth := depth m;
     code := Some (Bytecode (data m)); _codeAddress := _codeAddress m;
     isStatic := isStatic m; isCompiled := isCompiled m; salt := salt m;
     containerCode := containerCode m; msgSelfdestruct := msgSelfdestruct m;
     msgCreatedAddresses := created; delegatecall := delegatecall m;
     authcallOrigin := authcallOrigin m; msgGasRefund := msgGasRefund m;
     versionedHashes := versionedHashes m |}.

Definition withBalance (a : Account) (b : Z) : Account :=
  {| nonce := nonce a; balance := b; storageRoot := storageRoot a;
     codeHash := codeHash a |}.

Definition withNonce (a : Account) (n : Z) : Account :=
  {| nonce := n; balance := balance a; storageRoot := storageRoot a;
     codeHash := codeHash a |}.

(** **** The monad of the EVM methods: state and exceptions *)

Definition M (A : Type) : Type := World → result (A * World).

#[global] Instance M_ret : MRet M := λ A a w, Ok (a, w).
#[global] Instance M_bind : MBind M :=
  λ A B f m w, match m w with Ok (a, w') => f a w' | Err e => Err e end.

Definition throw {A} (msg : string) : M A := λ _, Err msg.
Definition gets {A} (f : World → A) : M A := λ w, Ok (f w, w).
Definition modify (f : World → World) : M unit := λ w, Ok (tt, f w).
Definition when_ (b : bool) (m : M unit) : M unit :=
  if b then m else mret tt.

(** **** State manager, journal and transient storage operations *)

Definition getAccount (a : Address) : M (option Account) :=
  gets (λ w, accounts (stateManager (current w)) !! a).

(** [journal.putAccount(address, account)]; [undefined] deletes. *)
Definition putAccount (a : Address) (account : option Account) : M unit :=
  modify (withCurrent (withStateManager (withAccounts (λ m,
    match account with
    | Some acc => <[a := acc]> m
    | None => delete a m
    end)))).

Definition getContractCode (a : Address) : M bytes :=
  gets (λ w, default [] (contractCode (stateManager (current w)) !! a)).

Definition clearContractStorage (a : Address) : M unit :=
  modify (withCurrent (withStateManager (λ sm,
    {| accounts :=
         match accounts sm !! a with
         | Some acc =>
             <[a := {| nonce := nonce acc; balance := balance acc;
                       storageRoot := KECCAK256_RLP;
                       codeHash := codeHash acc |}]> (accounts sm)
         | None => accounts sm
         end;
       contractCode := contractCode sm;
       contractStorage := delete a (contractStorage sm) |}))).

Definition addWarmedAddress (a : Address) : M unit :=
  modify (withCurrent (λ c,
    {| stateManager := stateManager c;
       warmedAddresses := {[a]} ∪ warmedAddresses c;
       transientStorage := transientStorage c |})).

Definition journal_checkpoint : M unit :=
  modify (λ w,
    {| current := current w;
       journalCheckpoints :=
         (stateManager (current w), warmedAddresses (current w))
           :: journalCheckpoints w;
       transientCheckpoints := transientCheckpoints w; _tx := _tx w;
       _block := _block w |}).

Definition journal_commit : M unit :=
  λ w, match journalCheckpoints w with
       | [] => Err "JournalUnbalanced"
       | _ :: rest =>
           Ok (tt, {| current := current w; journalCheckpoints := rest;
                      transientCheckpoints := transientCheckpoints w;
                      _tx := _tx w; _block := _block w |})
       end.

Definition journal_revert : M unit :=
  λ w, match journalCheckpoints w with
       | [] => Err "JournalUnbalanced"
       | (sm, warm) :: rest =>
           Ok (tt, {| current :=
                        {| stateManager := sm; warmedAddresses := warm;
                           transientStorage := transientStorage (current w) |};
                      journalCheckpoints := rest;
                      transientCheckpoints := transientCheckpoints w;
                      _tx := _tx w; _block := _block w |})
       end.

Definition withTransient (t : TransientMap) (stack : list TransientMap)
    (w : World) : World :=
  {| current := {| stateManager := stateManager (current w);
                   warmedAddresses := warmedAddresses (current w);
                   transientStorage := t |};
     journalCheckpoints := journalCheckpoints w;
     transientCheckpoints := stack; _tx := _tx w; _block := _block w |}.

Definition transient_checkpoint : M unit :=
  modify (λ w, withTransient (transientStorage (current w))
                 (transientStorage (current w) :: transientCheckpoints w) w).

Definition transient_commit : M unit :=
  λ w, match transientCheckpoints w with
       | [] => Err "Nothing to commit"
       | _ :: rest => Ok (tt, withTransient (transientStorage (current w)) rest w)
       end.

Definition transient_revert : M unit :=
  λ w, match transientCheckpoints w with
       | [] => Err "Nothing to revert"
       | t :: rest => Ok (tt, withTransient t rest w)
       end.

Definition transient_clear : M unit :=
  modify (λ w, withTransient ∅ (transientCheckpoints w) w).

(** A [throw] of the [common] object passes through the EVM method. *)
Definition liftResult {A} (r : result A) : M A :=
  λ w, match r with Ok a => Ok (a, w) | Err e => Err e end.

(** **** The EVM methods

    The interpreter, the hash function, the address derivation, the EOF
    helpers and the precompile implementations are not among the
    sources; the methods are written over them. Events have no
    listeners. *)

Section EVMMethods.

Variable keccak256 : bytes → bytes.
Variable generateAddress : Address → Z → Address.
Variable generateAddress2 : Address → bytes → bytes → Address.
Variable EOF_codeAnalysis : bytes → option (Z * Z).
Variable EOF_validOpcodes : bytes → bool.
Variable getEOFCode : bytes → bytes.
Variable runBuiltin : BuiltinPrecompile → PrecompileInput → ExecResult.

(** [interpreter.run]: from the environment, the gas limit and the
    [selfdestruct] and [createdAddresses] sets of the message, on the
    current state. Calls made by the code are well bracketed, so the
    checkpoints below the frame are out of its reach. *)
Variable interpreter_run :
  Env → Z → option (gset string) → option (gset string) → Current →
  result (InterpreterOutcome * Current).

(** [this] *)
Variable evm : EVM.

Definition EOF_FORMAT : Z := 0xEF.

Definition putContractCode (a : Address) (value_ : bytes) : M unit :=
  modify (withCurrent (withStateManager (λ sm,
    let acc := default newAccount (accounts sm !! a) in
    {| accounts :=
         <[a := {| nonce := nonce acc; balance := balance acc;
                   storageRoot := storageRoot acc;
                   codeHash := keccak256 value_ |}]> (accounts sm);
       contractCode := <[a := value_]> (contractCode sm);
       contractStorage := contractStorage sm |}))).

Definition getPrecompile (a : Address) : option PrecompileFunc :=
  mapGet (_precompiles evm) (util.bytesToUnprefixedHex a).

Definition applyPrecompile (f : PrecompileFunc) (input : PrecompileInput)
  : ExecResult :=
  match f with
  | Builtin p => runBuiltin p input
  | UserFunc g => g input
  end.

Definition runPrecompile (code_ : option Code) (data_ : bytes) (gasLimit_ : Z)
  : M ExecResult :=
  match code_ with
  | Some (Compiled f) =>
      mret (applyPrecompile f {| inputData := data_; inputGasLimit := gasLimit_;
                                 inputCommon := common evm |})
  | _ => throw "Invalid precompile"
  end.

(** The getter [message.codeAddress]. *)
Definition codeAddress (m : Message) : M Address :=
  match _codeAddress m with
  | Some a => mret a
  | None => match to m with
            | Some a => mret a
            | None => throw "Missing codeAddress"
            end
  end.

Definition _loadCode (m : Message) : M Message :=
  match code m with
  | Some _ => mret m
  | None =>
      a ← codeAddress m;
      match getPrecompile a with
      | Some precompile_ =>
          mret (withCode m (Some (Compiled precompile_)) true (containerCode m))
      | None =>
          containerCode_ ← getContractCode a;
          mret (withCode m
                  (Some (Bytecode
                     (if common.isActivatedEIP (common evm) 3540
                      then getEOFCode containerCode_ else containerCode_)))
                  false (Some containerCode_))
      end
  end.

Definition _generateAddress (m : Message) : M Address :=
  match salt m with
  | Some salt_ =>
      match code m with
      | Some (Bytecode code_) => mret (generateAddress2 (caller m) salt_ code_)
      | _ => throw "TypeError: code is not a byte array"
      end
  | None =>
      acc ← getAccount (caller m);
      let acc := default newAccount acc in
      let newNonce := nonce acc - 1 in
      mret (generateAddress (caller m) newNonce)
  end.

(** [_reduceSenderBalance]: [Some e] when it throws the EVM error [e]. *)
Definition _reduceSenderBalance (account : Account) (m : Message)
  : M (option ERROR) :=
  let balance_ := balance account - value m in
  if balance_ <? 0 then mret (Some INSUFFICIENT_BALANCE)
  else
    _ ← putAccount (default (caller m) (authcallOrigin m))
                   (Some (withBalance account balance_));
    mret None.

(** [_addToBalance]: [Some e] when it throws the EVM error [e]. *)
Definition _addToBalance (toAccount : Account) (m : Message) (to_ : Address)
  : M (option ERROR) :=
  let newBalance := balance toAccount + value m in
  if MAX_INTEGER <? newBalance then mret (Some VALUE_OVERFLOW)
  else
    _ ← putAccount to_ (Some (withBalance toAccount newBalance));
    mret None.

Definition postMessageCleanup : M unit :=
  when_ (common.isActivatedEIP (common evm) 1153) transient_clear.

Definition codeIsEmpty (c : option Code) : bool :=
  match c with
  | None => true
  | Some (Bytecode bs) => bool_decide (length bs = 0%nat)
  | Some (Compiled _) => false
  end.

(** The call of [interpreter.run] on the current state. *)
Definition interpret (env : Env) (m : Message) : M InterpreterOutcome :=
  λ w, match interpreter_run env (gasLimit m) (msgSelfdestruct m)
               (msgCreatedAddresses m) (current w) with
       | Err e => Err e
       | Ok (interpreterRes, current') =>
           Ok (interpreterRes, withCurrent (λ _, current') w)
       end.

Definition runInterpreter (m : Message) : M ExecResult :=
  contract ← getAccount (default Address_zero (to m));
  let contract := default newAccount contract in
  tx ← gets _tx;
  block_ ← gets _block;
  match tx with
  | None => throw "TypeError: Cannot read properties of undefined"
  | Some tx =>
      codeAddress_ ← codeAddress m;
      let env :=
        {| envAddress := default Address_zero (to m);
           envCaller := caller m;
           envCallData := data m;
           envCallValue := value m;
           envCode := code m;
           envIsStatic := isStatic m;
           envDepth := depth m;
           envGasPrice := gasPrice tx;
           envOrigin := origin tx;
           envBlock := default defaultBlock block_;
           envContract := contract;
           envCodeAddress := codeAddress_;
           envGasRefund := msgGasRefund m;
           envContainerCode := containerCode m;
           envVersionedHashes := default [] (versionedHashes m) |} in
      interpreterRes ← interpret env m;
      let gasUsed :=
        match runException interpreterRes with
        | Some e =>
            if negb (bool_decide (e = REVERT))
               && negb (bool_decide (e = INVALID_EOF_FORMAT))
            then gasLimit m
            else gasLimit m - gasLeft interpreterRes
        | None => gasLimit m - gasLeft interpreterRes
        end in
      let failed := bool_decide (is_Some (runException interpreterRes)) in
      mret {| exceptionError := runException interpreterRes;
              gas := Some (gasLeft interpreterRes);
              executionGasUsed := gasUsed;
              returnValue := default [] (resultReturnValue interpreterRes);
              logs := Some (if failed then [] else resultLogs interpreterRes);
              selfdestruct :=
                if failed then Some ∅ else resultSelfdestruct interpreterRes;
              createdAddresses :=
                if failed then Some ∅
                else resultCreatedAddresses interpreterRes;
              gasRefund := Some (runGasRefund interpreterRes);
              dataGasUsed := None |}
  end.

(** The early exit of [_executeCall] and [_executeCreate]. *)
Definition exitResult (m : Message) (errorMessage : option ERROR) : ExecResult :=
  {| exceptionError := errorMessage; gas := None; executionGasUsed := 0;
     returnValue := []; logs := None; selfdestruct := None;
     createdAddresses := None; gasRefund := Some (msgGasRefund m);
     dataGasUsed := None |}.

Definition withGasRefund (r : ExecResult) (refund : option Z) : ExecResult :=
  {| exceptionError := exceptionError r; gas := gas r;
     executionGasUsed := executionGasUsed r; returnValue := returnValue r;
     logs := logs r; selfdestruct := selfdestruct r;
     createdAddresses := createdAddresses r; gasRefund := refund;
     dataGasUsed := dataGasUsed r |}.

Definition withGasUsed (r : ExecResult) (gasUsed : Z) : ExecResult :=
  {| exceptionError := exceptionError r; gas := gas r;
     executionGasUsed := gasUsed; returnValue := returnValue r;
     logs := logs r; selfdestruct := selfdestruct r;
     createdAddresses := createdAddresses r; gasRefund := gasRefund r;
     dataGasUsed := dataGasUsed r |}.

Definition _executeCall (m : Message) (to_ : Address) : M EVMResult :=
  account ← getAccount (default (caller m) (authcallOrigin m));
  let account := default newAccount account in
  errorMessage ←
    (if negb (delegatecall m) then _reduceSenderBalance account m
     else mret None);
  toAccount ← getAccount to_;
  let toAccount := default newAccount toAccount in
  errorMessage ←
    (if negb (delegatecall m) then
       e ← _addToBalance toAccount m to_;
       mret (match e with Some _ => e | None => errorMessage end)
     else mret errorMessage);
  m ← _loadCode m;
  let exit := codeIsEmpty (code m) || bool_decide (is_Some errorMessage) in
  if exit then
    mret {| createdAddress := None; execResult := exitResult m errorMessage |}
  else
    result_ ←
      (if isCompiled m then
         r ← runPrecompile (code m) (data m) (gasLimit m);
         mret (withGasRefund r (Some (msgGasRefund m)))
       else runInterpreter m);
    _ ← when_ (depth m =? 0) postMessageCleanup;
    mret {| createdAddress := None; execResult := result_ |}.

(** The checks of [_executeCreate] on the deployed code, once the
    interpreter has returned [result_]: the result to report and whether
    the Frontier code-deposit case applies. *)
Definition depositCode (m : Message) (result_ : ExecResult)
  : result (ExecResult * bool) :=
  let totalGas := executionGasUsed result_ in
  fee ←
    (if bool_decide (exceptionError result_ = None) then
       createData ← common.param (common evm) "gasPrices" "createData";
       Ok (Z.of_nat (length (returnValue result_)) * createData)
     else Ok 0);
  let returnFee := fee in
  let totalGas := totalGas + returnFee in
  allowedCodeSize ←
    (if bool_decide (exceptionError result_ = None)
        && common.gteHardfork (common evm) common.Hardfork.SpuriousDragon
     then
       maxCodeSize ← common.param (common evm) "vm" "maxCodeSize";
       Ok (negb (maxCodeSize <? Z.of_nat (length (returnValue result_))))
     else Ok true);
  if (totalGas <=? gasLimit m)
     && (allowUnlimitedContractSize evm || allowedCodeSize)
  then
    if common.isActivatedEIP (common evm) 3541
       && bool_decide (head (returnValue result_) = Some EOF_FORMAT)
    then
      let result_ :=
        if negb (common.isActivatedEIP (common evm) 3540)
        then spreadOver result_ (INVALID_BYTECODE_RESULT_ (gasLimit m))
        else result_ in
      match EOF_codeAnalysis (returnValue result_) with
      | None => Ok (spreadOver result_ (INVALID_EOF_RESULT (gasLimit m)), false)
      | Some (codeSize, dataSize) =>
          if common.isActivatedEIP (common evm) 3670 then
            let codeStart := if 0 <? dataSize then 10 else 7 in
            if negb (EOF_validOpcodes
                       (js.slice codeStart (codeStart + codeSize)
                          (returnValue result_)))
            then Ok (spreadOver result_ (INVALID_EOF_RESULT (gasLimit m)), false)
            else Ok (withGasUsed result_ totalGas, false)
          else Ok (result_, false)
      end
    else Ok (withGasUsed result_ totalGas, false)
  else if common.gteHardfork (common evm) common.Hardfork.Homestead then
    if negb allowedCodeSize
    then Ok (spreadOver result_ (CodesizeExceedsMaximumError (gasLimit m)), false)
    else Ok (spreadOver result_ (OOGResult (gasLimit m)), false)
  else if totalGas - returnFee <=? gasLimit m
  then Ok (spreadOver result_ (COOGResult (totalGas - returnFee)), true)
  else Ok (spreadOver result_ (OOGResult (gasLimit m)), false).

Definition _executeCreate (m : Message) : M EVMResult :=
  account ← getAccount (caller m);
  let account := default newAccount account in
  thrown ← _reduceSenderBalance account m;
  match thrown with
  | Some _ => throw "EvmError: insufficient balance"
  | None =>
  let initCodeTooLarge : M bool :=
    if common.isActivatedEIP (common evm) 3860 then
      maxInitCodeSize ←
        liftResult (common.param (common evm) "vm" "maxInitCodeSize");
      mret ((maxInitCodeSize <? Z.of_nat (length (data m)))
            && negb (allowUnlimitedInitCodeSize evm))
    else mret false in
  tooLarge ← initCodeTooLarge;
  if (tooLarge : bool) then
    mret {| createdAddress := to m;
            execResult := errorResult INITCODE_SIZE_VIOLATION (gasLimit m) |}
  else
  let m := withCode m (Some (Bytecode (data m))) (isCompiled m)
             (containerCode m) in
  to_ ← _generateAddress m;
  created ←
    (if common.isActivatedEIP (common evm) 6780 then
       match msgCreatedAddresses m with
       | Some set_ => mret (Some ({[Address_toString to_]} ∪ set_))
       | None => throw "TypeError: Cannot read properties of undefined"
       end
     else mret (msgCreatedAddresses m));
  let m := asCreate m to_ created in
  toAccount ← getAccount to_;
  let toAccount := default newAccount toAccount in
  if (negb (nonce toAccount =? 0) && (0 <? nonce toAccount))
     || negb (util.equalsBytes (codeHash toAccount) KECCAK256_NULL)
  then
    mret {| createdAddress := Some to_;
            execResult := errorResult CREATE_COLLISION (gasLimit m) |}
  else
  _ ← putAccount to_ (Some toAccount);
  _ ← clearContractStorage to_;
  toAccount ← getAccount to_;
  let toAccount := default newAccount toAccount in
  let toAccount :=
    if common.gteHardfork (common evm) common.Hardfork.SpuriousDragon
    then withNonce toAccount (nonce toAccount + 1) else toAccount in
  errorMessage ← _addToBalance toAccount m to_;
  let exit := codeIsEmpty (code m) || bool_decide (is_Some errorMessage) in
  if exit then
    mret {| createdAddress := Some to_;
            execResult := exitResult m errorMessage |}
  else
  result_ ← runInterpreter m;
  ' (result_, CodestoreOOG) ← liftResult (depositCode m result_);
  _ ←
    (if bool_decide (exceptionError result_ = None)
        && negb (bool_decide (length (returnValue result_) = 0%nat))
     then putContractCode to_ (returnValue result_)
     else if (CodestoreOOG : bool) then
       if negb (common.gteHardfork (common evm) common.Hardfork.Homestead)
       then
         account ← getAccount to_;
         putAccount to_ (Some (default newAccount account))
       else mret tt
     else mret tt);
  mret {| createdAddress := Some to_; execResult := result_ |}
  end.

(** [new Message(opts)] with the defaults of [message.js]. *)
Definition newMessage (opts : EVMRunCallOpts) (caller_ : Address) (value_ : Z)
  : result Message :=
  if value_ <? 0 then Err "value field cannot be negative"
  else
    Ok {| to := optTo opts; value := value_; caller := caller_;
          gasLimit := default 0xffffff (optGasLimit opts);
          data := default [] (optData opts);
          depth := default 0 (optDepth opts);
          code := optCode opts; _codeAddress := None;
          isStatic := default false (optIsStatic opts);
          isCompiled := default false (optIsCompiled opts);
          salt := optSalt opts; containerCode := None;
          msgSelfdestruct := Some (default ∅ (optSelfdestruct opts));
          msgCreatedAddresses := Some (default ∅ (optCreatedAddresses opts));
          delegatecall := default false (optDelegatecall opts);
          authcallOrigin := None; msgGasRefund := 0;
          versionedHashes := optVersionedHashes opts |}.

Definition setContexts (block_ : Block) (tx : TxContext) : M unit :=
  modify (λ w,
    {| current := current w; journalCheckpoints := journalCheckpoints w;
       transientCheckpoints := transientCheckpoints w;
       _tx := Some tx; _block := Some block_ |}).

(** [runCall] when no message is given: the contexts are set, the
    balance of the caller is topped up under [skipBalance], and the
    message is built. The caller account that was loaded, if any, is
    returned with the message. *)
Definition messageFromOpts (opts : EVMRunCallOpts)
  : M (Message * option Account) :=
  _ ← setContexts (default defaultBlock (optBlock opts))
        {| gasPrice := default 0 (optGasPrice opts);
           origin := default (default Address_zero (optCaller opts))
                       (optOrigin opts) |};
  let caller_ := default Address_zero (optCaller opts) in
  let value_ := default 0 (optValue opts) in
  callerAccount ←
    (if bool_decide (optSkipBalance opts = Some true) then
       callerAccount ← getAccount caller_;
       let callerAccount := default newAccount callerAccount in
       if balance callerAccount <? value_ then
         let callerAccount := withBalance callerAccount value_ in
         _ ← putAccount caller_ (Some callerAccount);
         mret (Some callerAccount)
       else mret (Some callerAccount)
     else mret None);
  message ← liftResult (newMessage opts caller_ value_);
  mret (message, callerAccount).

(** [runCall] up to the checkpoint: the message, the nonce of the caller
    at depth 0, and the warm address of a creation. *)
Definition runCall_prepare (opts : EVMRunCallOpts) : M Message :=
  ' (message, callerAccount) ←
    match optMessage opts with
    | Some message => mret (message, None)
    | None => messageFromOpts opts
    end;
  _ ←
    (if depth message =? 0 then
       callerAccount ←
         match callerAccount with
         | Some acc => mret (Some acc)
         | None => getAccount (caller message)
         end;
       let callerAccount := default newAccount callerAccount in
       putAccount (caller message)
         (Some (withNonce callerAccount (nonce callerAccount + 1)))
     else mret tt);
  if bool_decide (to message = None)
     && common.isActivatedEIP (common evm) 2929
  then
    let message := withCode message (Some (Bytecode (data message)))
                     (isCompiled message) (containerCode message) in
    a ← _generateAddress message;
    _ ← addWarmedAddress a;
    mret message
  else mret message.

Definition executeMessage (message : Message) : M EVMResult :=
  match to message with
  | Some to_ => _executeCall message to_
  | None => _executeCreate message
  end.

Definition clearSideEffects (r : ExecResult) : ExecResult :=
  {| exceptionError := exceptionError r; gas := gas r;
     executionGasUsed := executionGasUsed r; returnValue := returnValue r;
     logs := logs r; selfdestruct := Some ∅; createdAddresses := Some ∅;
     gasRefund := Some 0; dataGasUsed := dataGasUsed r |}.

Definition clearLogs (r : ExecResult) : ExecResult :=
  {| exceptionError := exceptionError r; gas := gas r;
     executionGasUsed := executionGasUsed r; returnValue := returnValue r;
     logs := Some []; selfdestruct := selfdestruct r;
     createdAddresses := createdAddresses r; gasRefund := gasRefund r;
     dataGasUsed := dataGasUsed r |}.

(** [runCall] from the execution result on: what an exception clears,
    and whether the checkpoints are reverted or committed. *)
Definition runCall_finish (result_ : EVMResult) : M EVMResult :=
  let err := exceptionError (execResult result_) in
  let r := execResult result_ in
  let r :=
    match err with
    | Some e =>
        if negb (bool_decide (e = CODESTORE_OUT_OF_GAS))
        then clearSideEffects r else r
    | None => r
    end in
  let dismissed (e : ERROR) :=
    String.eqb (common.hardfork (common evm)) common.Hardfork.Chainstart
    && bool_decide (e = CODESTORE_OUT_OF_GAS) in
  match err with
  | Some e =>
      if negb (dismissed e) then
        _ ← journal_revert;
        _ ← when_ (common.isActivatedEIP (common evm) 1153) transient_revert;
        mret {| createdAddress := createdAddress result_;
                execResult := clearLogs r |}
      else
        _ ← journal_commit;
        _ ← when_ (common.isActivatedEIP (common evm) 1153) transient_commit;
        mret {| createdAddress := createdAddress result_; execResult := r |}
  | None =>
      _ ← journal_commit;
      _ ← when_ (common.isActivatedEIP (common evm) 1153) transient_commit;
      mret {| createdAddress := createdAddress result_; execResult := r |}
  end.

Definition takeCheckpoints : M unit :=
  _ ← journal_checkpoint;
  when_ (common.isActivatedEIP (common evm) 1153) transient_checkpoint.

Definition runCall (opts : EVMRunCallOpts) : M EVMResult :=
  message ← runCall_prepare opts;
  _ ← takeCheckpoints;
  result_ ← executeMessage message;
  runCall_finish result_.

End EVMMethods.

End evm.

(** ** packages/rlp: the recursive-length-prefix codec

    Modelled from the spec: the rlp package is not among the sources;
    section 6 names it the canonical recursive-length-prefix codec of
    all transaction envelopes. *)

Module rlp.

Abbreviation bytes := (list Z).

(** A decoded value: a byte array or an array of values. *)
#[local] Set Warnings "-register-all".
Inductive Item :=
| Bytes (bs : bytes)
| List (items : list Item).

Definition encodeLength (len : nat) (offset : Z) : bytes :=
  if (len <? 56)%nat then [Z.of_nat len + offset]
  else
    let hexLength := util.bigIntToUnpaddedBytes (Z.of_nat len) in
    (offset + 55 + Z.of_nat (length hexLength)) :: hexLength.

Fixpoint encode (input : Item) : bytes :=
  match input with
  | Bytes bs =>
      match bs with
      | [b] => if b <? 0x80 then [b] else encodeLength 1 0x80 ++ bs
      | _ => encodeLength (length bs) 0x80 ++ bs
      end
  | List items =>
      let payload :=
        (fix encodeAll (l : list Item) : bytes :=
           match l with
           | [] => []
           | x :: r => encode x ++ encodeAll r
           end) items in
      encodeLength (length payload) 0xc0 ++ payload
  end.

Definition safeSlice (input : bytes) (start stop : Z) : result bytes :=
  if Z.of_nat (length input) <? stop then
    Err "invalid RLP (safeSlice): end slice of Uint8Array out-of-bounds"
  else Ok (js.slice start stop input).

Definition decodeLength (v : bytes) : result Z :=
  match v with
  | 0 :: _ => Err "invalid RLP: extra zeros"
  | _ => Ok (util.bytesToBigInt v)
  end.

(** [_decode], with [fuel] for the recursion into lists; [decodeAll] is
    its [while (innerRemainder.length)] loop. A value and a round of the
    loop take one unit each, and both use up at least one octet. *)
Fixpoint _decode (fuel : nat) (input : bytes) : result (Item * bytes) :=
  match fuel with
  | O => Err "out of fuel"
  | S fuel =>
      match input with
      | [] => Err "TypeError: undefined first byte"
      | firstByte :: _ =>
          if firstByte <=? 0x7f then
            Ok (Bytes (js.slice 0 1 input), js.sliceFrom 1 input)
          else if firstByte <=? 0xb7 then
            let len := firstByte - 0x7f in
            data ← (if firstByte =? 0x80 then Ok [] else safeSlice input 1 len);
            if (len =? 2) && bool_decide (default 0x80 (head data) < 0x80) then
              Err "invalid RLP encoding: invalid prefix, single byte < 0x80 are not prefixed"
            else Ok (Bytes data, js.sliceFrom len input)
          else if firstByte <=? 0xbf then
            let llength := firstByte - 0xb6 in
            if Z.of_nat (length input) - 1 <? llength then
              Err "invalid RLP: not enough bytes for string length"
            else
              lenBytes ← safeSlice input 1 llength;
              len ← decodeLength lenBytes;
              if len <=? 55 then
                Err "invalid RLP: expected string length to be greater than 55"
              else
                data ← safeSlice input llength (len + llength);
                Ok (Bytes data, js.sliceFrom (len + llength) input)
          else if firstByte <=? 0xf7 then
            let len := firstByte - 0xbf in
            innerRemainder ← safeSlice input 1 len;
            decoded ← decodeAll fuel innerRemainder;
            Ok (List decoded, js.sliceFrom len input)
          else
            let llength := firstByte - 0xf6 in
            lenBytes ← safeSlice input 1 llength;
            len ← decodeLength lenBytes;
            if len <? 56 then Err "invalid RLP: encoded list too short"
            else
              let totalLength := llength + len in
              if Z.of_nat (length input) <? totalLength then
                Err "invalid RLP: total length is larger than the data"
              else
                innerRemainder ← safeSlice input llength totalLength;
                decoded ← decodeAll fuel innerRemainder;
                Ok (List decoded, js.sliceFrom totalLength input)
      end
  end
with decodeAll (fuel : nat) (innerRemainder : bytes) : result (list Item) :=
  match fuel with
  | O => Err "out of fuel"
  | S fuel =>
      match innerRemainder with
      | [] => Ok []
      | _ =>
          d ← _decode fuel innerRemainder;
          rest ← decodeAll fuel d.2;
          Ok (d.1 :: rest)
      end
  end.

(** [RLP.decode(input)]: the whole input is one value. *)
Definition decode (input : bytes) : result Item :=
  match input with
  | [] => Ok (Bytes [])
  | _ =>
      decoded ← _decode (S (2 * length input)) input;
      if negb (bool_decide (length decoded.2 = 0%nat))
      then Err "RLP: remainder must be zero"
      else Ok decoded.1
  end.

End rlp.

(** ** packages/tx: the EIP-4844 blob transaction *)

Module tx.

Abbreviation bytes := (list Z).

Definition SECP256K1_ORDER_DIV_2 : Z :=
  0x7fffffffffffffffffffffffffffffff5d576e7357a4501ddfe92f46681b20a0.

Definition MAX_INTEGER : Z := 2 ^ 256 - 1.
Definition MAX_UINT64 : Z := 2 ^ 64 - 1.

(** [TransactionType.BlobEIP4844] and [TRANSACTION_TYPE_BYTES]. *)
Definition TransactionType_BlobEIP4844 : Z := 3.
Definition TRANSACTION_TYPE_BYTES : bytes := [TransactionType_BlobEIP4844].

(** A numeric or byte field of the transaction data: missing, a byte
    array, or a [bigint]. (Numbers and hexadecimal strings are left out.) *)
Inductive Input :=
| IUndefined
| IBytes (bs : bytes)
| IBigInt (n : Z).

(** Modelled from the spec: [toBytes] of the util package. A byte array
    is copied, [undefined] is the empty array, a [bigint] is written
    with an even number of hexadecimal digits, so [0n] is the octet
    [00]; a negative [bigint] is refused. *)
Definition toBytes (x : Input) : result bytes :=
  match x with
  | IUndefined => Ok []
  | IBytes bs => Ok bs
  | IBigInt n =>
      if n <? 0 then Err "Cannot convert negative bigint to Uint8Array"
      else Ok (util.intToBytes n)
  end.

(** [bytesToBigInt(toBytes(x))] *)
Definition toBigInt (x : Input) : result Z :=
  bs ← toBytes x; Ok (util.bytesToBigInt bs).

(** [AccessListBytes]: items of an address and its storage keys. *)
Abbreviation AccessListBytes := (list (bytes * list bytes)).

(** The transaction data handed to the constructor. *)
Record TxData := {
  chainId : Input;
  nonce : Input;
  maxPriorityFeePerGas : Input;
  maxFeePerGas : Input;
  gasLimit : Input;
  to : Input;
  value : Input;
  data : Input;
  accessList : option AccessListBytes;
  maxFeePerDataGas : Input;
  versionedHashes : option (list bytes);
  v : Input;
  r : Input;
  s : Input;
  blobs : option (list bytes);
  kzgCommitments : option (list bytes);
  kzgProofs : option (list bytes);
}.

(** [TxOptions]; the [Common] is always given. *)
Record TxOptions := {
  optCommon : common.Common;
  optFreeze : option bool;
  optAllowUnlimitedInitCodeSize : option bool;
}.

(** The fields of a [BlobEIP4844Transaction] object. *)
Record BlobEIP4844Transaction := {
  txNonce : Z;
  txGasLimit : Z;
  txTo : option bytes;
  txValue : Z;
  txData : bytes;
  txV : option Z;
  txR : option Z;
  txS : option Z;
  txChainId : Z;
  txAccessList : AccessListBytes;
  txMaxPriorityFeePerGas : Z;
  txMaxFeePerGas : Z;
  txMaxFeePerDataGas : Z;
  txVersionedHashes : list bytes;
  txBlobs : option (list bytes);
  txKzgCommitments : option (list bytes);
  txKzgProofs : option (list bytes);
  txCommon : common.Common;
  txFrozen : bool;
}.

Definition check (ok : bool) (msg : string) : result unit :=
  if ok then Ok tt else Err msg.

(** [vB.length > 0 ? bytesToBigInt(vB) : undefined] *)
Definition optionalBigInt (x : Input) : result (option Z) :=
  bs ← toBytes x;
  Ok (if bool_decide (length bs = 0%nat) then None
      else Some (util.bytesToBigInt bs)).

(** The fields that [BaseTransaction] sets. *)
Record BaseFields := {
  baseNonce : Z;
  baseGasLimit : Z;
  baseTo : option bytes;
  baseValue : Z;
  baseData : bytes;
  baseV : option Z;
  baseR : option Z;
  baseS : option Z;
}.

(** Modelled from the spec: the constructor of [BaseTransaction]
    ([baseTransaction.js] is not among the sources). It reads the shared
    fields, keeps [to] and the signature values only when their bytes
    are not empty, requires an address of 20 bytes, and checks that
    [value], [r] and [s] fit 256 bits, that the gas limit fits 64 bits
    and the nonce is below [2^64 - 1] (section 3: all integer fields fit
    in u256, nonce and gas are u64), and the EIP-3860 size of the init
    code of a creation. *)
Definition BaseTransaction_constructor (d : TxData) (opts : TxOptions)
  : result BaseFields :=
  toB ← toBytes (to d);
  nonce_ ← toBigInt (nonce d);
  gasLimit_ ← toBigInt (gasLimit d);
  _ ← check (bool_decide (length toB = 0%nat) || bool_decide (length toB = 20%nat))
        "Invalid address length";
  value_ ← toBigInt (value d);
  data_ ← toBytes (data d);
  v_ ← optionalBigInt (v d);
  r_ ← optionalBigInt (r d);
  s_ ← optionalBigInt (s d);
  _ ← check (value_ <=? MAX_INTEGER) "value cannot exceed MAX_INTEGER";
  _ ← check (default 0 r_ <=? MAX_INTEGER) "r cannot exceed MAX_INTEGER";
  _ ← check (default 0 s_ <=? MAX_INTEGER) "s cannot exceed MAX_INTEGER";
  _ ← check (gasLimit_ <=? MAX_UINT64) "gasLimit cannot exceed MAX_UINT64";
  _ ← check (nonce_ <? MAX_UINT64) "nonce cannot equal or exceed MAX_UINT64";
  let to_ := if bool_decide (length toB = 0%nat) then None else Some toB in
  _ ←
    (if bool_decide (to_ = None)
        && common.isActivatedEIP (optCommon opts) 3860
        && negb (default false (optAllowUnlimitedInitCodeSize opts))
     then
       maxInitCodeSize ← common.param (optCommon opts) "vm" "maxInitCodeSize";
       check (Z.of_nat (length data_) <=? maxInitCodeSize)
         "the initcode size of this transaction is too large"
     else Ok tt);
  Ok {| baseNonce := nonce_; baseGasLimit := gasLimit_; baseTo := to_;
        baseValue := value_; baseData := data_; baseV := v_; baseR := r_;
        baseS := s_ |}.

(** Modelled from the spec: [_getCommon] of [BaseTransaction] with a
    [Common] given: a chain id in the data has to be that of the
    [Common]. *)
Definition _getCommon (c : common.Common) (chainId_ : Input)
  : result common.Common :=
  match chainId_ with
  | IUndefined => Ok c
  | _ =>
      chainIdBigInt ← toBigInt chainId_;
      _ ← check (common.chainId c =? chainIdBigInt)
            "The chain ID does not match the chain ID of Common";
      Ok c
  end.

(** Modelled from the spec: [AccessLists.verifyAccessList] (addresses of
    20 bytes, storage keys of 32 bytes). *)
Definition verifyAccessList (accessList_ : AccessListBytes) : result unit :=
  check (forallb (λ item : bytes * list bytes,
                    bool_decide (length item.1 = 20%nat)
                    && forallb (λ slot, bool_decide (length slot = 32%nat)) item.2)
           accessList_)
    "Invalid EIP-2930 transaction: address or storage slot length".

(** Modelled from the spec: [_validateYParity] and [_validateHighS]
    (y-parity is 0 or 1; [s] is at most [secp256k1n/2] from Homestead
    on). *)
Definition _validateYParity (v_ : option Z) : result unit :=
  check (match v_ with
         | Some x => (x =? 0) || (x =? 1)
         | None => true
         end)
    "The y-parity of the transaction should either be 0 or 1".

Definition _validateHighS (c : common.Common) (s_ : option Z) : result unit :=
  check (negb (common.gteHardfork c common.Hardfork.Homestead
               && match s_ with
                  | Some x => SECP256K1_ORDER_DIV_2 <? x
                  | None => false
                  end))
    "Invalid Signature: s-values greater than secp256k1n/2 are considered invalid".

Section BlobTransaction.

(** [LIMIT_BLOBS_PER_TX] of [constants.js], the batch verifier of the
    KZG library that was installed with [initKZG], and
    [computeVersionedHash] of the util package. *)
Variable LIMIT_BLOBS_PER_TX : Z.
Variable verifyBlobKzgProofBatch :
  list bytes → list bytes → list bytes → result bool.
Variable computeVersionedHash : bytes → Z → bytes.

(** The loop of the constructor over the versioned hashes. *)
Fixpoint checkVersionedHashes (c : common.Common) (hashes : list bytes)
  : result unit :=
  match hashes with
  | [] => Ok tt
  | hash :: rest =>
      _ ← check (bool_decide (length hash = 32%nat))
            "versioned hash is invalid length";
      version ← common.paramByEIP c "sharding" "blobCommitmentVersionKzg" 4844;
      _ ← check (bool_decide (Some (default 0 (head hash)) = version))
            "versioned hash does not start with KZG commitment version";
      checkVersionedHashes c rest
  end.

(** [new BlobEIP4844Transaction(txData, opts)] *)
Definition constructor (d : TxData) (opts : TxOptions)
  : result BlobEIP4844Transaction :=
  base ← BaseTransaction_constructor d opts;
  common_ ← _getCommon (optCommon opts) (chainId d);
  let chainId_ := common.chainId common_ in
  _ ← check (common.isActivatedEIP common_ 1559)
        "EIP-1559 not enabled on Common";
  _ ← check (common.isActivatedEIP common_ 4844)
        "EIP-4844 not enabled on Common";
  let accessList_ := default [] (accessList d) in
  _ ← verifyAccessList accessList_;
  maxFeePerGas_ ← toBigInt (maxFeePerGas d);
  maxPriorityFeePerGas_ ← toBigInt (maxPriorityFeePerGas d);
  _ ← check (maxFeePerGas_ <=? MAX_INTEGER)
        "maxFeePerGas cannot exceed MAX_INTEGER";
  _ ← check (maxPriorityFeePerGas_ <=? MAX_INTEGER)
        "maxPriorityFeePerGas cannot exceed MAX_INTEGER";
  _ ← check (baseGasLimit base * maxFeePerGas_ <=? MAX_INTEGER)
        "gasLimit * maxFeePerGas cannot exceed MAX_INTEGER (2^256-1)";
  _ ← check (maxPriorityFeePerGas_ <=? maxFeePerGas_)
        "maxFeePerGas cannot be less than maxPriorityFeePerGas";
  maxFeePerDataGas_ ← toBigInt (maxFeePerDataGas d);
  let versionedHashes_ := default [] (versionedHashes d) in
  _ ← _validateYParity (baseV base);
  _ ← _validateHighS common_ (baseS base);
  _ ← checkVersionedHashes common_ versionedHashes_;
  _ ← check (Z.of_nat (length versionedHashes_) <=? LIMIT_BLOBS_PER_TX)
        "tx can contain at most LIMIT_BLOBS_PER_TX blobs";
  Ok {| txNonce := baseNonce base; txGasLimit := baseGasLimit base;
        txTo := baseTo base; txValue := baseValue base;
        txData := baseData base; txV := baseV base; txR := baseR base;
        txS := baseS base; txChainId := chainId_;
        txAccessList := accessList_;
        txMaxPriorityFeePerGas := maxPriorityFeePerGas_;
        txMaxFeePerGas := maxFeePerGas_;
        txMaxFeePerDataGas := maxFeePerDataGas_;
        txVersionedHashes := versionedHashes_;
        txBlobs := blobs d; txKzgCommitments := kzgCommitments d;
        txKzgProofs := kzgProofs d; txCommon := common_;
        txFrozen := default true (optFreeze opts) |}.

(** [raw()] *)
Definition optionalUnpadded (x : option Z) : bytes :=
  match x with
  | Some n => util.bigIntToUnpaddedBytes n
  | None => []
  end.

Definition accessListItems (l : AccessListBytes) : list rlp.Item :=
  (λ item : bytes * list bytes,
     rlp.List [rlp.Bytes item.1; rlp.List (rlp.Bytes <$> item.2)]) <$> l.

Definition raw (t : BlobEIP4844Transaction) : list rlp.Item := [
  rlp.Bytes (util.bigIntToUnpaddedBytes (txChainId t));
  rlp.Bytes (util.bigIntToUnpaddedBytes (txNonce t));
  rlp.Bytes (util.bigIntToUnpaddedBytes (txMaxPriorityFeePerGas t));
  rlp.Bytes (util.bigIntToUnpaddedBytes (txMaxFeePerGas t));
  rlp.Bytes (util.bigIntToUnpaddedBytes (txGasLimit t));
  rlp.Bytes (default [] (txTo t));
  rlp.Bytes (util.bigIntToUnpaddedBytes (txValue t));
  rlp.Bytes (txData t);
  rlp.List (accessListItems (txAccessList t));
  rlp.Bytes (util.bigIntToUnpaddedBytes (txMaxFeePerDataGas t));
  rlp.List (rlp.Bytes <$> txVersionedHashes t);
  rlp.Bytes (optionalUnpadded (txV t));
  rlp.Bytes (optionalUnpadded (txR t));
  rlp.Bytes (optionalUnpadded (txS t))
].

(** [serialize()] *)
Definition serialize (t : BlobEIP4844Transaction) : bytes :=
  let base := raw t in
  TRANSACTION_TYPE_BYTES ++ rlp.encode (rlp.List base).

(** The shapes that the values array is typed with: a field is a byte
    array, a list of byte arrays, or an access list. A value of another
    shape is refused. *)
Definition asBytes (x : rlp.Item) : result bytes :=
  match x with
  | rlp.Bytes bs => Ok bs
  | rlp.List _ => Err "expected a byte array"
  end.

Fixpoint asBytesList (l : list rlp.Item) : result (list bytes) :=
  match l with
  | [] => Ok []
  | x :: rest =>
      bs ← asBytes x; tl ← asBytesList rest; Ok (bs :: tl)
  end.

Definition asListOfBytes (x : rlp.Item) : result (list bytes) :=
  match x with
  | rlp.List l => asBytesList l
  | rlp.Bytes _ => Err "expected an array of byte arrays"
  end.

Fixpoint asAccessListItems (l : list rlp.Item) : result AccessListBytes :=
  match l with
  | [] => Ok []
  | rlp.List [rlp.Bytes address_; rlp.List slots] :: rest =>
      slots_ ← asBytesList slots;
      tl ← asAccessListItems rest;
      Ok ((address_, slots_) :: tl)
  | _ => Err "Invalid access list item"
  end.

Definition asAccessList (x : rlp.Item) : result AccessListBytes :=
  match x with
  | rlp.List l => asAccessListItems l
  | rlp.Bytes _ => Err "expected an access list"
  end.

(** [validateNoLeadingZeroes] on one value. *)
Definition noLeadingZeroes (x : option bytes) : result unit :=
  match x with
  | Some (0 :: _) => Err "cannot have leading zeroes"
  | _ => Ok tt
  end.

Definition optionalField (values : list rlp.Item) (i : nat)
  : result (option bytes) :=
  match values !! i with
  | Some x => bs ← asBytes x; Ok (Some bs)
  | None => Ok None
  end.

Definition field (values : list rlp.Item) (i : nat) : result rlp.Item :=
  match values !! i with
  | Some x => Ok x
  | None => Err "TypeError: undefined value"
  end.

Definition inputOf (x : option bytes) : Input :=
  match x with
  | Some bs => IBytes bs
  | None => IUndefined
  end.

(** [fromValuesArray(values, opts)] *)
Definition fromValuesArray (values : list rlp.Item) (opts : TxOptions)
  : result BlobEIP4844Transaction :=
  _ ← check (bool_decide (length values = 11%nat)
             || bool_decide (length values = 14%nat))
        "Invalid EIP-4844 transaction. Only expecting 11 values (for unsigned tx) or 14 values (for signed tx).";
  chainId_ ← field values 0 ≫= asBytes;
  nonce_ ← field values 1 ≫= asBytes;
  maxPriorityFeePerGas_ ← field values 2 ≫= asBytes;
  maxFeePerGas_ ← field values 3 ≫= asBytes;
  gasLimit_ ← field values 4 ≫= asBytes;
  to_ ← field values 5 ≫= asBytes;
  value_ ← field values 6 ≫= asBytes;
  data_ ← field values 7 ≫= asBytes;
  accessList_ ← field values 8 ≫= asAccessList;
  maxFeePerDataGas_ ← field values 9 ≫= asBytes;
  versionedHashes_ ← field values 10 ≫= asListOfBytes;
  v_ ← optionalField values 11;
  r_ ← optionalField values 12;
  s_ ← optionalField values 13;
  _ ← noLeadingZeroes (Some nonce_);
  _ ← noLeadingZeroes (Some maxPriorityFeePerGas_);
  _ ← noLeadingZeroes (Some maxFeePerGas_);
  _ ← noLeadingZeroes (Some gasLimit_);
  _ ← noLeadingZeroes (Some value_);
  _ ← noLeadingZeroes (Some maxFeePerDataGas_);
  _ ← noLeadingZeroes v_;
  _ ← noLeadingZeroes r_;
  _ ← noLeadingZeroes s_;
  constructor
    {| chainId := IBigInt (util.bytesToBigInt chainId_);
       nonce := IBytes nonce_;
       maxPriorityFeePerGas := IBytes maxPriorityFeePerGas_;
       maxFeePerGas := IBytes maxFeePerGas_;
       gasLimit := IBytes gasLimit_;
       to := IBytes to_;
       value := IBytes value_;
       data := IBytes data_;
       accessList := Some accessList_;
       maxFeePerDataGas := IBytes maxFeePerDataGas_;
       versionedHashes := Some versionedHashes_;
       v := match v_ with
            | Some bs => IBigInt (util.bytesToBigInt bs)
            | None => IUndefined
            end;
       r := inputOf r_;
       s := inputOf s_;
       blobs := None; kzgCommitments := None; kzgProofs := None |}
    opts.

(** [fromSerializedTx(serialized, opts)] *)
Definition fromSerializedTx (serialized : bytes) (opts : TxOptions)
  : result BlobEIP4844Transaction :=
  _ ← check (util.equalsBytes (js.slice 0 1 serialized) TRANSACTION_TYPE_BYTES)
        "Invalid serialized tx input: not an EIP-4844 transaction (wrong tx type)";
  values ← rlp.decode (js.sliceFrom 1 serialized);
  match values with
  | rlp.List values => fromValuesArray values opts
  | rlp.Bytes _ => Err "Invalid serialized tx input: must be array"
  end.

(** The loop of [validateBlobTransactionNetworkWrapper] over the
    indices of the versioned hashes. *)
Fixpoint checkCommitments (versionedHashes_ commitments : list bytes)
    (version : Z) : result unit :=
  match versionedHashes_ with
  | [] => Ok tt
  | hash :: hashes =>
      match commitments with
      | [] => Err "TypeError: undefined commitment"
      | commitment :: rest =>
          let computedVersionedHash := computeVersionedHash commitment version in
          _ ← check (util.equalsBytes computedVersionedHash hash)
                "commitment for blob does not match versionedHash";
          checkCommitments hashes rest version
      end
  end.

Definition validateBlobTransactionNetworkWrapper
    (versionedHashes_ blobs_ commitments kzgProofs_ : list bytes) (version : Z)
  : result unit :=
  _ ← check (bool_decide (length versionedHashes_ = length blobs_)
             && bool_decide (length blobs_ = length commitments))
        "Number of versionedHashes, blobs, and commitments not all equal";
  _ ← check (negb (bool_decide (length versionedHashes_ = 0%nat)))
        "Invalid transaction with empty blobs";
  isValid ←
    match verifyBlobKzgProofBatch blobs_ commitments kzgProofs_ with
    | Ok b => Ok b
    | Err _ => Err "KZG verification of blobs fail with error"
    end;
  _ ← check isValid "KZG proof cannot be verified from blobs/commitments";
  checkCommitments versionedHashes_ commitments version.

Definition withSidecar (t : BlobEIP4844Transaction)
    (blobs_ kzgCommitments_ kzgProofs_ : list bytes) (frozen : bool)
  : BlobEIP4844Transaction :=
  {| txNonce := txNonce t; txGasLimit := txGasLimit t; txTo := txTo t;
     txValue := txValue t; txData := txData t; txV := txV t; txR := txR t;
     txS := txS t; txChainId := txChainId t; txAccessList := txAccessList t;
     txMaxPriorityFeePerGas := txMaxPriorityFeePerGas t;
     txMaxFeePerGas := txMaxFeePerGas t;
     txMaxFeePerDataGas := txMaxFeePerDataGas t;
     txVersionedHashes := txVersionedHashes t;
     txBlobs := Some blobs_; txKzgCommitments := Some kzgCommitments_;
     txKzgProofs := Some kzgProofs_; txCommon := txCommon t;
     txFrozen := frozen |}.

(** [fromSerializedBlobTxNetworkWrapper(serialized, opts)]; the four
    values of the wrapper are the values array of the transaction and
    three arrays of byte arrays. *)
Definition fromSerializedBlobTxNetworkWrapper (serialized : bytes)
    (opts : option TxOptions) : result BlobEIP4844Transaction :=
  match opts with
  | None => Err "common instance required to validate versioned hashes"
  | Some opts =>
      _ ← check (util.equalsBytes (js.slice 0 1 serialized)
                   TRANSACTION_TYPE_BYTES)
            "Invalid serialized tx input: not an EIP-4844 transaction (wrong tx type)";
      networkTxValues ← rlp.decode (js.sliceFrom 1 serialized);
      match networkTxValues with
      | rlp.List [rlp.List txValues; blobs_; kzgCommitments_; kzgProofs_] =>
          decodedTx ←
            fromValuesArray txValues
              {| optCommon := optCommon opts; optFreeze := Some false;
                 optAllowUnlimitedInitCodeSize :=
                   optAllowUnlimitedInitCodeSize opts |};
          _ ← check (negb (bool_decide (txTo decodedTx = None)))
                "BlobEIP4844Transaction can not be send without a valid `to`";
          version ←
            common.paramByEIP (optCommon opts) "sharding"
              "blobCommitmentVersionKzg" 4844;
          let version := default 0 version in
          blobs_ ← asListOfBytes blobs_;
          kzgCommitments_ ← asListOfBytes kzgCommitments_;
          kzgProofs_ ← asListOfBytes kzgProofs_;
          _ ← validateBlobTransactionNetworkWrapper
                (txVersionedHashes decodedTx) blobs_ kzgCommitments_
                kzgProofs_ version;
          Ok (withSidecar decodedTx blobs_ kzgCommitments_ kzgProofs_
                (default true (optFreeze opts)))
      | rlp.List [_; _; _; _] => Err "TypeError: values array expected"
      | _ => Err "Expected 4 values in the deserialized network transaction"
      end
  end.

End BlobTransaction.

End tx.

(** ** Sample chain configurations

    A small chain in the shape of the chain files: inlined parameters at
    [chainstart], EIP lists from [london] on, and the EIPs that carry the
    parameters read by the header and by the blob transaction. *)

Module samples.
Import common.

Definition table (l : list (string * list (string * Z)))
  : gmap string (gmap string Z) :=
  list_to_map ((λ p : string * list (string * Z), (p.1, list_to_map p.2)) <$> l).

Definition eipConfig (minimum : string) (required : list Z)
    (params : list (string * list (string * Z))) : EIPConfig :=
  {| minimumHardfork := minimum; requiredEIPs := required;
     eipParams := table params |}.

Definition sampleEIPs : gmap Z EIPConfig :=
  list_to_map [
    (1559, eipConfig "berlin" [2930]
       [("gasConfig", [("baseFeeMaxChangeDenominator", 8);
                       ("elasticityMultiplier", 2);
                       ("initialBaseFee", 1000000000)]);
        ("gasPrices", []); ("vm", []); ("pow", [])]);
    (3541, eipConfig "berlin" []
       [("gasConfig", []); ("gasPrices", []); ("vm", []); ("pow", [])]);
    (3860, eipConfig "spuriousDragon" []
       [("gasConfig", []); ("gasPrices", [("initCodeWordCost", 2)]);
        ("vm", [("maxInitCodeSize", 49152)]); ("pow", [])]);
    (4844, eipConfig "paris" [1559; 2718; 2930; 4895]
       [("gasConfig", [("dataGasPerBlob", 131072);
                       ("targetDataGasPerBlock", 262144)]);
        ("gasPrices", [("minDataGasPrice", 1)]); ("vm", []); ("pow", []);
        ("sharding", [("blobCommitmentVersionKzg", 1);
                      ("fieldElementsPerBlob", 4096)])])
  ].

Definition inlineSpec (n : string) (params : list (string * list (string * Z)))
  : HardforkSpec :=
  {| specName := n; specEips := None; specParams := table params |}.

Definition eipsSpec (n : string) (es : list Z) : HardforkSpec :=
  {| specName := n; specEips := Some es; specParams := ∅ |}.

Definition chainstartSpec : HardforkSpec :=
  inlineSpec "chainstart"
    [("gasConfig", [("minGasLimit", 5000); ("gasLimitBoundDivisor", 1024);
                    ("maxRefundQuotient", 2)]);
     ("gasPrices", [("createData", 200); ("tx", 21000)]);
     ("vm", [("stackLimit", 1024); ("maxExtraDataSize", 32)]);
     ("pow", [("minerReward", 5000000000000000000)])].

Definition homesteadSpec : HardforkSpec :=
  inlineSpec "homestead"
    [("gasConfig", []); ("gasPrices", [("delegatecall", 40)]); ("vm", []);
     ("pow", [])].

Definition spuriousDragonSpec : HardforkSpec :=
  inlineSpec "spuriousDragon"
    [("gasConfig", []); ("gasPrices", [("expByte", 50)]);
     ("vm", [("maxCodeSize", 24576)]); ("pow", [])].

Definition hf (n : string) (b : option Z) (t : option Z) : HardforkConfig :=
  {| name := n; block := b; ttd := TtdUndefined; timestamp := t;
     storedForkHash := None |}.

Definition sampleHardforks : list HardforkConfig :=
  [hf "chainstart" (Some 0) None; hf "homestead" (Some 2) None;
   hf "spuriousDragon" (Some 3) None; hf "london" (Some 5) None;
   hf "cancun" None (Some 1700000000)].

Definition sampleChanges : list (string * HardforkSpec) :=
  [("chainstart", chainstartSpec); ("homestead", homesteadSpec);
   ("spuriousDragon", spuriousDragonSpec);
   ("london", eipsSpec "london" [1559; 3541]);
   ("cancun", eipsSpec "cancun" [4844])].

(** The sample chain at a hardfork, with EIPs set by the user. *)
Definition sampleCommon (hardfork_ : string) (eips_ : list Z) : Common :=
  {| EIPs := sampleEIPs; chainId := 1; hardforks := sampleHardforks;
     _hardfork := hardfork_; _eips := eips_;
     HARDFORK_CHANGES := sampleChanges |}.

End samples.

(** * Properties

    The claims are numbered as in the specification review (C1 to C10).
    Each part first states the reading of the specification as
    definitions of its own, then relates it to the embedding above. *)

Lemma bind_Ok {A B} (m : result A) (f : A → result B) (b : B) :
  m ≫= f = Ok b ↔ ∃ a, m = Ok a ∧ f a = Ok b.
Proof.
  destruct m as [a|e]; simpl; split.
  - intros H. exists a. done.
  - intros (a' & [= <-] & H). done.
  - discriminate.
  - intros (a' & [=] & _).
Qed.

(** Decomposes hypotheses of the form [m ≫= f = Ok b]. *)
Ltac inv_bind :=
  repeat match goal with
    | H : _ ≫= _ = Ok _ |- _ =>
        apply bind_Ok in H; destruct H as (? & ? & H)
    | H : Ok _ = Ok _ |- _ => injection H as H; subst
    | H : Err _ = Ok _ |- _ => discriminate H
    end.

(** ** Parameter resolution (C3) *)

Module param_facts.
Import common.

(** The value that an EIP defines for a parameter, if any. *)
Definition eipValue (c : Common) (topic pname : string) (eip : Z) : option Z :=
  e ← EIPs c !! eip; t ← eipParams e !! topic; t !! pname.

(** The first EIP of the user-supplied list that defines the parameter. *)
Definition firstEIPValue (c : Common) (topic pname : string) : option Z :=
  head (omap (eipValue c topic pname) (_eips c)).

(** The value that a hardfork file sets, if it changes the parameter:
    inlined, or through the last of its EIPs that defines it. *)
Definition hardforkValue (c : Common) (topic pname : string)
    (spec : HardforkSpec) : option Z :=
  match specEips spec with
  | Some es => last (omap (eipValue c topic pname) es)
  | None => t ← specParams spec !! topic; t !! pname
  end.

(** The hardforks up to and including [hardfork_]. *)
Fixpoint upToHardfork (hardfork_ : string)
    (changes : list (string * HardforkSpec)) : list (string * HardforkSpec) :=
  match changes with
  | [] => []
  | hc :: rest =>
      if String.eqb hc.1 hardfork_ then [hc]
      else hc :: upToHardfork hardfork_ rest
  end.

(** The value set by the latest hardfork, up to the current one, that
    changes the parameter. *)
Definition latestHardforkValue (c : Common) (topic pname : string) : option Z :=
  last (omap (λ hc : string * HardforkSpec, hardforkValue c topic pname hc.2)
          (upToHardfork (_hardfork c) (HARDFORK_CHANGES c))).

(** The resolution order of the specification. *)
Definition resolved (c : Common) (topic pname : string) : Z :=
  match firstEIPValue c topic pname with
  | Some v => v
  | None => default 0 (latestHardforkValue c topic pname)
  end.

(** [topic] is a topic of every table that is consulted: of the EIPs
    set by the user, and of the hardfork files and their EIPs. *)
Definition eipHasTopic (c : Common) (topic : string) (eip : Z) : bool :=
  match EIPs c !! eip with
  | Some e => bool_decide (is_Some (eipParams e !! topic))
  | None => false
  end.

Definition specHasTopic (c : Common) (topic : string)
    (hc : string * HardforkSpec) : bool :=
  match specEips hc.2 with
  | Some es => forallb (eipHasTopic c topic) es
  | None => bool_decide (is_Some (specParams hc.2 !! topic))
  end.

(** The tables that [param] consults have the topic: the EIPs of the
    user up to the first that defines the parameter and, if none does,
    the hardfork files up to the current hardfork. *)
Fixpoint eipsHaveTopic (c : Common) (topic pname : string) (l : list Z) : bool :=
  match l with
  | [] => true
  | eip :: rest =>
      eipHasTopic c topic eip
      && (bool_decide (is_Some (eipValue c topic pname eip))
          || eipsHaveTopic c topic pname rest)
  end.

Definition topicDefined (c : Common) (topic pname : string) : bool :=
  eipsHaveTopic c topic pname (_eips c)
  && (bool_decide (is_Some (firstEIPValue c topic pname))
      || forallb (specHasTopic c topic)
           (upToHardfork (_hardfork c) (HARDFORK_CHANGES c))).

Lemma paramByEIP_value c topic pname eip :
  eipHasTopic c topic eip = true →
  paramByEIP c topic pname eip = Ok (eipValue c topic pname eip).
Proof.
  unfold eipHasTopic, paramByEIP, eipValue.
  destruct (EIPs c !! eip) as [e|]; [|done]; simpl.
  by destruct (eipParams e !! topic) as [t|].
Qed.

Lemma param_eips_first c topic pname l :
  eipsHaveTopic c topic pname l = true →
  param_eips c topic pname l = Ok (head (omap (eipValue c topic pname) l)).
Proof.
  induction l as [|eip l IH]; simpl; [done|].
  intros [H1 H2]%andb_prop.
  rewrite (paramByEIP_value _ _ _ _ H1); simpl.
  destruct (eipValue c topic pname eip); simpl; [done|]. by apply IH.
Qed.

Lemma last_cons_or {A} (x : A) (l : list A) (d : option A) :
  match last (x :: l) with Some y => Some y | None => d end
  = match last l with Some y => Some y | None => Some x end.
Proof. rewrite last_cons. by destruct (last l). Qed.

Lemma paramByHardfork_eips_last c topic pname es value_ :
  forallb (eipHasTopic c topic) es = true →
  paramByHardfork_eips c topic pname es value_
  = Ok (match last (omap (eipValue c topic pname) es) with
        | Some v => Some v
        | None => value_
        end).
Proof.
  revert value_. induction es as [|eip es IH]; intros value_; simpl; [done|].
  intros [H1 H2]%andb_prop.
  rewrite (paramByEIP_value _ _ _ _ H1); simpl. rewrite (IH _ H2).
  destruct (eipValue c topic pname eip) as [v|]; [|done].
  f_equal. rewrite last_cons. by destruct (last _).
Qed.

Lemma specValue_step c topic pname (hc : string * HardforkSpec) value_ :
  specHasTopic c topic hc = true →
  match specEips hc.2 with
  | Some hfEIPs => paramByHardfork_eips c topic pname hfEIPs value_
  | None =>
      match specParams hc.2 !! topic with
      | None => Err "Topic not defined"
      | Some t => Ok (match t !! pname with Some v => Some v | None => value_ end)
      end
  end
  = Ok (match hardforkValue c topic pname hc.2 with
        | Some v => Some v
        | None => value_
        end).
Proof.
  unfold specHasTopic, hardforkValue. destruct (specEips hc.2) as [es|].
  - apply paramByHardfork_eips_last.
  - intros H. apply bool_decide_eq_true in H. destruct H as [t ->]. done.
Qed.

Lemma paramByHardfork_loop_latest c topic pname hardfork_ changes value_ :
  forallb (specHasTopic c topic) (upToHardfork hardfork_ changes) = true →
  paramByHardfork_loop c topic pname hardfork_ changes value_
  = Ok (match last (omap (λ hc : string * HardforkSpec,
                            hardforkValue c topic pname hc.2)
                      (upToHardfork hardfork_ changes)) with
        | Some v => Some v
        | None => value_
        end).
Proof.
  revert value_. induction changes as [|hc rest IH]; intros value_; simpl;
    [done|].
  destruct (String.eqb hc.1 hardfork_); simpl.
  - intros [H1 _]%andb_prop. rewrite (specValue_step _ _ _ _ _ H1); simpl.
    by destruct (hardforkValue c topic pname hc.2).
  - intros [H1 H2]%andb_prop. rewrite (specValue_step _ _ _ _ _ H1); simpl.
    rewrite (IH _ H2).
    destruct (hardforkValue c topic pname hc.2) as [v|]; [|done].
    f_equal. rewrite last_cons. by destruct (last _).
Qed.

Lemma paramByEIP_throws c topic pname eip :
  eipHasTopic c topic eip = false →
  isOk (paramByEIP c topic pname eip) = false.
Proof.
  unfold eipHasTopic, paramByEIP.
  destruct (EIPs c !! eip) as [e|]; [|done].
  destruct (eipParams e !! topic) as [t|]; [|done].
  intros H. apply bool_decide_eq_false in H. destruct H. by exists t.
Qed.

Lemma param_eips_throws c topic pname l :
  eipsHaveTopic c topic pname l = false →
  isOk (param_eips c topic pname l) = false.
Proof.
  induction l as [|eip l IH]; simpl; [done|].
  destruct (eipHasTopic c topic eip) eqn:E; simpl.
  - rewrite (paramByEIP_value _ _ _ _ E); simpl.
    destruct (eipValue c topic pname eip); simpl; [done|]. exact IH.
  - intros _. pose proof (paramByEIP_throws c topic pname eip E) as H.
    by destruct (paramByEIP c topic pname eip).
Qed.

Lemma paramByHardfork_eips_throws c topic pname es value_ :
  forallb (eipHasTopic c topic) es = false →
  isOk (paramByHardfork_eips c topic pname es value_) = false.
Proof.
  revert value_. induction es as [|eip es IH]; intros value_; simpl; [done|].
  destruct (eipHasTopic c topic eip) eqn:E; simpl.
  - rewrite (paramByEIP_value _ _ _ _ E); simpl. apply IH.
  - intros _. pose proof (paramByEIP_throws c topic pname eip E) as H.
    by destruct (paramByEIP c topic pname eip).
Qed.

Lemma paramByHardfork_loop_throws c topic pname hardfork_ changes value_ :
  forallb (specHasTopic c topic) (upToHardfork hardfork_ changes) = false →
  isOk (paramByHardfork_loop c topic pname hardfork_ changes value_) = false.
Proof.
  revert value_. induction changes as [|hc rest IH]; intros value_; simpl;
    [done|].
  intros H.
  destruct (specHasTopic c topic hc) eqn:E.
  - rewrite (specValue_step _ _ _ _ _ E); simpl.
    destruct (String.eqb hc.1 hardfork_); simpl in H.
    + by rewrite E in H.
    + rewrite E in H. by apply IH.
  - clear H. unfold specHasTopic in E.
    destruct (specEips hc.2) as [es|].
    + pose proof (paramByHardfork_eips_throws c topic pname es value_ E) as H.
      by destruct (paramByHardfork_eips c topic pname es value_).
    + destruct (specParams hc.2 !! topic) as [t|]; [|done].
      apply bool_decide_eq_false in E. destruct E. by exists t.
Qed.

(** C3, as amended. [param] returns exactly when the tables that it
    consults have the topic (the EIPs of the user up to the first that
    defines the parameter and, if none does, the hardfork files up to the
    current one, a file given by EIPs standing for those EIPs); it then
    returns the value of the first EIP of the user-supplied list that
    defines the parameter; failing that, the value set by the latest
    hardfork up to and including the current one that changes it; and
    [0] if there is none. Otherwise it throws. *)
Theorem param_resolution_order (c : Common) (topic pname : string) :
  (topicDefined c topic pname = true →
   param c topic pname = Ok (resolved c topic pname))
  ∧ (topicDefined c topic pname = false →
     isOk (param c topic pname) = false).
Proof.
  unfold topicDefined, param, resolved. split.
  - intros [H1 H2]%andb_prop.
    rewrite (param_eips_first _ _ _ _ H1); simpl.
    fold (firstEIPValue c topic pname).
    destruct (firstEIPValue c topic pname) as [v|]; [done|].
    simpl in H2.
    unfold paramByHardfork, latestHardforkValue.
    rewrite (paramByHardfork_loop_latest _ _ _ _ _ _ H2); simpl.
    by destruct (last _).
  - destruct (eipsHaveTopic c topic pname (_eips c)) eqn:H1; simpl.
    + rewrite (param_eips_first _ _ _ _ H1); simpl.
      fold (firstEIPValue c topic pname).
      destruct (firstEIPValue c topic pname) as [v|]; simpl; [done|].
      intros H2. unfold paramByHardfork.
      pose proof (paramByHardfork_loop_throws c topic pname (_hardfork c)
                    (HARDFORK_CHANGES c) None H2) as H.
      by destruct (paramByHardfork_loop _ _ _ _ _ _).
    + intros _. pose proof (param_eips_throws c topic pname (_eips c) H1) as H.
      by destruct (param_eips c topic pname (_eips c)).
Qed.

Lemma param_resolution_order_witness :
  topicDefined (samples.sampleCommon "london" [3860]) "gasConfig"
    "elasticityMultiplier" = true
  ∧ param (samples.sampleCommon "london" [3860]) "gasConfig"
      "elasticityMultiplier" = Ok 2.
Proof.
  split; [vm_compute; reflexivity|].
  destruct (param_resolution_order
              (samples.sampleCommon "london" [3860]) "gasConfig"
              "elasticityMultiplier") as [H _].
  rewrite H; vm_compute; reflexivity.
Defined.

(** C3 fails as stated: no EIP of the user and no hardfork up to london
    defines [blobCommitmentVersionKzg], so the claim promises [0], but
    the hardfork files lack the topic [sharding] and [param] throws.
    With the EIPs 3860 and 4844 set, the first EIP that defines the
    parameter gives [1], and [param] throws on EIP 3860, which has no
    such topic. *)
Lemma param_topic_not_defined_counterexample :
  resolved (samples.sampleCommon "london" []) "sharding"
    "blobCommitmentVersionKzg" = 0
  ∧ param (samples.sampleCommon "london" []) "sharding"
      "blobCommitmentVersionKzg" = Err "Topic not defined"
  ∧ resolved (samples.sampleCommon "london" [3860; 4844]) "sharding"
      "blobCommitmentVersionKzg" = 1
  ∧ param (samples.sampleCommon "london" [3860; 4844]) "sharding"
      "blobCommitmentVersionKzg" = Err "Topic not defined".
Proof. repeat split; vm_compute; reflexivity. Qed.

End param_facts.

(** ** Facts about the array helpers *)

Module js_facts.
Import js.

Lemma findIndex_range {A} (p : A → bool) (l : list A) :
  -1 ≤ findIndex p l < Z.of_nat (length l).
Proof.
  induction l as [|x l IH]; simpl; [lia|].
  destruct (p x); [lia|].
  destruct (findIndex p l =? -1) eqn:E; lia.
Qed.

Lemma findIndex_none {A} (p : A → bool) (l : list A) (i : nat) (x : A) :
  findIndex p l = -1 → l !! i = Some x → p x = false.
Proof.
  revert i. induction l as [|y l IH]; intros i; simpl; [done|].
  destruct (p y) eqn:Ey; [lia|].
  destruct (findIndex p l =? -1) eqn:E.
  - intros _. destruct i as [|i]; simpl.
    + by intros [= ->].
    + apply IH. lia.
  - pose proof (findIndex_range p l). lia.
Qed.

Lemma findIndex_hit {A} (p : A → bool) (l : list A) :
  0 ≤ findIndex p l →
  ∃ x, l !! Z.to_nat (findIndex p l) = Some x ∧ p x = true.
Proof.
  induction l as [|y l IH]; simpl; [lia|].
  destruct (p y) eqn:Ey.
  - intros _. exists y. done.
  - destruct (findIndex p l =? -1) eqn:E; [lia|].
    intros _. pose proof (findIndex_range p l).
    destruct IH as (x & Hx & Hp); [lia|].
    exists x. split; [|done].
    replace (Z.to_nat (findIndex p l + 1)) with (S (Z.to_nat (findIndex p l)))
      by lia.
    done.
Qed.

Lemma findIndex_least {A} (p : A → bool) (l : list A) (i : nat) (x : A) :
  l !! i = Some x → p x = true → 0 ≤ findIndex p l ≤ Z.of_nat i.
Proof.
  revert i. induction l as [|y l IH]; intros i; simpl; [done|].
  destruct (p y) eqn:Ey; [lia|].
  destruct i as [|i]; simpl.
  - intros [= ->]. congruence.
  - intros Hx Hp. specialize (IH i Hx Hp).
    destruct (findIndex p l =? -1) eqn:E; lia.
Qed.

Lemma slice_prefix {A} (l : list A) (h : Z) :
  0 ≤ h ≤ Z.of_nat (length l) → slice 0 h l = take (Z.to_nat h) l.
Proof.
  intros Hh. unfold slice, sliceBound. simpl.
  replace (h <? 0) with false by lia.
  replace (Z.min h (Z.of_nat (length l))) with h by lia.
  replace (Z.min 0 (Z.of_nat (length l))) with 0 by lia.
  rewrite Z.sub_0_r. done.
Qed.

Lemma sliceFrom_drop {A} (l : list A) (i : Z) :
  0 ≤ i ≤ Z.of_nat (length l) → sliceFrom i l = drop (Z.to_nat i) l.
Proof.
  intros Hi. unfold sliceFrom, slice, sliceBound.
  replace (i <? 0) with false by lia.
  replace (Z.of_nat (length l) <? 0) with false by lia.
  rewrite Z.min_id. replace (Z.min i (Z.of_nat (length l))) with i by lia.
  apply take_ge. rewrite length_drop. lia.
Qed.

Lemma at_Some {A} (l : list A) (i : Z) (x : A) :
  at_ l i = Some x ↔ 0 ≤ i ∧ l !! Z.to_nat i = Some x.
Proof.
  unfold at_. destruct (i <? 0) eqn:E; split.
  - done.
  - intros [? _]. lia.
  - intros H. split; [lia|done].
  - by intros [_ H].
Qed.

End js_facts.

(** ** Hardfork selection is monotone in the block number (C4) *)

Module hardfork_facts.
Import common js js_facts.

(** The index of the first hardfork with a block above [n], or the
    length of the list. *)
Definition firstAbove (hfs : list HardforkConfig) (n : Z) : Z :=
  let i := findIndex (exceeds (Some n) None) hfs in
  if i =? -1 then Z.of_nat (length hfs) else i.

(** The step back to the last hardfork with a block or a TTD. *)
Definition backToBlockOrTTD (hfs : list HardforkConfig) (h : Z) : Z :=
  h - findIndex blockOrTTD (reverse (slice 0 h hfs)) - 1.

(** The step off a hardfork that has a TTD only, without a total
    difficulty. *)
Definition offMerge (hfs : list HardforkConfig) (k : Z) : Z :=
  match at_ hfs k with
  | Some cur =>
      if bool_decide (block cur = None) && bool_decide (timestamp cur = None)
      then k - 1 else k
  | None => k
  end.

Lemma getHardforkIndex_by_block hfs n i :
  getHardforkIndex hfs (Some n) None None = Ok i →
  1 ≤ firstAbove hfs n ≤ Z.of_nat (length hfs)
  ∧ is_Some (at_ hfs (backToBlockOrTTD hfs (firstAbove hfs n)))
  ∧ moveToLastOfSchedule hfs
      (offMerge hfs (backToBlockOrTTD hfs (firstAbove hfs n))) = Ok i.
Proof.
  unfold getHardforkIndex, firstAbove, offMerge, backToBlockOrTTD.
  destruct (0 <=? _); [done|].
  pose proof (findIndex_range (exceeds (Some n) None) hfs) as Hr.
  set (i0 := findIndex (exceeds (Some n) None) hfs) in *.
  destruct (i0 =? -1) eqn:E1; simpl.
  - intros H. apply bind_Ok in H as (cur & Hcur & H).
    unfold hfAt in Hcur.
    destruct (at_ hfs _) as [cur'|] eqn:Hat; [|done].
    injection Hcur as ->.
    assert (0 < Z.of_nat (length hfs)).
    { apply at_Some in Hat as [? Hl]. apply lookup_lt_Some in Hl.
      pose proof (findIndex_range blockOrTTD
        (reverse (slice 0 (Z.of_nat (length hfs)) hfs))). lia. }
    split; [lia|]. split; [done|].
    apply bind_Ok in H as (k & Hk & H).
    destruct (bool_decide (block cur = None) && bool_decide (timestamp cur = None));
      injection Hk as <-;
      apply bind_Ok in H as (j & Hj & H); by injection H as <-.
  - destruct (i0 =? 0) eqn:E0; simpl; [done|].
    intros H. apply bind_Ok in H as (cur & Hcur & H).
    unfold hfAt in Hcur.
    destruct (at_ hfs _) as [cur'|] eqn:Hat; [|done].
    injection Hcur as ->.
    split; [lia|]. split; [done|].
    apply bind_Ok in H as (k & Hk & H).
    destruct (bool_decide (block cur = None) && bool_decide (timestamp cur = None));
      injection Hk as <-;
      apply bind_Ok in H as (j & Hj & H); by injection H as <-.
Qed.

Lemma exceeds_antitone n n' hf :
  n ≤ n' → exceeds (Some n') None hf = true → exceeds (Some n) None hf = true.
Proof.
  unfold exceeds. destruct (block hf) as [b|]; simpl; [|done].
  rewrite !orb_false_r. intros Hn Hb. apply Z.ltb_lt in Hb. apply Z.ltb_lt. lia.
Qed.

Lemma firstAbove_mono hfs n n' :
  n ≤ n' → firstAbove hfs n ≤ firstAbove hfs n'.
Proof.
  intros Hn. unfold firstAbove.
  pose proof (findIndex_range (exceeds (Some n) None) hfs) as Hr.
  pose proof (findIndex_range (exceeds (Some n') None) hfs) as Hr'.
  destruct (findIndex (exceeds (Some n') None) hfs =? -1) eqn:E'.
  - destruct (findIndex (exceeds (Some n) None) hfs =? -1); lia.
  - destruct (findIndex_hit (exceeds (Some n') None) hfs) as (x & Hx & Hp);
      [lia|].
    pose proof (findIndex_least (exceeds (Some n) None) hfs _ x Hx
                  (exceeds_antitone _ _ _ Hn Hp)) as Hl.
    destruct (findIndex (exceeds (Some n) None) hfs =? -1) eqn:E; lia.
Qed.

Lemma reverse_take_lookup {A} (l : list A) (h i : nat) :
  (h ≤ length l)%nat → (i < h)%nat →
  reverse (take h l) !! i = l !! (h - 1 - i)%nat.
Proof.
  intros Hh Hi. rewrite reverse_lookup by (rewrite length_take; lia).
  rewrite length_take. rewrite lookup_take_lt by lia. f_equal. lia.
Qed.

Lemma reverse_take_at {A} (l R : list A) (h i : nat) (x : A) :
  R = reverse (take h l) → (h ≤ length l)%nat → R !! i = Some x →
  (i < h)%nat ∧ l !! (h - 1 - i)%nat = Some x.
Proof.
  intros -> Hh Hx. pose proof (lookup_lt_Some _ _ _ Hx) as Hi.
  rewrite length_reverse, length_take in Hi.
  split; [lia|]. rewrite <- Hx. symmetry. apply reverse_take_lookup; lia.
Qed.

Lemma reverse_take_of {A} (l R : list A) (h k : nat) (x : A) :
  R = reverse (take h l) → (h ≤ length l)%nat → (k < h)%nat →
  l !! k = Some x → R !! (h - 1 - k)%nat = Some x.
Proof.
  intros -> Hh Hk Hx. rewrite reverse_take_lookup by lia.
  rewrite <- Hx. f_equal. lia.
Qed.

Lemma backToBlockOrTTD_mono hfs h1 h2 :
  0 ≤ h1 → h1 ≤ h2 → h2 ≤ Z.of_nat (length hfs) →
  backToBlockOrTTD hfs h1 ≤ backToBlockOrTTD hfs h2.
Proof.
  intros H0 H12 Hlen. unfold backToBlockOrTTD.
  rewrite !slice_prefix by lia.
  remember (reverse (take (Z.to_nat h1) hfs)) as R1 eqn:E1.
  remember (reverse (take (Z.to_nat h2) hfs)) as R2 eqn:E2.
  pose proof (findIndex_range blockOrTTD R1) as Hr1.
  pose proof (findIndex_range blockOrTTD R2) as Hr2.
  destruct (decide (findIndex blockOrTTD R2 = -1)) as [N2|N2]; [lia|].
  destruct (findIndex_hit blockOrTTD R2) as (x & Hx & Hp); [lia|].
  destruct (reverse_take_at hfs _ _ _ _ E2 ltac:(lia) Hx) as [Hb Hx'].
  destruct (decide (findIndex blockOrTTD R1 = -1)) as [N1|N1].
  - destruct (decide (h2 - 1 - findIndex blockOrTTD R2 < h1)) as [Hlt|]; [|lia].
    exfalso.
    assert (R1 !! (Z.to_nat h1 - 1
              - (Z.to_nat h2 - 1 - Z.to_nat (findIndex blockOrTTD R2)))%nat
            = Some x) as Hx1
      by (apply (reverse_take_of hfs); [done|lia|lia|done]).
    pose proof (findIndex_none _ _ _ _ N1 Hx1). congruence.
  - destruct (findIndex_hit blockOrTTD R1) as (y & Hy & Hq); [lia|].
    destruct (reverse_take_at hfs _ _ _ _ E1 ltac:(lia) Hy) as [Ha Hy'].
    assert (R2 !! (Z.to_nat h2 - 1
              - (Z.to_nat h1 - 1 - Z.to_nat (findIndex blockOrTTD R1)))%nat
            = Some y) as Hy2
      by (apply (reverse_take_of hfs); [done|lia|lia|done]).
    pose proof (findIndex_least _ _ _ _ Hy2 Hq). lia.
Qed.

Lemma offMerge_mono hfs k1 k2 :
  k1 ≤ k2 → offMerge hfs k1 ≤ offMerge hfs k2.
Proof.
  intros Hk. destruct (decide (k1 = k2)) as [->|]; [lia|].
  assert (offMerge hfs k1 ≤ k1 ∧ k2 - 1 ≤ offMerge hfs k2) as [? ?]; [|lia].
  unfold offMerge.
  split; destruct (at_ hfs _) as [cur|]; try lia; destruct (_ && _); lia.
Qed.

Lemma sameSchedule_nonneg hf rest : 0 ≤ sameSchedule hf rest.
Proof.
  revert hf. induction rest as [|hf' rest IH]; intros hf; simpl; [lia|].
  destruct (_ || _); [lia|]. specialize (IH hf'). lia.
Qed.

(** The end of the run of equally scheduled hardforks that starts at an
    index. *)
Definition lastOfSchedule (hfs : list HardforkConfig) (i : nat) : Z :=
  match hfs !! i with
  | Some hf => Z.of_nat i + sameSchedule hf (drop (S i) hfs)
  | None => Z.of_nat i
  end.

Lemma lastOfSchedule_step hfs i :
  (S i < length hfs)%nat → lastOfSchedule hfs i ≤ lastOfSchedule hfs (S i).
Proof.
  intros Hi. unfold lastOfSchedule.
  destruct (lookup_lt_is_Some_2 hfs i) as [hf Hhf]; [lia|].
  destruct (lookup_lt_is_Some_2 hfs (S i)) as [hf' Hhf']; [lia|].
  rewrite Hhf, Hhf'. rewrite (drop_S _ _ _ Hhf'). simpl.
  pose proof (sameSchedule_nonneg hf' (drop (S (S i)) hfs)).
  destruct (_ || _); lia.
Qed.

Lemma lastOfSchedule_mono hfs i j :
  (i ≤ j)%nat → (j < length hfs)%nat →
  lastOfSchedule hfs i ≤ lastOfSchedule hfs j.
Proof.
  induction 1 as [|j Hij IH]; [lia|].
  intros Hj. etrans; [apply IH; lia|]. by apply lastOfSchedule_step.
Qed.

Lemma moveToLastOfSchedule_eq hfs k i :
  moveToLastOfSchedule hfs k = Ok i →
  (0 < length hfs)%nat →
  k ≤ Z.of_nat (length hfs) - 1 →
  0 ≤ k ∧ i = lastOfSchedule hfs (Z.to_nat k).
Proof.
  unfold moveToLastOfSchedule, lastOfSchedule. intros H Hlen Hk.
  destruct (k <? Z.of_nat (length hfs) - 1) eqn:E.
  - apply bind_Ok in H as (hf & Hhf & H). injection H as <-.
    unfold hfAt in Hhf. destruct (at_ hfs k) as [hf'|] eqn:Hat; [|done].
    injection Hhf as ->. apply at_Some in Hat as [? Hat].
    rewrite Hat. split; [done|].
    rewrite sliceFrom_drop by lia.
    replace (Z.to_nat (k + 1)) with (S (Z.to_nat k)) by lia. lia.
  - injection H as <-. assert (k = Z.of_nat (length hfs) - 1) as -> by lia.
    split; [lia|].
    destruct (lookup_lt_is_Some_2 hfs (Z.to_nat (Z.of_nat (length hfs) - 1)))
      as [hf Hhf]; [lia|].
    rewrite Hhf.
    rewrite drop_ge by lia. simpl. lia.
Qed.

Lemma getHardforkIndex_mono hfs n n' i i' :
  n ≤ n' →
  getHardforkIndex hfs (Some n) None None = Ok i →
  getHardforkIndex hfs (Some n') None None = Ok i' →
  0 ≤ i ≤ i'.
Proof.
  intros Hn H H'.
  apply getHardforkIndex_by_block in H as (Hh & [cur Hcur] & Hm).
  apply getHardforkIndex_by_block in H' as (Hh' & [cur' Hcur'] & Hm').
  pose proof (firstAbove_mono hfs _ _ Hn) as Hf.
  assert (backToBlockOrTTD hfs (firstAbove hfs n)
          ≤ backToBlockOrTTD hfs (firstAbove hfs n')) as Hb
    by (apply backToBlockOrTTD_mono; lia).
  pose proof (offMerge_mono hfs _ _ Hb) as Ho.
  apply at_Some in Hcur as [? Hcur]. apply lookup_lt_Some in Hcur.
  apply at_Some in Hcur' as [? Hcur']. apply lookup_lt_Some in Hcur'.
  set (k := offMerge hfs (backToBlockOrTTD hfs (firstAbove hfs n))) in *.
  set (k' := offMerge hfs (backToBlockOrTTD hfs (firstAbove hfs n'))) in *.
  assert (k ≤ backToBlockOrTTD hfs (firstAbove hfs n)
          ∧ k' ≤ backToBlockOrTTD hfs (firstAbove hfs n')) as [? ?].
  { unfold k, k', offMerge.
    split; destruct (at_ hfs _); try lia; destruct (_ && _); lia. }
  apply moveToLastOfSchedule_eq in Hm as [? ->]; [|lia|lia].
  apply moveToLastOfSchedule_eq in Hm' as [? ->]; [|lia|lia].
  split.
  - unfold lastOfSchedule. destruct (hfs !! Z.to_nat k); [|lia].
    pose proof (sameSchedule_nonneg h (drop (S (Z.to_nat k)) hfs)). lia.
  - apply lastOfSchedule_mono; lia.
Qed.

Lemma lastPos_absent nm l idx pos :
  nm ∉ (name <$> l) → lastPos nm l idx pos = pos.
Proof.
  revert idx pos. induction l as [|hf l IH]; intros idx pos; simpl; [done|].
  intros Hn. apply not_elem_of_cons in Hn as [Hne Hn].
  destruct (String.eqb_spec (name hf) nm) as [E|E]; [congruence|]. by apply IH.
Qed.

Lemma lastPos_unique l k hf idx pos :
  NoDup (name <$> l) → l !! k = Some hf →
  lastPos (name hf) l idx pos = idx + Z.of_nat k.
Proof.
  revert k idx pos. induction l as [|hf0 l IH]; intros k idx pos; simpl;
    [done|].
  intros [Hnin Hnd]%NoDup_cons. destruct k as [|k]; simpl.
  - intros [= ->]. rewrite String.eqb_refl.
    rewrite lastPos_absent by done. lia.
  - intros Hk. rewrite (IH _ _ _ Hnd Hk). lia.
Qed.

Lemma filter_lookup_origin {A} (P : A → bool) (l : list A) (i : nat) (x : A) :
  List.filter P l !! i = Some x → ∃ p, l !! p = Some x.
Proof.
  intros H. apply list_elem_of_lookup_2 in H.
  apply list_elem_of_In, filter_In in H as [H _].
  apply list_elem_of_In, list_elem_of_lookup_1 in H. done.
Qed.

Lemma filter_lookup_order {A} (P : A → bool) (l : list A) (i j : nat) (x y : A) :
  List.filter P l !! i = Some x → List.filter P l !! j = Some y → (i ≤ j)%nat →
  ∃ p q, l !! p = Some x ∧ l !! q = Some y ∧ (p ≤ q)%nat.
Proof.
  revert i j. induction l as [|a l IH]; intros i j; simpl; [done|].
  destruct (P a).
  - destruct i as [|i]; simpl.
    + intros [= ->]. destruct j as [|j]; simpl.
      * intros [= ->] _. exists 0%nat, 0%nat. done.
      * intros Hy _. apply filter_lookup_origin in Hy as [q Hq].
        exists 0%nat, (S q). split; [done|]. split; [done|lia].
    + destruct j as [|j]; simpl; [lia|].
      intros Hx Hy Hij.
      assert (i ≤ j)%nat as Hij' by lia.
      destruct (IH i j Hx Hy Hij') as (p & q & Hp & Hq & Hpq).
      exists (S p), (S q). split; [done|]. split; [done|lia].
  - intros Hx Hy Hij.
    destruct (IH i j Hx Hy Hij) as (p & q & Hp & Hq & Hpq).
    exists (S p), (S q). split; [done|]. split; [done|lia].
Qed.

(** C4. On a chain whose hardfork names are distinct, if the hardfork
    of block [n] and that of block [n + 1] are both determined, the
    second is greater than or equal to the first in the order of the
    hardforks of the chain. *)
Theorem getHardforkBy_block_monotone (c : Common) (n : Z) (hf1 hf2 : string) :
  NoDup (name <$> hardforks c) →
  getHardforkBy c (Some n) None None = Ok hf1 →
  getHardforkBy c (Some (n + 1)) None None = Ok hf2 →
  hardforkGteHardfork c (Some hf2) hf1 = true.
Proof.
  intros Hnd H1 H2. unfold getHardforkBy in *.
  apply bind_Ok in H1 as (i & Hi & H1).
  apply bind_Ok in H1 as (x & Hx & H1). injection H1 as <-.
  apply bind_Ok in H2 as (j & Hj & H2).
  apply bind_Ok in H2 as (y & Hy & H2). injection H2 as <-.
  assert (0 ≤ i ≤ j) as Hij
    by (eapply getHardforkIndex_mono; [|exact Hi|exact Hj]; lia).
  unfold hfAt in Hx, Hy.
  destruct (at_ _ i) as [x'|] eqn:Hxi; [|done]. injection Hx as ->.
  destruct (at_ _ j) as [y'|] eqn:Hyj; [|done]. injection Hy as ->.
  apply at_Some in Hxi as [_ Hxi]. apply at_Some in Hyj as [_ Hyj].
  assert (Z.to_nat i ≤ Z.to_nat j)%nat as Hle by lia.
  destruct (filter_lookup_order _ _ _ _ _ _ Hxi Hyj Hle)
    as (p & q & Hp & Hq & Hpq).
  unfold hardforkGteHardfork. simpl.
  rewrite (lastPos_unique _ _ _ _ _ Hnd Hp), (lastPos_unique _ _ _ _ _ Hnd Hq).
  apply andb_true_intro. split.
  - apply Z.leb_le. lia.
  - apply negb_true_iff, Z.eqb_neq. lia.
Qed.

Lemma getHardforkBy_block_monotone_witness :
  let c := samples.sampleCommon "london" [] in
  NoDup (name <$> hardforks c)
  ∧ getHardforkBy c (Some 4) None None = Ok "spuriousDragon"
  ∧ getHardforkBy c (Some (4 + 1)) None None = Ok "london"
  ∧ hardforkGteHardfork c (Some "london") "spuriousDragon" = true.
Proof.
  intros c.
  assert (NoDup (name <$> hardforks c)) as Hnd
    by (apply (bool_decide_unpack _); vm_compute; exact I).
  assert (getHardforkBy c (Some 4) None None = Ok "spuriousDragon") as H1
    by (vm_compute; reflexivity).
  assert (getHardforkBy c (Some (4 + 1)) None None = Ok "london") as H2
    by (vm_compute; reflexivity).
  split; [exact Hnd|]. split; [exact H1|]. split; [exact H2|].
  exact (getHardforkBy_block_monotone c 4 _ _ Hnd H1 H2).
Defined.

End hardfork_facts.

(** ** Facts about the byte helpers *)

Module util_facts.
Import util.

Definition octets (bs : bytes) : Prop := Forall (λ b, 0 ≤ b < 256) bs.

Lemma fold_digits_acc (l : bytes) (a : Z) :
  fold_left (λ acc b, acc * 256 + b) l a
  = a * 256 ^ Z.of_nat (length l) + fold_left (λ acc b, acc * 256 + b) l 0.
Proof.
  revert a. induction l as [|b l IH]; intros a; simpl length; simpl fold_left.
  - simpl. lia.
  - rewrite (IH (a * 256 + b)), (IH (0 * 256 + b)).
    replace (Z.of_nat (S (length l))) with (Z.succ (Z.of_nat (length l)))
      by lia.
    rewrite Z.pow_succ_r by lia. lia.
Qed.

Lemma bytesToBigInt_app (l1 l2 : bytes) :
  bytesToBigInt (l1 ++ l2)
  = bytesToBigInt l1 * 256 ^ Z.of_nat (length l2) + bytesToBigInt l2.
Proof.
  unfold bytesToBigInt. rewrite fold_left_app. apply fold_digits_acc.
Qed.

Lemma bytesToBigInt_snoc (l : bytes) (b : Z) :
  bytesToBigInt (l ++ [b]) = bytesToBigInt l * 256 + b.
Proof. rewrite bytesToBigInt_app. simpl. unfold bytesToBigInt at 2. simpl. lia. Qed.

(** The digits that [beDigits] puts in front of the accumulator. *)
Lemma beDigits_spec (fuel : nat) (n : Z) (acc : bytes) :
  0 ≤ n < 256 ^ Z.of_nat fuel →
  ∃ ds, beDigits fuel n acc = ds ++ acc
        ∧ bytesToBigInt ds = n
        ∧ octets ds
        ∧ head ds ≠ Some 0
        ∧ (∀ k : nat, n < 256 ^ Z.of_nat k → (length ds ≤ k)%nat).
Proof.
  revert n acc. induction fuel as [|fuel IH]; intros n acc Hn.
  - simpl in *. exists []. repeat split; try done.
    + simpl. unfold bytesToBigInt. simpl. lia.
    + constructor.
    + intros k _. simpl. lia.
  - simpl. destruct (n <=? 0) eqn:E.
    + apply Z.leb_le in E. exists []. repeat split; try done.
      * unfold bytesToBigInt. simpl. lia.
      * constructor.
      * intros k _. simpl. lia.
    + apply Z.leb_gt in E.
      assert (0 ≤ n / 256 < 256 ^ Z.of_nat fuel) as Hq.
      { split; [apply Z.div_pos; lia|].
        apply Z.div_lt_upper_bound; [lia|].
        replace (Z.of_nat (S fuel)) with (Z.succ (Z.of_nat fuel)) in Hn by lia.
        rewrite Z.pow_succ_r in Hn by lia. lia. }
      destruct (IH (n / 256) (n mod 256 :: acc) Hq)
        as (ds & Hds & Hv & Ho & Hh & Hl).
      exists (ds ++ [n mod 256]). repeat split.
      * rewrite Hds. by rewrite <- app_assoc.
      * rewrite bytesToBigInt_snoc, Hv.
        pose proof (Z.div_mod n 256). lia.
      * apply Forall_app. split; [done|].
        constructor; [|constructor]. apply Z.mod_pos_bound. lia.
      * destruct ds as [|d ds]; simpl.
        -- unfold bytesToBigInt in Hv. simpl in Hv.
           intros [= H0]. pose proof (Z.div_mod n 256). lia.
        -- done.
      * intros k Hk. rewrite length_app. simpl.
        destruct k as [|k].
        -- simpl in Hk. lia.
        -- assert (length ds ≤ k)%nat; [|lia]. apply Hl.
           apply Z.div_lt_upper_bound; [lia|].
           replace (Z.of_nat (S k)) with (Z.succ (Z.of_nat k)) in Hk by lia.
           rewrite Z.pow_succ_r in Hk by lia. lia.
Qed.

Lemma log2_fuel (n : Z) : 0 ≤ n → n < 256 ^ Z.of_nat (S (Z.to_nat (Z.log2 n))).
Proof.
  intros Hn. destruct (decide (n = 0)) as [->|Hne].
  - simpl. lia.
  - pose proof (Z.log2_spec n ltac:(lia)) as [_ Hlt].
    pose proof (Z.log2_nonneg n) as Hlog.
    replace (Z.of_nat (S (Z.to_nat (Z.log2 n)))) with (Z.succ (Z.log2 n)) by lia.
    eapply Z.lt_le_trans; [exact Hlt|].
    apply Z.pow_le_mono_l. lia.
Qed.

(** [bigIntToUnpaddedBytes] writes a number in base 256 without a
    leading zero, and [bytesToBigInt] reads it back. *)
Lemma bigIntToUnpaddedBytes_spec (n : Z) :
  0 ≤ n →
  bytesToBigInt (bigIntToUnpaddedBytes n) = n
  ∧ octets (bigIntToUnpaddedBytes n)
  ∧ head (bigIntToUnpaddedBytes n) ≠ Some 0
  ∧ (∀ k : nat, n < 256 ^ Z.of_nat k →
       (length (bigIntToUnpaddedBytes n) ≤ k)%nat).
Proof.
  intros Hn. unfold bigIntToUnpaddedBytes.
  destruct (beDigits_spec (S (Z.to_nat (Z.log2 n))) n [])
    as (ds & Hds & Hv & Ho & Hh & Hl).
  { split; [done|]. by apply log2_fuel. }
  rewrite Hds, app_nil_r. done.
Qed.

Lemma bytesToBigInt_unpadded (n : Z) :
  0 ≤ n → bytesToBigInt (bigIntToUnpaddedBytes n) = n.
Proof. intros Hn. by apply bigIntToUnpaddedBytes_spec. Qed.

Lemma bytesToBigInt_nonneg (bs : bytes) : octets bs → 0 ≤ bytesToBigInt bs.
Proof.
  induction bs as [|b bs IH] using rev_ind; intros Ho.
  - unfold bytesToBigInt. simpl. lia.
  - apply Forall_app in Ho as [Ho Hb]. inversion Hb; subst.
    rewrite bytesToBigInt_snoc. specialize (IH Ho). lia.
Qed.

Lemma bytesToBigInt_replicate_0 (k : nat) (bs : bytes) :
  bytesToBigInt (replicate k 0 ++ bs) = bytesToBigInt bs.
Proof.
  induction k as [|k IH]; simpl; [done|].
  unfold bytesToBigInt in *. simpl. exact IH.
Qed.

End util_facts.

(** ** The fork hash (C5) *)

Module forkhash_facts.
Import common util_facts.

(** The eight big-endian octets of an activation point. *)
Definition be8 (n : Z) : util.bytes :=
  util.setLengthLeft (util.bigIntToUnpaddedBytes n) 8.

Lemma be8_spec (n : Z) :
  0 ≤ n < 2 ^ 64 →
  length (be8 n) = 8%nat ∧ util.bytesToBigInt (be8 n) = n ∧ octets (be8 n).
Proof.
  intros Hn. unfold be8, util.setLengthLeft.
  destruct (bigIntToUnpaddedBytes_spec n ltac:(lia)) as (Hv & Ho & _ & Hl).
  specialize (Hl 8%nat ltac:(simpl; lia)).
  repeat split.
  - rewrite length_app, length_replicate. lia.
  - by rewrite bytesToBigInt_replicate_0.
  - apply Forall_app. split; [|done].
    apply Forall_replicate. lia.
Qed.

(** The four big-endian octets of a checksum: the 4-byte rendering. *)
Definition be4 (n : Z) : util.bytes :=
  [n / 256 ^ 3 mod 256; n / 256 ^ 2 mod 256; n / 256 mod 256; n mod 256].

Lemma beDigits_pos (fuel : nat) (n : Z) (acc : util.bytes) :
  0 < n →
  util.beDigits (S fuel) n acc = util.beDigits fuel (n / 256) (n mod 256 :: acc).
Proof. intros Hn. simpl. by replace (n <=? 0) with false by lia. Qed.

(** [intToBytes] gives the four octets when the leading one is not zero. *)
Lemma intToBytes_be4 (n : Z) :
  2 ^ 24 ≤ n < 2 ^ 32 → util.intToBytes n = be4 n.
Proof.
  intros Hn. unfold util.intToBytes, util.bigIntToUnpaddedBytes, be4.
  replace (n =? 0) with false by lia.
  assert (24 ≤ Z.log2 n) as Hlog.
  { change 24 with (Z.log2 (2 ^ 24)). apply Z.log2_le_mono. lia. }
  destruct (Z.to_nat (Z.log2 n)) as [|[|[|[|fuel]]]] eqn:E; try lia.
  assert (n / 256 / 256 / 256 / 256 = 0) as H4.
  { rewrite !Z.div_div by lia. apply Z.div_small. lia. }
  assert (0 < n / 256 / 256 / 256) as H3.
  { rewrite !Z.div_div by lia. apply Z.div_str_pos. lia. }
  assert (0 < n / 256 / 256) as H2.
  { rewrite !Z.div_div by lia. apply Z.div_str_pos. lia. }
  assert (0 < n / 256) as H1 by (apply Z.div_str_pos; lia).
  rewrite !beDigits_pos by lia. simpl util.beDigits. rewrite H4. simpl.
  rewrite !Z.div_div by lia. done.
Qed.

(** The hardforks up to and including the first one named [hardfork_]. *)
Fixpoint upTo (hardfork_ : string) (hfs : list HardforkConfig)
  : list HardforkConfig :=
  match hfs with
  | [] => []
  | hf :: rest =>
      if String.eqb (name hf) hardfork_ then [hf] else hf :: upTo hardfork_ rest
  end.

(** The activation point of a scheduled hardfork that counts for the
    fork hash: strictly after genesis, and not the merge. *)
Definition forkPoint (hf : HardforkConfig) : option Z :=
  match blockOrTimeOf hf with
  | Some blockOrTime =>
      if negb (blockOrTime =? 0) && negb (String.eqb (name hf) Hardfork.Paris)
      then Some blockOrTime else None
  | None => None
  end.

(** Leaves out a point that equals the previously included one. *)
Fixpoint withoutRepeats (prev : Z) (points : list Z) : list Z :=
  match points with
  | [] => []
  | x :: rest =>
      if x =? prev then withoutRepeats prev rest
      else x :: withoutRepeats x rest
  end.

Definition forkPoints (hardfork_ : string) (hfs : list HardforkConfig) : list Z :=
  withoutRepeats 0 (omap forkPoint (upTo hardfork_ hfs)).

(** The input of the checksum according to the specification. *)
Definition forkHashInput (c : Common) (hardfork_ : string)
    (genesisHash : util.bytes) : util.bytes :=
  genesisHash ++ concat (be8 <$> forkPoints hardfork_ (hardforks c)).

Lemma hfBlockBytes_be8 (n : Z) : 0 ≤ n → hfBlockBytes n = Ok (be8 n).
Proof. intros Hn. unfold hfBlockBytes. by replace (n <? 0) with false by lia. Qed.

Lemma withoutRepeats_cons (prev x : Z) (rest : list Z) :
  withoutRepeats prev (x :: rest)
  = (if x =? prev then [] else [x]) ++ withoutRepeats x rest.
Proof.
  simpl. destruct (x =? prev) eqn:E; [|done].
  apply Z.eqb_eq in E. by subst.
Qed.

Lemma _calcForkHash_step_point hf hfBytes prev :
  (∀ x, forkPoint hf = Some x → 0 ≤ x) →
  _calcForkHash_step hf hfBytes prev
  = Ok (hfBytes
        ++ concat (be8 <$> match forkPoint hf with
                           | Some x => if x =? prev then [] else [x]
                           | None => []
                           end),
        default prev (forkPoint hf)).
Proof.
  unfold _calcForkHash_step, forkPoint.
  destruct (blockOrTimeOf hf) as [bt|]; simpl; [|by rewrite app_nil_r].
  destruct (bt =? 0) eqn:E0, (String.eqb (name hf) Hardfork.Paris) eqn:EP,
    (bt =? prev) eqn:Ep; simpl; intros Hnn;
    rewrite ?Ep; simpl; rewrite ?app_nil_r; try done.
  - apply Z.eqb_eq in Ep. by subst.
  - rewrite hfBlockBytes_be8 by (by apply Hnn). simpl.
    by rewrite ?app_nil_r.
Qed.

Lemma _calcForkHash_loop_points hardfork_ hfs hfBytes prev :
  Forall (λ x, 0 ≤ x) (omap forkPoint (upTo hardfork_ hfs)) →
  _calcForkHash_loop hardfork_ hfs hfBytes prev
  = Ok (hfBytes
        ++ concat (be8 <$> withoutRepeats prev
                             (omap forkPoint (upTo hardfork_ hfs)))).
Proof.
  revert hfBytes prev.
  induction hfs as [|hf rest IH]; intros hfBytes prev Hnn.
  - simpl. by rewrite app_nil_r.
  - assert (∀ x, forkPoint hf = Some x → 0 ≤ x) as Hhf.
    { intros x Hx. simpl in Hnn.
      destruct (String.eqb (name hf) hardfork_); simpl in Hnn;
        rewrite Hx in Hnn; by inversion Hnn. }
    cbn [_calcForkHash_loop upTo].
    rewrite (_calcForkHash_step_point _ _ _ Hhf). simpl.
    destruct (String.eqb (name hf) hardfork_) eqn:EH.
    + simpl. destruct (forkPoint hf) as [x|]; simpl; [|done].
      by destruct (x =? prev).
    + rewrite IH.
      * f_equal. rewrite <- app_assoc. f_equal.
        simpl. destruct (forkPoint hf) as [x|]; simpl; [|done].
        rewrite <- concat_app, <- fmap_app. f_equal. f_equal.
        destruct (x =? prev) eqn:E; [|done].
        apply Z.eqb_eq in E. by subst.
      * simpl in Hnn. rewrite EH in Hnn. simpl in Hnn.
        destruct (forkPoint hf); [by inversion Hnn|done].
Qed.

(** The hardfork has an activation condition that [forkHash] accepts. *)
Definition knownActivation (data : HardforkConfig) : bool :=
  negb (bool_decide (block data = None)
        && bool_decide (timestamp data = None)
        && bool_decide (ttd data = TtdUndefined)).

(** C5, as amended. For a hardfork with a known activation point:
    when the chain configuration stores a fork hash for it, [forkHash]
    returns the stored value, whatever the genesis hash and also without
    one; when it stores none, and the unsigned CRC32 below has a leading
    octet that is not zero, [forkHash] is that CRC32, rendered as 4-byte
    hex, of the genesis hash followed by the eight big-endian octets of
    the activation point (timestamp if present, else block) of every
    hardfork up to the given one that is scheduled strictly after
    genesis, skipping the merge hardfork and any point equal to the
    previously included one. *)
Theorem forkHash_stored_or_computed (crc : util.bytes → Z) (c : Common)
    (hardfork_ : string) (data : HardforkConfig) :
  _getHardfork c hardfork_ = Some data →
  knownActivation data = true →
  (∀ (fh : string) (genesisHash : option util.bytes),
     storedForkHash data = Some fh →
     forkHash crc c (Some hardfork_) genesisHash = Ok fh)
  ∧ (∀ genesisHash : util.bytes,
       storedForkHash data = None →
       Forall (λ x, 0 ≤ x < 2 ^ 64)
         (omap forkPoint (upTo hardfork_ (hardforks c))) →
       2 ^ 24 ≤ crc (forkHashInput c hardfork_ genesisHash) mod 2 ^ 32 →
       forkHash crc c (Some hardfork_) (Some genesisHash)
       = Ok (util.bytesToHex
               (be4 (crc (forkHashInput c hardfork_ genesisHash) mod 2 ^ 32)))).
Proof.
  intros Hget Hknown. unfold knownActivation in Hknown.
  apply negb_true_iff in Hknown. split.
  - intros fh genesisHash Hstored. unfold forkHash. simpl.
    by rewrite Hget, Hknown, Hstored.
  - intros genesisHash Hstored Hpoints Hcrc. unfold forkHash. simpl.
    rewrite Hget, Hknown, Hstored. unfold _calcForkHash.
    rewrite _calcForkHash_loop_points.
    + simpl. fold (forkPoints hardfork_ (hardforks c)).
      fold (forkHashInput c hardfork_ genesisHash).
      rewrite intToBytes_be4; [done|].
      split; [done|]. apply Z.mod_pos_bound. lia.
    + eapply Forall_impl; [exact Hpoints|]. simpl. lia.
Qed.

(** The first hardforks of the main chain, with the fork hashes that
    its chain file stores, and its genesis hash. *)
Definition mainnetHardforks (stored : bool) : list HardforkConfig :=
  [{| name := "chainstart"; block := Some 0; ttd := TtdUndefined;
      timestamp := None;
      storedForkHash := if stored then Some "0xfc64ec04" else None |};
   {| name := "homestead"; block := Some 1150000; ttd := TtdUndefined;
      timestamp := None;
      storedForkHash := if stored then Some "0x97c2c34c" else None |}].

Definition mainnet (stored : bool) : Common :=
  {| EIPs := samples.sampleEIPs; chainId := 1;
     hardforks := mainnetHardforks stored; _hardfork := "homestead";
     _eips := [];
     HARDFORK_CHANGES := [("chainstart", samples.chainstartSpec);
                          ("homestead", samples.homesteadSpec)] |}.

Definition mainnetGenesisHash : util.bytes :=
  [0xd4; 0xe5; 0x67; 0x40; 0xf8; 0x76; 0xae; 0xf8; 0xc0; 0x10; 0xb8; 0x6a;
   0x40; 0xd5; 0xf5; 0x67; 0x45; 0xa1; 0x18; 0xd0; 0x90; 0x6a; 0x34; 0xe6;
   0x9a; 0xec; 0x8c; 0x0d; 0xb1; 0xcb; 0x8f; 0xa3].

Lemma forkHash_stored_or_computed_witness :
  forkHash util.crc32 (mainnet false) (Some "homestead")
    (Some mainnetGenesisHash) = Ok "0x97c2c34c"
  ∧ forkHash util.crc32 (mainnet true) (Some "homestead") None
    = Ok "0x97c2c34c".
Proof.
  split.
  - destruct (forkHash_stored_or_computed util.crc32 (mainnet false)
                "homestead"
                {| name := "homestead"; block := Some 1150000;
                   ttd := TtdUndefined; timestamp := None;
                   storedForkHash := None |}) as [_ H].
    + vm_compute. reflexivity.
    + vm_compute. reflexivity.
    + rewrite (H mainnetGenesisHash).
      * vm_compute. reflexivity.
      * reflexivity.
      * apply (bool_decide_unpack _). vm_compute. exact I.
      * vm_compute. discriminate.
  - destruct (forkHash_stored_or_computed util.crc32 (mainnet true)
                "homestead"
                {| name := "homestead"; block := Some 1150000;
                   ttd := TtdUndefined; timestamp := None;
                   storedForkHash := Some "0x97c2c34c" |}) as [H _].
    + vm_compute. reflexivity.
    + vm_compute. reflexivity.
    + apply H. reflexivity.
Defined.

(** C5 fails as stated: with the fork hashes of the chain file stored,
    [forkHash] returns the stored value whatever the genesis hash, here
    the all-zero hash, for which the 4-byte rendering of the CRC32 of
    the input is another value. *)
Lemma forkHash_stored_counterexample :
  forkHash util.crc32 (mainnet true) (Some "homestead")
    (Some (replicate 32 0)) = Ok "0x97c2c34c"
  ∧ util.bytesToHex
      (be4 (util.crc32 (forkHashInput (mainnet true) "homestead"
                          (replicate 32 0)) mod 2 ^ 32))
    = "0x45e7131d"
  ∧ forkHash util.crc32 (mainnet true) (Some "homestead")
      (Some (replicate 32 0))
    ≠ Ok (util.bytesToHex
            (be4 (util.crc32 (forkHashInput (mainnet true) "homestead"
                                (replicate 32 0)) mod 2 ^ 32))).
Proof.
  split; [|split].
  - vm_compute. reflexivity.
  - vm_compute. reflexivity.
  - vm_compute. discriminate.
Qed.

End forkhash_facts.

(** ** The next base fee (C8) *)

Module basefee_facts.
Import block.

Lemma bigIntDiv_nonzero (a b : Z) :
  b ≠ 0 → bigIntDiv a b = Ok (Z.quot a b).
Proof. intros Hb. unfold bigIntDiv. by replace (b =? 0) with false by lia. Qed.

(** C8, as amended. With EIP-1559 active, gas limit [G], elasticity
    multiplier [e] and base fee [b]: a header whose gas used equals
    [G / e] keeps the base fee; a header whose gas used equals
    [2 * (G / e)], with a positive target, raises it by
    [max (b / d) 1] for the denominator [d], which is [b * (1 + 1/d)]
    exactly when [d] divides a positive [b]. *)
Theorem calcNextBaseFee_on_and_twice_target (h : BlockHeader) (e : Z) :
  common.isActivatedEIP (common h) 1559 = true →
  common.param (common h) "gasConfig" "elasticityMultiplier" = Ok e →
  e ≠ 0 →
  (gasUsed h = Z.quot (gasLimit h) e →
   calcNextBaseFee h = Ok (baseFeePerGas h))
  ∧ (∀ d b : Z,
       common.param (common h) "gasConfig" "baseFeeMaxChangeDenominator" = Ok d →
       0 < d →
       baseFeePerGas h = Some b →
       0 ≤ b →
       0 < Z.quot (gasLimit h) e →
       gasUsed h = 2 * Z.quot (gasLimit h) e →
       calcNextBaseFee h = Ok (Some (b + Z.max (b / d) 1))
       ∧ ((d | b) → 0 < b → (b + Z.max (b / d) 1) * d = b * (d + 1))).
Proof.
  intros Hact He Hne. unfold calcNextBaseFee. rewrite Hact, He. simpl.
  rewrite (bigIntDiv_nonzero _ _ Hne). simpl.
  split.
  - intros ->. by rewrite Z.eqb_refl.
  - intros d b Hd Hdpos Hb Hbnn Htarget ->.
    set (target := Z.quot (gasLimit h) e) in *.
    replace (target =? 2 * target) with false by lia.
    replace (target <? 2 * target) with true by lia.
    rewrite Hd, Hb. simpl.
    replace (2 * target - target) with target by lia.
    rewrite (bigIntDiv_nonzero _ target) by lia. simpl.
    rewrite (bigIntDiv_nonzero _ d) by lia. simpl.
    rewrite Z.quot_mul by lia. rewrite Z.quot_div_nonneg by lia.
    split.
    + do 2 f_equal. destruct (1 <? b / d) eqn:E; lia.
    + intros [k ->] Hpos. rewrite Z.div_mul by lia.
      assert (0 < k) by nia. lia.
Qed.

(** A header of the sample chain at [london] (elasticity multiplier 2,
    denominator 8). *)
Definition londonHeader (gasLimit_ gasUsed_ baseFee : Z) : BlockHeader :=
  {| number := 10; gasLimit := gasLimit_; gasUsed := gasUsed_;
     timestamp := 0; baseFeePerGas := Some baseFee;
     common := samples.sampleCommon "london" [] |}.

Lemma calcNextBaseFee_on_and_twice_target_witness :
  calcNextBaseFee (londonHeader 30000000 15000000 1000000000)
  = Ok (Some 1000000000)
  ∧ calcNextBaseFee (londonHeader 30000000 30000000 1000000000)
    = Ok (Some 1125000000).
Proof.
  split.
  - destruct (calcNextBaseFee_on_and_twice_target
                (londonHeader 30000000 15000000 1000000000) 2) as [H _].
    + vm_compute; reflexivity.
    + vm_compute; reflexivity.
    + discriminate.
    + apply H. vm_compute; reflexivity.
  - destruct (calcNextBaseFee_on_and_twice_target
                (londonHeader 30000000 30000000 1000000000) 2) as [_ H].
    + vm_compute; reflexivity.
    + vm_compute; reflexivity.
    + discriminate.
    + destruct (H 8 1000000000) as [H' _].
      * vm_compute; reflexivity.
      * reflexivity.
      * reflexivity.
      * discriminate.
      * reflexivity.
      * vm_compute; reflexivity.
      * exact H'.
Defined.

(** C8 fails as stated: with the default base fee [7], the denominator
    [8] and the gas used at twice the target, the next base fee is [8],
    which is not [7 * (1 + 1/8)], neither exactly nor rounded down. *)
Lemma calcNextBaseFee_small_base_fee_counterexample :
  let h := londonHeader 30000000 30000000 7 in
  common.isActivatedEIP (common h) 1559 = true
  ∧ common.param (common h) "gasConfig" "elasticityMultiplier" = Ok 2
  ∧ common.param (common h) "gasConfig" "baseFeeMaxChangeDenominator" = Ok 8
  ∧ gasUsed h = 2 * (gasLimit h / 2)
  ∧ calcNextBaseFee h = Ok (Some 8)
  ∧ 8 * 8 ≠ 7 * (8 + 1)
  ∧ 8 ≠ 7 + 7 / 8.
Proof. vm_compute. repeat split; (reflexivity || discriminate). Qed.

End basefee_facts.

(** ** The active precompiles (C9) *)

Module precompile_facts.
Import evm.

(** What the custom list says about an address: the function of the
    last entry that names it ([None] inside for a deletion). *)
Fixpoint customAt (customs : list CustomPrecompile) (a : string)
  : option (option PrecompileFunc) :=
  match customs with
  | [] => None
  | p :: rest =>
      match customAt rest a with
      | Some f => Some f
      | None =>
          if String.eqb (util.bytesToUnprefixedHex (customAddress p)) a
          then Some (customFunction p) else None
      end
  end.

(** The built-in precompile at an address, if its availability
    predicate holds. *)
Definition builtinAt (c : common.Common) (a : string) : option PrecompileFunc :=
  match List.find (λ e, String.eqb (address e) a) precompileEntries with
  | Some e => if isAvailable c e then Some (precompile e) else None
  | None => None
  end.

Lemma fold_setCustom (customs : list CustomPrecompile) (m : PrecompileMap)
    (a : string) :
  fold_left setCustom customs m !! a
  = match customAt customs a with
    | Some f => Some f
    | None => m !! a
    end.
Proof.
  revert m. induction customs as [|p rest IH]; intros m; simpl; [done|].
  rewrite IH. destruct (customAt rest a); [done|].
  unfold setCustom.
  destruct (String.eqb_spec (util.bytesToUnprefixedHex (customAddress p)) a)
    as [E|E].
  - subst. by rewrite lookup_insert_eq.
  - by rewrite lookup_insert_ne.
Qed.

Lemma find_absent (es : list PrecompileEntry) (a : string) :
  a ∉ (address <$> es) → List.find (λ e, String.eqb (address e) a) es = None.
Proof.
  induction es as [|e es IH]; simpl; [done|].
  intros [Hne Hn]%not_elem_of_cons.
  destruct (String.eqb_spec (address e) a); [congruence|]. by apply IH.
Qed.

Lemma fold_setEntry (c : common.Common) (es : list PrecompileEntry)
    (m : PrecompileMap) (a : string) :
  NoDup (address <$> es) →
  fold_left (setEntry c) es m !! a
  = match m !! a with
    | Some v => Some v
    | None =>
        match List.find (λ e, String.eqb (address e) a) es with
        | Some e => if isAvailable c e then Some (Some (precompile e)) else None
        | None => None
        end
    end.
Proof.
  revert m. induction es as [|e es IH]; intros m; simpl.
  - intros _. by destruct (m !! a).
  - intros [Hnin Hnd]%NoDup_cons. rewrite (IH _ Hnd). unfold setEntry.
    destruct (String.eqb_spec (address e) a) as [E|E].
    + subst a. destruct (m !! address e) as [v|] eqn:Hm; simpl.
      * by rewrite Hm.
      * destruct (isAvailable c e).
        -- by rewrite lookup_insert_eq.
        -- rewrite Hm. by rewrite find_absent.
    + destruct (bool_decide (is_Some (m !! address e))); [done|].
      destruct (isAvailable c e); [|done].
      by rewrite lookup_insert_ne.
Qed.

Lemma precompileEntries_NoDup : NoDup (address <$> precompileEntries).
Proof. apply (bool_decide_unpack _). vm_compute. exact I. Qed.

(** C9. The map returned by [getActivePrecompiles] holds, at an address
    named by a custom precompile, what the last such entry gives (its
    function, or nothing callable for a deletion), and at any other
    address the built-in entry of that address if its availability
    predicate holds, and nothing else. *)
Theorem getActivePrecompiles_exact (c : common.Common)
    (customPrecompiles : option (list CustomPrecompile)) (a : string) :
  getActivePrecompiles c customPrecompiles !! a
  = match customAt (default [] customPrecompiles) a with
    | Some f => Some f
    | None => Some <$> builtinAt c a
    end
  ∧ mapGet (getActivePrecompiles c customPrecompiles) a
    = match customAt (default [] customPrecompiles) a with
      | Some f => f
      | None => builtinAt c a
      end.
Proof.
  assert (getActivePrecompiles c customPrecompiles !! a
          = match customAt (default [] customPrecompiles) a with
            | Some f => Some f
            | None => Some <$> builtinAt c a
            end) as H.
  { unfold getActivePrecompiles.
    rewrite (fold_setEntry _ _ _ _ precompileEntries_NoDup).
    assert (match customPrecompiles with
            | Some l => fold_left setCustom l ∅
            | None => ∅
            end !! a
            = customAt (default [] customPrecompiles) a) as ->.
    { destruct customPrecompiles as [l|]; simpl; [|done].
      rewrite fold_setCustom. by destruct (customAt l a). }
    destruct (customAt _ a); [done|].
    unfold builtinAt. destruct (List.find _ _) as [e|]; [|done].
    by destruct (isAvailable c e). }
  split; [exact H|].
  unfold mapGet. rewrite H.
  destruct (customAt _ a); [done|]. by destruct (builtinAt c a).
Qed.

End precompile_facts.

(** ** Message execution: checkpoints and exceptions (C1, C10) *)

Module evm_facts.
Import evm.

(** *** A program logic for the EVM methods

    [hoare P m Q]: when [m] returns from a world in [P], the value and
    the world it returns are in [Q]. Nothing is said of a run that
    throws. *)

Definition hoare {A} (P : World → Prop) (m : M A) (Q : A → World → Prop)
  : Prop :=
  ∀ w a w', P w → m w = Ok (a, w') → Q a w'.

(** [m] keeps the invariant [I]. *)
Definition keeps {A} (I : World → Prop) (m : M A) : Prop :=
  hoare I m (λ _, I).

(** [m] only reads the world. *)
Definition reads {A} (m : M A) : Prop :=
  ∀ w a w', m w = Ok (a, w') → w' = w.

Lemma M_bind_inv {A B} (m : M A) (f : A → M B) (w : World) (b : B) (w' : World) :
  (m ≫= f) w = Ok (b, w') →
  ∃ a w1, m w = Ok (a, w1) ∧ f a w1 = Ok (b, w').
Proof.
  unfold mbind, M_bind. destruct (m w) as [[a w1]|]; [|done]. eauto.
Qed.

Lemma hoare_bind {A B} P (m : M A) (f : A → M B) R Q :
  hoare P m R → (∀ a, hoare (R a) (f a) Q) → hoare P (m ≫= f) Q.
Proof.
  intros Hm Hf w b w' HP (a & w1 & H1 & H2)%M_bind_inv.
  eapply Hf; [|exact H2]. eapply Hm; [exact HP|exact H1].
Qed.

Lemma hoare_ret {A} (P : World → Prop) (a : A) (Q : A → World → Prop) :
  (∀ w, P w → Q a w) → hoare P (mret a) Q.
Proof. intros H w b w' HP [= <- <-]. by apply H. Qed.

Lemma hoare_pre {A} (P P' : World → Prop) (m : M A) Q :
  (∀ w, P w → P' w) → hoare P' m Q → hoare P m Q.
Proof. intros HP H w a w' Hw. apply H. by apply HP. Qed.

Lemma hoare_post {A} (P : World → Prop) (m : M A) (Q Q' : A → World → Prop) :
  (∀ a w, Q' a w → Q a w) → hoare P m Q' → hoare P m Q.
Proof. intros HQ H w a w' Hw Hm. apply HQ. by eapply H. Qed.

Lemma reads_hoare {A} (m : M A) (P : World → Prop) :
  reads m → hoare P m (λ _, P).
Proof. intros H w a w' HP Hm. by rewrite (H _ _ _ Hm). Qed.

Lemma reads_ret {A} (a : A) : reads (mret a).
Proof. by intros w b w' [= _ <-]. Qed.

Lemma reads_throw {A} (msg : string) : reads (throw (A := A) msg).
Proof. by intros w b w'. Qed.

Lemma reads_gets {A} (f : World → A) : reads (gets f).
Proof. by intros w b w' [= _ <-]. Qed.

Lemma reads_liftResult {A} (r : result A) : reads (liftResult r).
Proof. intros w a w'. unfold liftResult. destruct r; [|done]. by intros [= _ <-]. Qed.

Lemma reads_bind {A B} (m : M A) (f : A → M B) :
  reads m → (∀ a, reads (f a)) → reads (m ≫= f).
Proof.
  intros Hm Hf w b w' (a & w1 & H1 & H2)%M_bind_inv.
  rewrite (Hf _ _ _ _ H2). exact (Hm _ _ _ H1).
Qed.

Lemma keeps_bind {A B} I (m : M A) (f : A → M B) :
  keeps I m → (∀ a, keeps I (f a)) → keeps I (m ≫= f).
Proof. intros Hm Hf. eapply hoare_bind; [exact Hm|exact Hf]. Qed.

Lemma keeps_modify (I : World → Prop) (f : World → World) :
  (∀ w, I w → I (f w)) → keeps I (modify f).
Proof. intros H w a w' HI [= _ <-]. by apply H. Qed.

Lemma keeps_when I (b : bool) (m : M unit) : keeps I m → keeps I (when_ b m).
Proof.
  intros H. unfold when_. destruct b; [exact H|].
  apply reads_hoare, reads_ret.
Qed.

Create HintDb reads discriminated.
Create HintDb keeps discriminated.

#[local] Hint Resolve reads_ret reads_throw reads_gets reads_liftResult : reads.

(** Goes through a method along its binds and tests; the operations are
    left to the hints. *)
Ltac step_reads :=
  repeat first
    [ apply reads_bind; [|intros ?]
    | match goal with
      | |- reads (if ?b then _ else _) => destruct b
      | |- reads (match ?x with _ => _ end) => destruct x
      end
    | solve [eauto with reads] ].

Ltac step_keeps :=
  repeat first
    [ apply keeps_bind; [|intros ?]
    | apply keeps_when
    | match goal with
      | |- keeps _ (if ?b then _ else _) =>
          let E := fresh "E" in destruct b eqn:E
      | |- keeps _ (match ?x with _ => _ end) =>
          let E := fresh "E" in destruct x eqn:E
      end
    | solve [apply reads_hoare; step_reads]
    | solve [eauto with keeps] ].

Lemma reads_getAccount a : reads (getAccount a).
Proof. apply reads_gets. Qed.

Lemma reads_getContractCode a : reads (getContractCode a).
Proof. apply reads_gets. Qed.

Lemma reads_codeAddress m : reads (codeAddress m).
Proof. unfold codeAddress. step_reads. Qed.

#[local] Hint Resolve reads_getAccount reads_getContractCode reads_codeAddress
  : reads.

Lemma reads__loadCode getEOFCode this m : reads (_loadCode getEOFCode this m).
Proof. unfold _loadCode. step_reads. Qed.

Lemma reads__generateAddress generateAddress generateAddress2 m :
  reads (_generateAddress generateAddress generateAddress2 m).
Proof. unfold _generateAddress. step_reads. Qed.

Lemma reads_runPrecompile runBuiltin this code_ data_ gasLimit_ :
  reads (runPrecompile runBuiltin this code_ data_ gasLimit_).
Proof. unfold runPrecompile. step_reads. Qed.

#[local] Hint Resolve reads__loadCode reads__generateAddress
  reads_runPrecompile : reads.

Lemma interpret_inv run env m out w w' :
  interpret run env m w = Ok (out, w') →
  ∃ current',
    run env (gasLimit m) (msgSelfdestruct m) (msgCreatedAddresses m) (current w)
      = Ok (out, current')
    ∧ w' = withCurrent (λ _, current') w.
Proof.
  unfold interpret.
  destruct (run _ _ _ _ _) as [[out' current']|]; [|done].
  intros [= -> <-]. eauto.
Qed.

(** Symbolic execution of a method that returned: splits the binds,
    resolves the operations on the world and cases on the tests. *)
Ltac run_M :=
  repeat match goal with
    | H : (_ ≫= _) _ = Ok (_, _) |- _ =>
        apply M_bind_inv in H as (? & ? & ? & H)
    | H : mret _ _ = Ok (_, _) |- _ => inversion H; subst; clear H
    | H : Ok _ = Ok _ |- _ => inversion H; subst; clear H
    | H : Err _ = Ok _ |- _ => discriminate H
    | H : throw _ _ = Ok _ |- _ => discriminate H
    | H : liftResult ?r _ = Ok (_, _) |- _ =>
        unfold liftResult in H; destruct r eqn:?
    | H : gets _ _ = Ok (_, _) |- _ => unfold gets in H
    | H : modify _ _ = Ok (_, _) |- _ => unfold modify in H
    | H : getAccount _ _ = Ok (_, _) |- _ => unfold getAccount in H
    | H : putAccount _ _ _ = Ok (_, _) |- _ => unfold putAccount in H
    | H : setContexts _ _ _ = Ok (_, _) |- _ => unfold setContexts in H
    | H : addWarmedAddress _ _ = Ok (_, _) |- _ => unfold addWarmedAddress in H
    | H : when_ _ _ _ = Ok (_, _) |- _ => unfold when_ in H
    | H : (if ?b then _ else _) _ = Ok (_, _) |- _ =>
        let E := fresh "E" in destruct b eqn:E
    | H : (match ?x with _ => _ end) _ = Ok (_, _) |- _ =>
        let E := fresh "E" in destruct x eqn:E
    | H : (match ?x with _ => _ end) = Ok _ |- _ =>
        let E := fresh "E" in destruct x eqn:E
    end.

(** *** The checkpoint stacks are out of reach of a message *)

Definition stacks (w : World)
  : list (StateManager * gset Address) * list TransientMap :=
  (journalCheckpoints w, transientCheckpoints w).

Definition atStacks (s : list (StateManager * gset Address) * list TransientMap)
    (w : World) : Prop :=
  stacks w = s.

Lemma stacks_putAccount s a acc : keeps (atStacks s) (putAccount a acc).
Proof. apply keeps_modify. by intros w <-. Qed.

Lemma stacks_clearContractStorage s a :
  keeps (atStacks s) (clearContractStorage a).
Proof. apply keeps_modify. by intros w <-. Qed.

Lemma stacks_putContractCode s keccak256 a v :
  keeps (atStacks s) (putContractCode keccak256 a v).
Proof. apply keeps_modify. by intros w <-. Qed.

Lemma stacks_addWarmedAddress s a : keeps (atStacks s) (addWarmedAddress a).
Proof. apply keeps_modify. by intros w <-. Qed.

Lemma stacks_transient_clear s : keeps (atStacks s) transient_clear.
Proof. apply keeps_modify. by intros w <-. Qed.

Lemma stacks_setContexts s b t : keeps (atStacks s) (setContexts b t).
Proof. apply keeps_modify. by intros w <-. Qed.

Lemma stacks_interpret s run env m : keeps (atStacks s) (interpret run env m).
Proof. intros w a w' <- (c & _ & ->)%interpret_inv. done. Qed.

#[local] Hint Resolve stacks_putAccount stacks_clearContractStorage
  stacks_putContractCode stacks_addWarmedAddress stacks_transient_clear
  stacks_setContexts stacks_interpret : keeps.

(** *** The nonce of an account *)

(** The nonce that [getAccount] followed by [?? new Account()] reads. *)
Definition nonceIn (c : Current) (a : Address) : Z :=
  nonce (default newAccount (accounts (stateManager c) !! a)).

Definition nonceAt (w : World) (a : Address) : Z := nonceIn (current w) a.

Definition nonceIs (a : Address) (n : Z) (w : World) : Prop := nonceAt w a = n.

(** An account that is read carries the nonce of its address. *)
Lemma nonce_getAccount {B} a n x (f : option Account → M B) :
  (∀ acc, (x = a → nonce (default newAccount acc) = n) →
          keeps (nonceIs a n) (f acc)) →
  keeps (nonceIs a n) (getAccount x ≫= f).
Proof.
  intros H w b w' Hw (acc & w1 & [= <- <-] & H2)%M_bind_inv.
  eapply H; [|exact Hw|exact H2]. by intros ->.
Qed.

Lemma nonceAt_insert w x acc a :
  nonceIn (withStateManager (withAccounts (λ m, <[x := acc]> m)) (current w)) a
  = if decide (x = a) then nonce acc else nonceAt w a.
Proof.
  unfold nonceAt, nonceIn. simpl. destruct (decide (x = a)) as [->|Hne].
  - by rewrite lookup_insert_eq.
  - by rewrite lookup_insert_ne.
Qed.

(** Writing an account leaves the nonce at [a] alone when it is written
    elsewhere, or with the nonce that [a] has. *)
Lemma nonce_putAccount a n x acc :
  (x = a → nonce acc = n) → keeps (nonceIs a n) (putAccount x (Some acc)).
Proof.
  intros H. apply keeps_modify. intros w Hw. unfold nonceIs, nonceAt in *.
  simpl. rewrite nonceAt_insert. destruct (decide (x = a)); auto.
Qed.

Lemma nonce_clearContractStorage a n x :
  keeps (nonceIs a n) (clearContractStorage x).
Proof.
  apply keeps_modify. intros w Hw. unfold nonceIs, nonceAt, nonceIn in *.
  simpl. destruct (accounts (stateManager (current w)) !! x) as [acc|] eqn:E;
    [|done].
  destruct (decide (x = a)) as [->|Hne].
  - rewrite lookup_insert_eq. rewrite E in Hw. done.
  - by rewrite lookup_insert_ne.
Qed.

Lemma nonce_putContractCode a n keccak256 x v :
  keeps (nonceIs a n) (putContractCode keccak256 x v).
Proof.
  apply keeps_modify. intros w Hw. unfold nonceIs, nonceAt, nonceIn in *.
  simpl. destruct (decide (x = a)) as [->|Hne].
  - by rewrite lookup_insert_eq.
  - by rewrite lookup_insert_ne.
Qed.

Lemma nonce_addWarmedAddress a n x : keeps (nonceIs a n) (addWarmedAddress x).
Proof. apply keeps_modify. by intros w <-. Qed.

Lemma nonce_transient_clear a n : keeps (nonceIs a n) transient_clear.
Proof. apply keeps_modify. by intros w <-. Qed.

Lemma nonce_setContexts a n b t : keeps (nonceIs a n) (setContexts b t).
Proof. apply keeps_modify. by intros w <-. Qed.

(** The interpreter leaves the nonce of [a] as it is. *)
Definition interpreterKeepsNonce
    (run : Env → Z → option (gset string) → option (gset string) → Current →
           result (InterpreterOutcome * Current))
    (a : Address) : Prop :=
  ∀ env gasLimit_ selfdestruct_ created cur out cur',
    run env gasLimit_ selfdestruct_ created cur = Ok (out, cur') →
    nonceIn cur' a = nonceIn cur a.

Lemma nonce_interpret a n run env m :
  interpreterKeepsNonce run a → keeps (nonceIs a n) (interpret run env m).
Proof.
  intros Hrun w out w' Hw (c & Hc & ->)%interpret_inv.
  unfold nonceIs, nonceAt in *. simpl. by rewrite (Hrun _ _ _ _ _ _ _ Hc).
Qed.

#[local] Hint Resolve nonce_clearContractStorage nonce_putContractCode
  nonce_addWarmedAddress nonce_transient_clear nonce_setContexts
  nonce_interpret : keeps.

(** The condition on the nonce of an account that is written. *)
Ltac nonce_written :=
  intros; simpl in *; first [ congruence | eauto ].

Ltac step_nonce :=
  repeat first
    [ apply nonce_getAccount; intros ? ?
    | apply keeps_bind; [|intros ?]
    | apply keeps_when
    | match goal with
      | |- keeps _ (if ?b then _ else _) =>
          let E := fresh "E" in destruct b eqn:E
      | |- keeps _ (match ?x with _ => _ end) =>
          let E := fresh "E" in destruct x eqn:E
      end
    | solve [apply reads_hoare; step_reads]
    | solve [apply nonce_putAccount; nonce_written]
    | solve [eauto with keeps] ].

Section Methods.

Variable keccak256 : bytes → bytes.
Variable generateAddress : Address → Z → Address.
Variable generateAddress2 : Address → bytes → bytes → Address.
Variable EOF_codeAnalysis : bytes → option (Z * Z).
Variable EOF_validOpcodes : bytes → bool.
Variable getEOFCode : bytes → bytes.
Variable runBuiltin : BuiltinPrecompile → PrecompileInput → ExecResult.
Variable interpreter_run :
  Env → Z → option (gset string) → option (gset string) → Current →
  result (InterpreterOutcome * Current).
Variable this : EVM.

#[local] Abbreviation execute_call :=
  (_executeCall getEOFCode runBuiltin interpreter_run this).
#[local] Abbreviation execute_create :=
  (_executeCreate keccak256 generateAddress generateAddress2 EOF_codeAnalysis
     EOF_validOpcodes interpreter_run this).
#[local] Abbreviation execute_message :=
  (executeMessage keccak256 generateAddress generateAddress2 EOF_codeAnalysis
     EOF_validOpcodes getEOFCode runBuiltin interpreter_run this).
#[local] Abbreviation prepare :=
  (runCall_prepare generateAddress generateAddress2 this).
#[local] Abbreviation run_call :=
  (runCall keccak256 generateAddress generateAddress2 EOF_codeAnalysis
     EOF_validOpcodes getEOFCode runBuiltin interpreter_run this).

Lemma stacks_runInterpreter s m :
  keeps (atStacks s) (runInterpreter interpreter_run m).
Proof. unfold runInterpreter. step_keeps. Qed.

Lemma stacks__executeCall s m to_ : keeps (atStacks s) (execute_call m to_).
Proof.
  pose proof stacks_runInterpreter.
  unfold _executeCall, _reduceSenderBalance, _addToBalance, postMessageCleanup.
  step_keeps.
Qed.

Lemma stacks__executeCreate s m : keeps (atStacks s) (execute_create m).
Proof.
  pose proof stacks_runInterpreter.
  unfold _executeCreate, _reduceSenderBalance, _addToBalance.
  step_keeps.
Qed.

Lemma stacks_executeMessage s m : keeps (atStacks s) (execute_message m).
Proof.
  unfold executeMessage. destruct (to m).
  - apply stacks__executeCall.
  - apply stacks__executeCreate.
Qed.

Lemma stacks_prepare s opts : keeps (atStacks s) (prepare opts).
Proof. unfold runCall_prepare, messageFromOpts. step_keeps. Qed.

Lemma nonce_runInterpreter a n m :
  interpreterKeepsNonce interpreter_run a →
  keeps (nonceIs a n) (runInterpreter interpreter_run m).
Proof. intros Hrun. unfold runInterpreter. step_nonce. Qed.

(** A call moves balances only. *)
Lemma nonce__executeCall a n m to_ :
  interpreterKeepsNonce interpreter_run a →
  keeps (nonceIs a n) (execute_call m to_).
Proof.
  intros Hrun. pose proof (nonce_runInterpreter a n) as Hint.
  unfold _executeCall, _reduceSenderBalance, _addToBalance, postMessageCleanup.
  step_nonce.
Qed.


(** A creation writes the account of the sender and the account at the
    new address. An address whose account has a nonce above [0] is never
    taken as the new address. *)
Lemma nonce__executeCreate n m :
  1 ≤ n →
  interpreterKeepsNonce interpreter_run (caller m) →
  keeps (nonceIs (caller m) n) (execute_create m).
Proof.
  intros Hn Hrun. pose proof (nonce_runInterpreter (caller m) n) as Hint.
  unfold _executeCreate, _reduceSenderBalance, _addToBalance.
  step_nonce.
  apply nonce_putAccount. intros ->. exfalso.
  rewrite (H0 eq_refl) in E1. apply orb_false_iff in E1 as [E1 _].
  apply andb_false_iff in E1 as [E1%negb_false_iff|E1]; lia.
Qed.

(** *** The message of [runCall] *)

Definition callerOf (opts : EVMRunCallOpts) : Address :=
  match optMessage opts with
  | Some message => caller message
  | None => default Address_zero (optCaller opts)
  end.

Definition depthOf (opts : EVMRunCallOpts) : Z :=
  match optMessage opts with
  | Some message => depth message
  | None => default 0 (optDepth opts)
  end.

(** Up to the checkpoint, [runCall] adds one to the nonce of the caller
    of a message of depth [0], and leaves it alone at another depth. *)
Lemma prepare_nonce opts w message w1 :
  prepare opts w = Ok (message, w1) →
  caller message = callerOf opts
  ∧ depth message = depthOf opts
  ∧ nonceAt w1 (callerOf opts)
    = nonceAt w (callerOf opts) + (if depthOf opts =? 0 then 1 else 0).
Proof.
  unfold runCall_prepare, messageFromOpts, newMessage, callerOf, depthOf.
  intros H. run_M;
    repeat match goal with
      | H : _generateAddress _ _ _ _ = Ok (_, _) |- _ =>
          apply reads__generateAddress in H; subst
      end;
    simpl in *; (split; [done|]); (split; [done|]);
    unfold nonceAt, nonceIn; simpl;
    rewrite ?lookup_insert_eq; simpl;
    repeat match goal with
      | E : (_ =? 0) = _ |- _ => rewrite E
      end;
    lia.
Qed.

(** *** The checkpoints of [runCall] *)

(** The world once the checkpoints of a message are taken. *)
Definition checkpointed (w : World) : World :=
  {| current := current w;
     journalCheckpoints :=
       (stateManager (current w), warmedAddresses (current w))
         :: journalCheckpoints w;
     transientCheckpoints :=
       if common.isActivatedEIP (common this) 1153
       then transientStorage (current w) :: transientCheckpoints w
       else transientCheckpoints w;
     _tx := _tx w; _block := _block w |}.

Lemma takeCheckpoints_checkpointed w :
  takeCheckpoints this w = Ok (tt, checkpointed w).
Proof.
  destruct w as [[sm warm ts] js tcs tx blk].
  unfold takeCheckpoints, checkpointed, journal_checkpoint,
    transient_checkpoint, when_, modify, mbind, M_bind, mret, M_ret. simpl.
  by destruct (common.isActivatedEIP (common this) 1153).
Qed.

(** The exception that [runCall] dismisses: a failed code deposit on
    Chainstart. *)
Definition dismissed (e : ERROR) : bool :=
  String.eqb (common.hardfork (common this)) common.Hardfork.Chainstart
  && bool_decide (e = CODESTORE_OUT_OF_GAS).

(** [w'] keeps what the message did up to [w3], and the checkpoints
    taken at [w1] are gone. *)
Definition committed (w1 w3 w' : World) : Prop :=
  current w' = current w3 ∧ stacks w' = stacks w1.

(** [w'] is back at the checkpoints taken at [w1]: the state manager
    and the warm addresses of the journal and, with EIP-1153, the
    transient storage. *)
Definition reverted (w1 w3 w' : World) : Prop :=
  stateManager (current w') = stateManager (current w1)
  ∧ warmedAddresses (current w') = warmedAddresses (current w1)
  ∧ transientStorage (current w')
    = (if common.isActivatedEIP (common this) 1153
       then transientStorage (current w1) else transientStorage (current w3))
  ∧ stacks w' = stacks w1.

(** What [runCall] makes of the result [r] of the execution that ended
    in [w3], with the checkpoints taken at [w1]. *)
Definition settled (w1 w3 : World) (r res : EVMResult) (w' : World) : Prop :=
  createdAddress res = createdAddress r
  ∧ exceptionError (execResult res) = exceptionError (execResult r)
  ∧ executionGasUsed (execResult res) = executionGasUsed (execResult r)
  ∧ returnValue (execResult res) = returnValue (execResult r)
  ∧ gas (execResult res) = gas (execResult r)
  ∧ match exceptionError (execResult r) with
    | None => committed w1 w3 w' ∧ execResult res = execResult r
    | Some e =>
        if dismissed e
        then committed w1 w3 w' ∧ execResult res = execResult r
        else
          reverted w1 w3 w'
          ∧ logs (execResult res) = Some []
          ∧ if bool_decide (e = CODESTORE_OUT_OF_GAS)
            then selfdestruct (execResult res) = selfdestruct (execResult r)
                 ∧ createdAddresses (execResult res)
                   = createdAddresses (execResult r)
                 ∧ gasRefund (execResult res) = gasRefund (execResult r)
            else selfdestruct (execResult res) = Some ∅
                 ∧ createdAddresses (execResult res) = Some ∅
                 ∧ gasRefund (execResult res) = Some 0
    end.

Lemma runCall_finish_settled w1 w3 r res w' :
  stacks w3 = stacks (checkpointed w1) →
  runCall_finish this r w3 = Ok (res, w') →
  settled w1 w3 r res w'.
Proof.
  destruct w3 as [[sm3 warm3 ts3] js3 tcs3 tx3 blk3].
  destruct w1 as [[sm1 warm1 ts1] js1 tcs1 tx1 blk1].
  unfold stacks, checkpointed, settled, committed, reverted, dismissed,
    runCall_finish, journal_revert, journal_commit, transient_revert,
    transient_commit, when_, stacks. simpl.
  intros [= -> ->].
  destruct (exceptionError (execResult r)) as [e|] eqn:Ee;
    destruct (common.isActivatedEIP (common this) 1153);
    [ destruct (String.eqb (common.hardfork (common this))
                  common.Hardfork.Chainstart);
      simpl; destruct (bool_decide (e = CODESTORE_OUT_OF_GAS)) .. | | ];
    simpl; intros [= <- <-]; simpl; rewrite ?Ee; done.
Qed.

(** The gas that [runInterpreter] reports as used: the whole gas limit
    for an exception other than REVERT and INVALID_EOF_FORMAT, and what
    the run has consumed otherwise. *)
Lemma runInterpreter_gas m w r w' :
  runInterpreter interpreter_run m w = Ok (r, w') →
  ∃ gasLeft_,
    gas r = Some gasLeft_
    ∧ executionGasUsed r
      = match exceptionError r with
        | Some e =>
            if bool_decide (e = REVERT) || bool_decide (e = INVALID_EOF_FORMAT)
            then gasLimit m - gasLeft_
            else gasLimit m
        | None => gasLimit m - gasLeft_
        end.
Proof.
  unfold runInterpreter. intros H. run_M.
  eexists. split; [reflexivity|]. simpl.
  destruct (runException _) as [e|]; [|done].
  by destruct (bool_decide (e = REVERT)),
    (bool_decide (e = INVALID_EOF_FORMAT)).
Qed.

Lemma runCall_inv opts w res w' :
  run_call opts w = Ok (res, w') →
  ∃ message w1 r w3,
    prepare opts w = Ok (message, w1)
    ∧ execute_message message (checkpointed w1) = Ok (r, w3)
    ∧ stacks w3 = stacks (checkpointed w1)
    ∧ runCall_finish this r w3 = Ok (res, w').
Proof.
  unfold runCall.
  intros (message & w1 & H1 & (u & w2 & H2 & (r & w3 & H3 & H4)%M_bind_inv)
            %M_bind_inv)%M_bind_inv.
  rewrite takeCheckpoints_checkpointed in H2. injection H2 as _ <-.
  exists message, w1, r, w3. repeat split; try done.
  by eapply (stacks_executeMessage (stacks (checkpointed w1))).
Qed.



End Methods.

(** *** Sample runs

    An EVM on the sample chain, with stand-ins for the functions that
    the runs below do not depend on, and interpreters that stand for
    the code that is run. *)

Definition sampleEVM (hardfork_ : string) : EVM :=
  {| common := samples.sampleCommon hardfork_ [];
     allowUnlimitedContractSize := false;
     allowUnlimitedInitCodeSize := false;
     _customPrecompiles := None;
     _precompiles :=
       getActivePrecompiles (samples.sampleCommon hardfork_ []) None |}.

Abbreviation Interpreter :=
  (Env → Z → option (gset string) → option (gset string) → Current →
   result (InterpreterOutcome * Current)).

(** Code that ends at once with the given exception, if any, having
    used [21] gas, with a refund of [7] recorded, and leaving the state
    as it is. *)
Definition endingRun (exception : option ERROR) : Interpreter :=
  λ env gasLimit_ selfdestruct_ created cur,
    Ok ({| runException := exception; gasLeft := gasLimit_ - 21;
           runGasRefund := 7; resultLogs := [];
           resultReturnValue := Some [1];
           resultSelfdestruct := selfdestruct_;
           resultCreatedAddresses := created |}, cur).

Definition revertingRun : Interpreter := endingRun (Some REVERT).

(** Code that creates a contract and stops: the CREATE of the
    interpreter adds one to the nonce of the account whose code runs
    (the nonce of which [_generateAddress] then takes one off). *)
Definition creatingRun : Interpreter :=
  λ env gasLimit_ selfdestruct_ created cur,
    let account :=
      default newAccount (accounts (stateManager cur) !! envAddress env) in
    Ok ({| runException := None; gasLeft := gasLimit_ - 32000;
           runGasRefund := 0; resultLogs := [];
           resultReturnValue := None;
           resultSelfdestruct := selfdestruct_;
           resultCreatedAddresses := created |},
        withStateManager
          (withAccounts
             (λ m, <[envAddress env := withNonce account (nonce account + 1)]> m))
          cur).

Definition sampleRunCallWith (run : Interpreter) (hardfork_ : string)
  : EVMRunCallOpts → M EVMResult :=
  runCall (λ bs, bs) (λ a n, reverse a) (λ a salt_ code_, reverse a)
    (λ _, None) (λ _, true) (λ bs, bs)
    (λ _ input, OOGResult (inputGasLimit input))
    run (sampleEVM hardfork_).

Definition sampleRunCall : string → EVMRunCallOpts → M EVMResult :=
  sampleRunCallWith revertingRun.

Definition alice : Address := replicate 20 0xaa.
Definition bob : Address := replicate 20 0xbb.

Definition worldOf (accounts_ : gmap Address Account)
    (code_ : gmap Address bytes) : World :=
  {| current :=
       {| stateManager := {| accounts := accounts_; contractCode := code_;
                             contractStorage := ∅ |};
          warmedAddresses := ∅; transientStorage := ∅ |};
     journalCheckpoints := []; transientCheckpoints := [];
     _tx := None; _block := None |}.

(** No account has funds. *)
Definition emptyWorld : World := worldOf ∅ ∅.

(** [alice] has funds and [bob] has code. *)
Definition fundedWorld : World :=
  worldOf {[ alice := withBalance newAccount 10 ]} {[ bob := [0xfd] ]}.

(** A transfer of [1] from [alice] to [bob] with a gas limit of
    [100000]. *)
Definition transferOpts : EVMRunCallOpts :=
  {| optBlock := None; optGasPrice := None; optOrigin := None;
     optCaller := Some alice; optGasLimit := Some 100000;
     optTo := Some bob; optValue := Some 1; optData := None;
     optCode := None; optDepth := None; optIsCompiled := None;
     optIsStatic := None; optSalt := None; optSelfdestruct := None;
     optCreatedAddresses := None; optSkipBalance := None;
     optDelegatecall := None; optVersionedHashes := None;
     optMessage := None |}.

(** A call of [bob] by itself. *)
Definition selfCallOpts : EVMRunCallOpts :=
  {| optBlock := None; optGasPrice := None; optOrigin := None;
     optCaller := Some bob; optGasLimit := Some 100000;
     optTo := Some bob; optValue := None; optData := None;
     optCode := None; optDepth := None; optIsCompiled := None;
     optIsStatic := None; optSalt := None; optSelfdestruct := None;
     optCreatedAddresses := None; optSkipBalance := None;
     optDelegatecall := None; optVersionedHashes := None;
     optMessage := None |}.

Lemma endingRun_keeps_nonce e a : interpreterKeepsNonce (endingRun e) a.
Proof. intros env g sd ca cur out cur' [= _ <-]. reflexivity. Qed.

(** A run that evaluates to a value and a world in [P] returns them. *)
Lemma returned {A} (m : result (A * World)) (P : A → World → Prop) :
  match m with Ok (a, w) => P a w | Err _ => False end →
  ∃ a w, m = Ok (a, w) ∧ P a w.
Proof. destruct m as [[a w]|]; [|done]. eauto. Qed.





End evm_facts.

(** ** The recursive-length-prefix codec *)

Module rlp_facts.
Import rlp.

(** Induction on a value and on the values of its lists. *)
Definition Item_ind_nested (P : Item → Prop)
    (HB : ∀ bs, P (Bytes bs))
    (HL : ∀ items, Forall P items → P (List items)) : ∀ x, P x :=
  fix go (x : Item) : P x :=
    match x with
    | Bytes bs => HB bs
    | List items =>
        HL items
          ((fix all (l : list Item) : Forall P l :=
              match l with
              | [] => @List.Forall_nil Item P
              | y :: r => @List.Forall_cons Item P y r (go y) (all r)
              end) items)
    end.

(** The payload of a list: the encodings of its values, one after the
    other. *)
Definition encodeAll (items : list Item) : bytes :=
  concat (encode <$> items).

Lemma encode_List (items : list Item) :
  encode (List items)
  = encodeLength (length (encodeAll items)) 0xc0 ++ encodeAll items.
Proof.
  assert (∀ l, (fix encodeAll (l : list Item) : bytes :=
                  match l with
                  | [] => []
                  | x :: r => encode x ++ encodeAll r
                  end) l = encodeAll l) as H.
  { induction l as [|x l IH]; [done|]. unfold encodeAll. simpl.
    by rewrite IH. }
  simpl. by rewrite H.
Qed.

Lemma slice_app_middle {A} (l1 l2 l3 : list A) (a b : Z) :
  a = Z.of_nat (length l1) → b = a + Z.of_nat (length l2) →
  js.slice a b (l1 ++ l2 ++ l3) = l2.
Proof.
  intros -> ->. unfold js.slice, js.sliceBound. rewrite !length_app.
  assert ((Z.of_nat (length l1) <? 0) = false) as -> by (apply Z.ltb_ge; lia).
  assert ((Z.of_nat (length l1) + Z.of_nat (length l2) <? 0) = false) as ->
    by (apply Z.ltb_ge; lia).
  rewrite !Z.min_l by lia.
  replace (Z.to_nat (Z.of_nat (length l1) + Z.of_nat (length l2)
                     - Z.of_nat (length l1))) with (length l2) by lia.
  rewrite Nat2Z.id, drop_app_length. by rewrite take_app_length.
Qed.

Lemma sliceFrom_app {A} (l1 l2 : list A) (a : Z) :
  a = Z.of_nat (length l1) → js.sliceFrom a (l1 ++ l2) = l2.
Proof.
  intros ->. rewrite js_facts.sliceFrom_drop.
  - by rewrite Nat2Z.id, drop_app_length.
  - rewrite length_app. lia.
Qed.

Lemma safeSlice_app_middle (l1 l2 l3 : bytes) (a b : Z) :
  a = Z.of_nat (length l1) → b = a + Z.of_nat (length l2) →
  safeSlice (l1 ++ l2 ++ l3) a b = Ok l2.
Proof.
  intros Ha Hb. unfold safeSlice.
  assert ((Z.of_nat (length (l1 ++ l2 ++ l3)) <? b) = false) as ->
    by (apply Z.ltb_ge; rewrite !length_app; lia).
  by rewrite slice_app_middle.
Qed.

(** The length of a long value, written in at most eight octets. *)
Lemma hexLength_spec (len : nat) :
  (56 ≤ len)%nat → Z.of_nat len < 2 ^ 64 →
  let hexLength := util.bigIntToUnpaddedBytes (Z.of_nat len) in
  (1 ≤ length hexLength ≤ 8)%nat
  ∧ decodeLength hexLength = Ok (Z.of_nat len).
Proof.
  intros Hlen Hbound hexLength.
  destruct (util_facts.bigIntToUnpaddedBytes_spec (Z.of_nat len) ltac:(lia))
    as (Hv & _ & Hh & Hl).
  fold hexLength in Hv, Hh, Hl. split.
  - split; [|apply (Hl 8%nat); simpl; lia].
    destruct hexLength; [|simpl; lia].
    unfold util.bytesToBigInt in Hv. simpl in Hv. lia.
  - unfold decodeLength. rewrite Hv.
    by destruct hexLength as [|[| |] ?].
Qed.

Lemma encodeLength_short (len : nat) (offset : Z) :
  (len < 56)%nat → encodeLength len offset = [Z.of_nat len + offset].
Proof.
  intros H. unfold encodeLength.
  by destruct (Nat.ltb_spec len 56); [|lia].
Qed.

Lemma encodeLength_long (len : nat) (offset : Z) :
  (56 ≤ len)%nat →
  encodeLength len offset
  = (offset + 55
     + Z.of_nat (length (util.bigIntToUnpaddedBytes (Z.of_nat len))))
      :: util.bigIntToUnpaddedBytes (Z.of_nat len).
Proof.
  intros H. unfold encodeLength.
  by destruct (Nat.ltb_spec len 56); [lia|].
Qed.

(** The equation of [_decode] on an input that is not empty. *)
Lemma _decode_cons (fuel : nat) (firstByte : Z) (tl : bytes) :
  _decode (S fuel) (firstByte :: tl)
  = let input := firstByte :: tl in
    if firstByte <=? 0x7f then
      Ok (Bytes (js.slice 0 1 input), js.sliceFrom 1 input)
    else if firstByte <=? 0xb7 then
      let len := firstByte - 0x7f in
      data ← (if firstByte =? 0x80 then Ok [] else safeSlice input 1 len);
      if (len =? 2) && bool_decide (default 0x80 (head data) < 0x80) then
        Err "invalid RLP encoding: invalid prefix, single byte < 0x80 are not prefixed"
      else Ok (Bytes data, js.sliceFrom len input)
    else if firstByte <=? 0xbf then
      let llength := firstByte - 0xb6 in
      if Z.of_nat (length input) - 1 <? llength then
        Err "invalid RLP: not enough bytes for string length"
      else
        lenBytes ← safeSlice input 1 llength;
        len ← decodeLength lenBytes;
        if len <=? 55 then
          Err "invalid RLP: expected string length to be greater than 55"
        else
          data ← safeSlice input llength (len + llength);
          Ok (Bytes data, js.sliceFrom (len + llength) input)
    else if firstByte <=? 0xf7 then
      let len := firstByte - 0xbf in
      innerRemainder ← safeSlice input 1 len;
      decoded ← decodeAll fuel innerRemainder;
      Ok (List decoded, js.sliceFrom len input)
    else
      let llength := firstByte - 0xf6 in
      lenBytes ← safeSlice input 1 llength;
      len ← decodeLength lenBytes;
      if len <? 56 then Err "invalid RLP: encoded list too short"
      else
        let totalLength := llength + len in
        if Z.of_nat (length input) <? totalLength then
          Err "invalid RLP: total length is larger than the data"
        else
          innerRemainder ← safeSlice input llength totalLength;
          decoded ← decodeAll fuel innerRemainder;
          Ok (List decoded, js.sliceFrom totalLength input).
Proof. reflexivity. Qed.

Lemma decodeAll_cons (fuel : nat) (b : Z) (tl : bytes) :
  decodeAll (S fuel) (b :: tl)
  = d ← _decode fuel (b :: tl); rest ← decodeAll fuel d.2; Ok (d.1 :: rest).
Proof. reflexivity. Qed.

Lemma sliceFrom_cons_app {A} (x : A) (l1 l2 : list A) (a : Z) :
  a = 1 + Z.of_nat (length l1) → js.sliceFrom a (x :: l1 ++ l2) = l2.
Proof.
  intros ->. change (x :: l1 ++ l2) with ((x :: l1) ++ l2).
  apply sliceFrom_app. simpl length. lia.
Qed.

Lemma sliceFrom_cons_app2 {A} (x : A) (l1 l2 l3 : list A) (a : Z) :
  a = 1 + Z.of_nat (length l1) + Z.of_nat (length l2) →
  js.sliceFrom a (x :: l1 ++ l2 ++ l3) = l3.
Proof.
  intros ->. rewrite app_assoc. apply sliceFrom_cons_app.
  rewrite length_app. lia.
Qed.

Lemma safeSlice_cons_middle (x : Z) (l2 l3 : bytes) (b : Z) :
  b = 1 + Z.of_nat (length l2) → safeSlice (x :: l2 ++ l3) 1 b = Ok l2.
Proof.
  intros ->. change (x :: l2 ++ l3) with ([x] ++ l2 ++ l3).
  apply safeSlice_app_middle; simpl length; lia.
Qed.

Lemma safeSlice_cons_app_middle (x : Z) (l1 l2 l3 : bytes) (a b : Z) :
  a = 1 + Z.of_nat (length l1) → b = a + Z.of_nat (length l2) →
  safeSlice (x :: l1 ++ l2 ++ l3) a b = Ok l2.
Proof.
  intros -> ->. change (x :: l1 ++ l2 ++ l3) with ((x :: l1) ++ l2 ++ l3).
  apply safeSlice_app_middle; simpl length; lia.
Qed.

(** A byte array that is not a single octet below [0x80] is encoded
    with its length in front. *)
Definition prefixed (bs : bytes) : Prop :=
  ∀ b, bs = [b] → 0x80 ≤ b.

Lemma encode_Bytes_prefixed (bs : bytes) :
  prefixed bs → encode (Bytes bs) = encodeLength (length bs) 0x80 ++ bs.
Proof.
  intros H. destruct bs as [|b [|b' bs']]; try done.
  simpl. specialize (H b eq_refl).
  by assert ((b <? 128) = false) as -> by (apply Z.ltb_ge; lia).
Qed.

Lemma _decode_short (fuel : nat) (bs rest : bytes) :
  prefixed bs → (length bs < 56)%nat →
  _decode (S fuel) ((encodeLength (length bs) 0x80 ++ bs) ++ rest)
  = Ok (Bytes bs, rest).
Proof.
  intros Hb Hlen. rewrite encodeLength_short by done.
  cbn [app]. rewrite _decode_cons. cbv zeta.
  assert ((Z.of_nat (length bs) + 128 <=? 127) = false) as ->
    by (apply Z.leb_gt; lia).
  assert ((Z.of_nat (length bs) + 128 <=? 183) = true) as ->
    by (apply Z.leb_le; lia).
  rewrite (sliceFrom_cons_app _ bs rest) by lia.
  destruct bs as [|b bs'].
  - simpl. done.
  - assert ((Z.of_nat (length (b :: bs')) + 128 =? 128) = false) as ->
      by (apply Z.eqb_neq; simpl length; lia).
    rewrite (safeSlice_cons_middle _ (b :: bs') rest) by lia.
    cbn [mbind result_bind head default].
    destruct bs' as [|b' bs'].
    + specialize (Hb b eq_refl).
      rewrite (bool_decide_eq_false_2 (b < 128)) by lia.
      by rewrite andb_false_r.
    + assert ((Z.of_nat (length (b :: b' :: bs')) + 128 - 127 =? 2) = false)
        as -> by (apply Z.eqb_neq; simpl length; lia).
      done.
Qed.

Lemma _decode_long (fuel : nat) (bs rest : bytes) :
  (56 ≤ length bs)%nat → Z.of_nat (length bs) < 2 ^ 64 →
  _decode (S fuel) ((encodeLength (length bs) 0x80 ++ bs) ++ rest)
  = Ok (Bytes bs, rest).
Proof.
  intros Hlen Hbound. rewrite encodeLength_long by lia.
  destruct (hexLength_spec (length bs) Hlen Hbound) as [Hk Hd].
  set (hexLength := util.bigIntToUnpaddedBytes (Z.of_nat (length bs))) in *.
  cbn [app]. rewrite <- !app_assoc. rewrite _decode_cons. cbv zeta.
  assert ((128 + 55 + Z.of_nat (length hexLength) <=? 127) = false) as ->
    by (apply Z.leb_gt; lia).
  assert ((128 + 55 + Z.of_nat (length hexLength) <=? 183) = false) as ->
    by (apply Z.leb_gt; lia).
  assert ((128 + 55 + Z.of_nat (length hexLength) <=? 191) = true) as ->
    by (apply Z.leb_le; lia).
  assert ((Z.of_nat (length ((128 + 55 + Z.of_nat (length hexLength))
                               :: hexLength ++ bs ++ rest)) - 1
           <? 128 + 55 + Z.of_nat (length hexLength) - 182) = false) as ->
    by (apply Z.ltb_ge; simpl length; rewrite !length_app; lia).
  rewrite (safeSlice_cons_middle _ hexLength (bs ++ rest)) by lia.
  cbn [mbind result_bind]. rewrite Hd. cbn [mbind result_bind].
  assert ((Z.of_nat (length bs) <=? 55) = false) as ->
    by (apply Z.leb_gt; lia).
  rewrite (safeSlice_cons_app_middle _ hexLength bs rest) by lia.
  cbn [mbind result_bind].
  by rewrite (sliceFrom_cons_app2 _ hexLength bs rest) by lia.
Qed.

(** A byte array comes back from its encoding, whatever follows it. *)
Lemma _decode_encode_Bytes (fuel : nat) (bs rest : bytes) :
  Z.of_nat (length bs) < 2 ^ 64 →
  _decode (S fuel) (encode (Bytes bs) ++ rest) = Ok (Bytes bs, rest).
Proof.
  intros Hbound.
  assert (prefixed bs →
          _decode (S fuel) (encode (Bytes bs) ++ rest) = Ok (Bytes bs, rest))
    as Hprefixed.
  { intros Hp. rewrite encode_Bytes_prefixed by done.
    destruct (decide (length bs < 56)%nat).
    - by apply _decode_short.
    - apply _decode_long; [lia|done]. }
  destruct bs as [|b [|b' bs']]; [by apply Hprefixed| |by apply Hprefixed].
  destruct (decide (b < 0x80)) as [Hb|Hb].
  - change (encode (Bytes [b]))
      with (if b <? 0x80 then [b] else encodeLength 1 0x80 ++ [b]).
    assert ((b <? 128) = true) as -> by (apply Z.ltb_lt; lia).
    cbn [app]. rewrite _decode_cons. cbv zeta.
    assert ((b <=? 127) = true) as -> by (apply Z.leb_le; lia).
    rewrite (js_facts.slice_prefix (b :: rest) 1) by (simpl length; lia).
    by rewrite (sliceFrom_cons_app b [] rest) by (simpl length; lia).
  - apply Hprefixed. intros b0 [= <-]. lia.
Qed.

Lemma encodeLength_length (len : nat) (offset : Z) :
  (1 ≤ length (encodeLength len offset))%nat.
Proof. unfold encodeLength. destruct (len <? 56)%nat; simpl; lia. Qed.

Lemma encode_length (x : Item) : (1 ≤ length (encode x))%nat.
Proof.
  destruct x as [bs|items].
  - destruct bs as [|b [|b' bs']].
    + simpl. lia.
    + change (encode (Bytes [b]))
        with (if b <? 0x80 then [b] else encodeLength 1 0x80 ++ [b]).
      destruct (b <? 128); simpl; lia.
    + change (encode (Bytes (b :: b' :: bs')))
        with (encodeLength (length (b :: b' :: bs')) 0x80 ++ b :: b' :: bs').
      rewrite length_app. pose proof (encodeLength_length
        (length (b :: b' :: bs')) 0x80). lia.
  - rewrite encode_List, length_app.
    pose proof (encodeLength_length (length (encodeAll items)) 0xc0). lia.
Qed.

Lemma encode_Bytes_length (bs : bytes) :
  (length bs ≤ length (encode (Bytes bs)))%nat.
Proof.
  destruct bs as [|b [|b' bs']].
  - simpl. lia.
  - pose proof (encode_length (Bytes [b])). simpl length at 1. lia.
  - change (encode (Bytes (b :: b' :: bs')))
      with (encodeLength (length (b :: b' :: bs')) 0x80 ++ b :: b' :: bs').
    rewrite length_app. lia.
Qed.

(** A list comes back from its encoding once its payload does. *)
Lemma _decode_encode_List (fuel : nat) (items : list Item) (rest : bytes) :
  decodeAll fuel (encodeAll items) = Ok items →
  Z.of_nat (length (encodeAll items)) < 2 ^ 64 →
  _decode (S fuel) (encode (List items) ++ rest) = Ok (List items, rest).
Proof.
  intros Hitems Hbound. rewrite encode_List.
  set (payload := encodeAll items) in *.
  destruct (decide (length payload < 56)%nat) as [Hlen|Hlen].
  - rewrite encodeLength_short by done.
    cbn [app]. rewrite _decode_cons. cbv zeta.
    assert ((Z.of_nat (length payload) + 192 <=? 127) = false) as ->
      by (apply Z.leb_gt; lia).
    assert ((Z.of_nat (length payload) + 192 <=? 183) = false) as ->
      by (apply Z.leb_gt; lia).
    assert ((Z.of_nat (length payload) + 192 <=? 191) = false) as ->
      by (apply Z.leb_gt; lia).
    assert ((Z.of_nat (length payload) + 192 <=? 247) = true) as ->
      by (apply Z.leb_le; lia).
    rewrite (safeSlice_cons_middle _ payload rest) by lia.
    cbn [mbind result_bind]. rewrite Hitems. cbn [mbind result_bind].
    by rewrite (sliceFrom_cons_app _ payload rest) by lia.
  - rewrite encodeLength_long by lia.
    destruct (hexLength_spec (length payload) ltac:(lia) Hbound) as [Hk Hd].
    set (hexLength := util.bigIntToUnpaddedBytes (Z.of_nat (length payload)))
      in *.
    cbn [app]. rewrite <- !app_assoc. rewrite _decode_cons. cbv zeta.
    assert ((192 + 55 + Z.of_nat (length hexLength) <=? 127) = false) as ->
      by (apply Z.leb_gt; lia).
    assert ((192 + 55 + Z.of_nat (length hexLength) <=? 183) = false) as ->
      by (apply Z.leb_gt; lia).
    assert ((192 + 55 + Z.of_nat (length hexLength) <=? 191) = false) as ->
      by (apply Z.leb_gt; lia).
    assert ((192 + 55 + Z.of_nat (length hexLength) <=? 247) = false) as ->
      by (apply Z.leb_gt; lia).
    rewrite (safeSlice_cons_middle _ hexLength (payload ++ rest)) by lia.
    cbn [mbind result_bind]. rewrite Hd. cbn [mbind result_bind].
    assert ((Z.of_nat (length payload) <? 56) = false) as ->
      by (apply Z.ltb_ge; lia).
    assert ((Z.of_nat (length ((192 + 55 + Z.of_nat (length hexLength))
                                 :: hexLength ++ payload ++ rest))
             <? 192 + 55 + Z.of_nat (length hexLength) - 246
                + Z.of_nat (length payload)) = false) as ->
      by (apply Z.ltb_ge; simpl length; rewrite !length_app; lia).
    rewrite (safeSlice_cons_app_middle _ hexLength payload rest) by lia.
    cbn [mbind result_bind]. rewrite Hitems. cbn [mbind result_bind].
    by rewrite (sliceFrom_cons_app2 _ hexLength payload rest) by lia.
Qed.

(** With fuel for two units an octet, a value comes back from its
    encoding, whatever follows it. *)
Lemma _decode_encode (x : Item) :
  Z.of_nat (length (encode x)) < 2 ^ 64 →
  ∀ (fuel : nat) (rest : bytes),
    (2 * length (encode x) < fuel)%nat →
    _decode fuel (encode x ++ rest) = Ok (x, rest).
Proof.
  induction x as [bs|items IH] using Item_ind_nested;
    intros Hbound fuel rest Hfuel.
  - destruct fuel as [|fuel]; [lia|].
    apply _decode_encode_Bytes. pose proof (encode_Bytes_length bs). lia.
  - destruct fuel as [|fuel]; [lia|].
    rewrite encode_List, length_app in Hbound, Hfuel.
    pose proof (encodeLength_length (length (encodeAll items)) 0xc0) as Hp.
    apply _decode_encode_List; [|lia].
    assert (2 * length (encodeAll items) + 2 ≤ fuel)%nat as Hf by lia.
    assert (Z.of_nat (length (encodeAll items)) < 2 ^ 64) as Hb by lia.
    clear Hbound Hfuel Hp. revert fuel Hf Hb.
    induction IH as [|x items Hx _ IHitems]; intros fuel Hf Hb.
    + destruct fuel as [|fuel]; [simpl in Hf; lia|done].
    + unfold encodeAll in *. rewrite fmap_cons in *. cbn [concat] in *.
      rewrite length_app in Hf, Hb.
      pose proof (encode_length x) as Hlen.
      destruct fuel as [|fuel]; [lia|].
      destruct (encode x) as [|b tl] eqn:E; [simpl in Hlen; lia|].
      cbn [app]. rewrite decodeAll_cons.
      change (b :: tl ++ concat (encode <$> items))
        with ((b :: tl) ++ concat (encode <$> items)).
      rewrite <- E in *.
      rewrite Hx by lia. cbn [mbind result_bind fst snd].
      by rewrite IHitems by lia.
Qed.

(** [RLP.decode] inverts [RLP.encode] on every value whose encoding is
    shorter than [2^64] octets. *)
Lemma decode_encode (x : Item) :
  Z.of_nat (length (encode x)) < 2 ^ 64 → decode (encode x) = Ok x.
Proof.
  intros Hbound. unfold decode.
  pose proof (encode_length x) as Hlen.
  pose proof (_decode_encode x Hbound (S (2 * length (encode x))) []
                ltac:(lia)) as H.
  rewrite app_nil_r in H.
  destruct (encode x) as [|b tl] eqn:E; [simpl in Hlen; lia|].
  by rewrite H.
Qed.

End rlp_facts.

(** ** The blob transaction (C2, C6, C7) *)

Module tx_facts.
Import tx.

(** *** Sample transactions *)

(** The sample chain at Cancun: EIP-1559 and EIP-4844 are active. *)
Definition cancunOpts : TxOptions :=
  {| optCommon := samples.sampleCommon "cancun" []; optFreeze := None;
     optAllowUnlimitedInitCodeSize := None |}.

(** [{}]: transaction data without any field. *)
Definition emptyTxData : TxData :=
  {| chainId := IUndefined; nonce := IUndefined;
     maxPriorityFeePerGas := IUndefined; maxFeePerGas := IUndefined;
     gasLimit := IUndefined; to := IUndefined; value := IUndefined;
     data := IUndefined; accessList := None; maxFeePerDataGas := IUndefined;
     versionedHashes := None; v := IUndefined; r := IUndefined;
     s := IUndefined; blobs := None; kzgCommitments := None;
     kzgProofs := None |}.

(** [r] is a value that passes the test [P]. *)
Definition passes {A} (r : result A) (P : A → bool) : bool :=
  match r with Ok a => P a | Err _ => false end.

Lemma passes_Ok {A} (r : result A) (P : A → bool) :
  passes r P = true → ∃ a, r = Ok a ∧ P a = true.
Proof. destruct r as [a|]; [|done]. eauto. Qed.

(** C7. The constructor accepts transaction data without [to] and
    without versioned hashes, whatever the limit on the blobs of a
    transaction: the transaction it builds has no [to] and no versioned
    hash. *)
Theorem constructor_accepts_no_to_no_hashes (LIMIT_BLOBS_PER_TX : Z) :
  0 ≤ LIMIT_BLOBS_PER_TX →
  ∃ t, constructor LIMIT_BLOBS_PER_TX emptyTxData cancunOpts = Ok t
       ∧ txTo t = None
       ∧ length (txVersionedHashes t) = 0%nat.
Proof.
  intros H.
  destruct (passes_Ok (constructor LIMIT_BLOBS_PER_TX emptyTxData cancunOpts)
              (λ t, bool_decide (txTo t = None)
                    && bool_decide (length (txVersionedHashes t) = 0%nat)))
    as (t & Ht & [H1 H2]%andb_prop).
  - destruct LIMIT_BLOBS_PER_TX; [vm_compute; reflexivity..|lia].
  - exists t. split; [exact Ht|].
    split; [exact (bool_decide_eq_true_1 _ H1)|].
    exact (bool_decide_eq_true_1 _ H2).
Qed.

Lemma constructor_accepts_no_to_no_hashes_witness :
  ∃ t, constructor 6 emptyTxData cancunOpts = Ok t
       ∧ txTo t = None
       ∧ length (txVersionedHashes t) = 0%nat.
Proof. apply (constructor_accepts_no_to_no_hashes 6). lia. Defined.

(** *** The network wrapper *)

Section NetworkWrapper.

Variable LIMIT_BLOBS_PER_TX : Z.
Variable verifyBlobKzgProofBatch :
  list bytes → list bytes → list bytes → result bool.
Variable computeVersionedHash : bytes → Z → bytes.

(** Every versioned hash is the one computed from the commitment of the
    same index. *)
Definition hashesMatch (versionedHashes_ commitments : list bytes)
    (version : Z) : Prop :=
  ∀ (i : nat) (hash : bytes),
    versionedHashes_ !! i = Some hash →
    ∃ commitment,
      commitments !! i = Some commitment
      ∧ computeVersionedHash commitment version = hash.

Lemma checkCommitments_hashesMatch versionedHashes_ commitments version :
  checkCommitments computeVersionedHash versionedHashes_ commitments version
    = Ok tt
  ↔ hashesMatch versionedHashes_ commitments version.
Proof.
  revert commitments.
  induction versionedHashes_ as [|hash hashes IH]; intros commitments; simpl.
  - split; [|done]. intros _ i h. by rewrite lookup_nil.
  - destruct commitments as [|commitment rest].
    + split; [done|]. intros H. destruct (H 0%nat hash eq_refl) as (c & Hc & _).
      done.
    + unfold util.equalsBytes, check.
      destruct (bool_decide_reflect
                  (computeVersionedHash commitment version = hash)) as [E|E];
        simpl.
      * rewrite IH. split.
        -- intros H [|i] h; simpl.
           ++ intros [= <-]. eauto.
           ++ apply H.
        -- intros H i h Hi. exact (H (S i) h Hi).
      * split; [done|]. intros H.
        destruct (H 0%nat hash eq_refl) as (c & [= <-] & Hc). done.
Qed.

(** What [validateBlobTransactionNetworkWrapper] accepts. *)
Lemma validateBlobTransactionNetworkWrapper_Ok
    versionedHashes_ blobs_ commitments kzgProofs_ version :
  validateBlobTransactionNetworkWrapper verifyBlobKzgProofBatch
    computeVersionedHash versionedHashes_ blobs_ commitments kzgProofs_ version
    = Ok tt
  ↔ length versionedHashes_ = length blobs_
    ∧ length blobs_ = length commitments
    ∧ length versionedHashes_ ≠ 0%nat
    ∧ verifyBlobKzgProofBatch blobs_ commitments kzgProofs_ = Ok true
    ∧ hashesMatch versionedHashes_ commitments version.
Proof.
  unfold validateBlobTransactionNetworkWrapper, check.
  rewrite <- checkCommitments_hashesMatch.
  destruct (bool_decide_reflect (length versionedHashes_ = length blobs_));
    simpl; [|by split; [|intros (? & _)]].
  destruct (bool_decide_reflect (length blobs_ = length commitments));
    simpl; [|by split; [|intros (_ & ? & _)]].
  destruct (bool_decide_reflect (length versionedHashes_ = 0%nat));
    simpl; [by split; [|intros (_ & _ & ? & _)]|].
  destruct (verifyBlobKzgProofBatch blobs_ commitments kzgProofs_)
    as [[|]|msg]; simpl.
  - by split; [|intros (_ & _ & _ & _ & ?)].
  - by split; [|intros (_ & _ & _ & ? & _)].
  - by split; [|intros (_ & _ & _ & ? & _)].
Qed.


End NetworkWrapper.

(** A KZG library whose batch verification accepts every batch, as the
    library installed with [initKZG] is free to do, and a versioned hash
    that puts the version in front of the first 31 octets of the
    commitment. *)
Definition acceptAll (blobs_ commitments kzgProofs_ : list bytes)
  : result bool := Ok true.

Definition versionedPrefix (commitment : bytes) (version : Z) : bytes :=
  version :: take 31 commitment.

Definition sampleBlob : bytes := replicate 32 0x0b.
Definition sampleCommitment : bytes := replicate 48 0xc0.
Definition sampleProof : bytes := replicate 48 0x0f.

(** The values array of an unsigned transaction on chain [1], to the
    address [bb..bb], with one versioned hash. *)
Definition sampleValues : list rlp.Item :=
  [rlp.Bytes [1]; rlp.Bytes []; rlp.Bytes []; rlp.Bytes []; rlp.Bytes [];
   rlp.Bytes (replicate 20 0xbb); rlp.Bytes []; rlp.Bytes []; rlp.List [];
   rlp.Bytes []; rlp.List [rlp.Bytes (versionedPrefix sampleCommitment 1)]].

(** The network wrapper of that transaction with one blob, one
    commitment, and the given proofs. *)
Definition sampleWrapper (kzgProofs_ : list bytes) : bytes :=
  TRANSACTION_TYPE_BYTES
  ++ rlp.encode
       (rlp.List [rlp.List sampleValues; rlp.List [rlp.Bytes sampleBlob];
                  rlp.List [rlp.Bytes sampleCommitment];
                  rlp.List (rlp.Bytes <$> kzgProofs_)]).



(** *** The codec *)

(** A numeric field given as a byte array holds octets. *)
Definition octetInput (x : Input) : Prop :=
  match x with
  | IBytes bs => util_facts.octets bs
  | _ => True
  end.

Definition numericInputs (d : TxData) : list Input :=
  [nonce d; maxPriorityFeePerGas d; maxFeePerGas d; gasLimit d; value d;
   maxFeePerDataGas d; v d; r d; s d].

(** A signature value that is [0] is written as the empty byte array,
    which reads back as a missing value. *)
Definition nonZero (x : option Z) : option Z :=
  match x with
  | Some n => if n =? 0 then None else Some n
  | None => None
  end.

(** What decoding the serialized transaction gives back: the fields of
    the values array. The blobs, commitments and proofs are not in it; a
    missing [v] is written as the empty byte array and read as [0]. *)
Definition decoded (t : BlobEIP4844Transaction) : BlobEIP4844Transaction :=
  {| txNonce := txNonce t; txGasLimit := txGasLimit t; txTo := txTo t;
     txValue := txValue t; txData := txData t;
     txV := Some (default 0 (txV t)); txR := nonZero (txR t);
     txS := nonZero (txS t); txChainId := txChainId t;
     txAccessList := txAccessList t;
     txMaxPriorityFeePerGas := txMaxPriorityFeePerGas t;
     txMaxFeePerGas := txMaxFeePerGas t;
     txMaxFeePerDataGas := txMaxFeePerDataGas t;
     txVersionedHashes := txVersionedHashes t;
     txBlobs := None; txKzgCommitments := None; txKzgProofs := None;
     txCommon := txCommon t; txFrozen := txFrozen t |}.

Lemma intToBytes_value (n : Z) :
  0 ≤ n →
  util.bytesToBigInt (util.intToBytes n) = n
  ∧ length (util.intToBytes n) ≠ 0%nat.
Proof.
  intros Hn. unfold util.intToBytes. destruct (n =? 0) eqn:E.
  - apply Z.eqb_eq in E. by subst.
  - apply Z.eqb_neq in E.
    pose proof (util_facts.bytesToBigInt_unpadded n Hn) as Hv.
    split; [done|]. intros Hl.
    destruct (util.bigIntToUnpaddedBytes n); [|done].
    unfold util.bytesToBigInt in Hv. simpl in Hv. lia.
Qed.

Lemma unpadded_empty (n : Z) :
  0 ≤ n → (length (util.bigIntToUnpaddedBytes n) = 0%nat ↔ n = 0).
Proof.
  intros Hn. pose proof (util_facts.bytesToBigInt_unpadded n Hn) as Hv. split.
  - intros Hl. destruct (util.bigIntToUnpaddedBytes n); [|done].
    unfold util.bytesToBigInt in Hv. simpl in Hv. lia.
  - intros ->. reflexivity.
Qed.

Lemma toBigInt_unpadded (n : Z) :
  0 ≤ n → toBigInt (IBytes (util.bigIntToUnpaddedBytes n)) = Ok n.
Proof.
  intros Hn. unfold toBigInt. simpl.
  by rewrite util_facts.bytesToBigInt_unpadded.
Qed.

Lemma toBigInt_IBigInt (n : Z) : 0 ≤ n → toBigInt (IBigInt n) = Ok n.
Proof.
  intros Hn. unfold toBigInt, toBytes.
  replace (n <? 0) with false by lia. simpl.
  by destruct (intToBytes_value n Hn) as [-> _].
Qed.

Lemma toBigInt_nonneg (x : Input) (n : Z) :
  octetInput x → toBigInt x = Ok n → 0 ≤ n.
Proof.
  unfold toBigInt. destruct x as [|bs|k]; simpl.
  - intros _ [= <-]. unfold util.bytesToBigInt. simpl. lia.
  - intros Ho [= <-]. by apply util_facts.bytesToBigInt_nonneg.
  - intros _. destruct (k <? 0) eqn:E; [done|]. simpl. intros [= <-].
    destruct (intToBytes_value k ltac:(lia)) as [-> _]. lia.
Qed.

Lemma optionalBigInt_nonneg (x : Input) (n : Z) :
  octetInput x → optionalBigInt x = Ok (Some n) → 0 ≤ n.
Proof.
  intros Ho. unfold optionalBigInt.
  destruct (toBytes x) as [bs|] eqn:E; [|done]. simpl.
  destruct (bool_decide (length bs = 0%nat)); [done|]. intros [= <-].
  apply (toBigInt_nonneg x); [done|]. unfold toBigInt. by rewrite E.
Qed.

Lemma optionalBigInt_IBigInt (n : Z) :
  0 ≤ n → optionalBigInt (IBigInt n) = Ok (Some n).
Proof.
  intros Hn. unfold optionalBigInt, toBytes.
  replace (n <? 0) with false by lia. simpl.
  destruct (intToBytes_value n Hn) as [-> Hl].
  by rewrite bool_decide_eq_false_2.
Qed.

Lemma optionalBigInt_unpadded (x : option Z) :
  (∀ n, x = Some n → 0 ≤ n) →
  optionalBigInt (IBytes (optionalUnpadded x)) = Ok (nonZero x).
Proof.
  intros Hx. unfold optionalBigInt, optionalUnpadded, nonZero. simpl.
  destruct x as [n|]; [|done]. specialize (Hx n eq_refl).
  destruct (n =? 0) eqn:E.
  - apply Z.eqb_eq in E. by subst.
  - apply Z.eqb_neq in E. rewrite bool_decide_eq_false_2.
    + by rewrite util_facts.bytesToBigInt_unpadded.
    + by rewrite unpadded_empty.
Qed.

Lemma bytesToBigInt_optionalUnpadded (x : option Z) :
  (∀ n, x = Some n → 0 ≤ n) →
  util.bytesToBigInt (optionalUnpadded x) = default 0 x.
Proof.
  intros Hx. destruct x as [n|]; simpl; [|done].
  by apply util_facts.bytesToBigInt_unpadded, Hx.
Qed.

Lemma noLeadingZeroes_unpadded (n : Z) :
  0 ≤ n → noLeadingZeroes (Some (util.bigIntToUnpaddedBytes n)) = Ok tt.
Proof.
  intros Hn.
  destruct (util_facts.bigIntToUnpaddedBytes_spec n Hn) as (_ & _ & Hh & _).
  unfold noLeadingZeroes.
  destruct (util.bigIntToUnpaddedBytes n) as [|[| |] ?]; done.
Qed.

Lemma noLeadingZeroes_optionalUnpadded (x : option Z) :
  (∀ n, x = Some n → 0 ≤ n) →
  noLeadingZeroes (Some (optionalUnpadded x)) = Ok tt.
Proof.
  intros Hx. destruct x as [n|]; simpl; [|done].
  by apply noLeadingZeroes_unpadded, Hx.
Qed.

Lemma asBytesList_Bytes (l : list bytes) :
  asBytesList (rlp.Bytes <$> l) = Ok l.
Proof.
  induction l as [|bs l IH]; [done|].
  rewrite fmap_cons. cbn [asBytesList asBytes]. by rewrite IH.
Qed.

Lemma asAccessListItems_items (l : AccessListBytes) :
  asAccessListItems (accessListItems l) = Ok l.
Proof.
  unfold accessListItems.
  induction l as [|[address_ slots] l IH]; [done|].
  rewrite fmap_cons. cbn [asAccessListItems fst snd].
  rewrite asBytesList_Bytes. cbn [mbind result_bind]. by rewrite IH.
Qed.

Lemma _getCommon_inv c x c' : _getCommon c x = Ok c' → c' = c.
Proof.
  unfold _getCommon. destruct x; [by intros [= <-]|..]; intros H;
    inv_bind; done.
Qed.

Lemma _getCommon_chainId c :
  0 ≤ common.chainId c →
  _getCommon c
    (IBigInt (util.bytesToBigInt
                (util.bigIntToUnpaddedBytes (common.chainId c)))) = Ok c.
Proof.
  intros Hc. unfold _getCommon.
  rewrite util_facts.bytesToBigInt_unpadded by done.
  rewrite toBigInt_IBigInt by done. simpl.
  unfold check. by rewrite Z.eqb_refl.
Qed.

(** The integer fields of a transaction are not negative. *)
Definition nonNegative (t : BlobEIP4844Transaction) : Prop :=
  0 ≤ txNonce t ∧ 0 ≤ txGasLimit t ∧ 0 ≤ txValue t
  ∧ 0 ≤ txMaxPriorityFeePerGas t ∧ 0 ≤ txMaxFeePerGas t
  ∧ 0 ≤ txMaxFeePerDataGas t
  ∧ (∀ n, txV t = Some n → 0 ≤ n)
  ∧ (∀ n, txR t = Some n → 0 ≤ n)
  ∧ (∀ n, txS t = Some n → 0 ≤ n).

(** The transaction data that [fromValuesArray] hands to the
    constructor for the values array of [t]. *)
Definition rawData (t : BlobEIP4844Transaction) : TxData :=
  {| chainId :=
       IBigInt (util.bytesToBigInt (util.bigIntToUnpaddedBytes (txChainId t)));
     nonce := IBytes (util.bigIntToUnpaddedBytes (txNonce t));
     maxPriorityFeePerGas :=
       IBytes (util.bigIntToUnpaddedBytes (txMaxPriorityFeePerGas t));
     maxFeePerGas := IBytes (util.bigIntToUnpaddedBytes (txMaxFeePerGas t));
     gasLimit := IBytes (util.bigIntToUnpaddedBytes (txGasLimit t));
     to := IBytes (default [] (txTo t));
     value := IBytes (util.bigIntToUnpaddedBytes (txValue t));
     data := IBytes (txData t);
     accessList := Some (txAccessList t);
     maxFeePerDataGas :=
       IBytes (util.bigIntToUnpaddedBytes (txMaxFeePerDataGas t));
     versionedHashes := Some (txVersionedHashes t);
     v := IBigInt (util.bytesToBigInt (optionalUnpadded (txV t)));
     r := IBytes (optionalUnpadded (txR t));
     s := IBytes (optionalUnpadded (txS t));
     blobs := None; kzgCommitments := None; kzgProofs := None |}.

Section Codec.

Variable LIMIT_BLOBS_PER_TX : Z.

Lemma fromValuesArray_raw t opts :
  nonNegative t →
  fromValuesArray LIMIT_BLOBS_PER_TX (raw t) opts
  = constructor LIMIT_BLOBS_PER_TX (rawData t) opts.
Proof.
  intros (Hn & Hg & Hv & Hp & Hf & Hd & HV & HR & HS).
  unfold fromValuesArray, raw, rawData, field, optionalField.
  cbn [length lookup list_lookup bool_decide decide_rel check mbind
         result_bind asBytes asAccessList asListOfBytes orb inputOf].
  rewrite asAccessListItems_items, asBytesList_Bytes.
  rewrite !noLeadingZeroes_unpadded, !noLeadingZeroes_optionalUnpadded
    by done.
  reflexivity.
Qed.

Lemma check_Ok (b : bool) (msg : string) (u : unit) :
  check b msg = Ok u → b = true.
Proof. by destruct b. Qed.

Lemma constructor_nonNegative d opts t :
  constructor LIMIT_BLOBS_PER_TX d opts = Ok t →
  Forall octetInput (numericInputs d) →
  nonNegative t.
Proof.
  unfold constructor, BaseTransaction_constructor, numericInputs.
  intros H Ho. inv_bind. unfold nonNegative. simpl.
  repeat match goal with
    | H : Forall _ (_ :: _) |- _ => apply Forall_cons in H as [? H]
    end.
  repeat split; try (intros n ->);
    eauto using toBigInt_nonneg, optionalBigInt_nonneg.
Qed.

Lemma default_to (toB : bytes) :
  default [] (if bool_decide (length toB = 0%nat) then None else Some toB)
  = toB.
Proof.
  destruct (bool_decide_reflect (length toB = 0%nat)) as [E|E]; [|done].
  by destruct toB.
Qed.

Lemma default_nonZero (x : option Z) : default 0 (nonZero x) = default 0 x.
Proof.
  destruct x as [n|]; simpl; [|done].
  destruct (n =? 0) eqn:E; [|done]. apply Z.eqb_eq in E. by subst.
Qed.

Lemma _validateYParity_default (x : option Z) (u : unit) :
  _validateYParity x = Ok u → _validateYParity (Some (default 0 x)) = Ok tt.
Proof. destruct x as [n|]; [|done]. by destruct u. Qed.

Lemma _validateHighS_nonZero c (x : option Z) (u : unit) :
  _validateHighS c x = Ok u → _validateHighS c (nonZero x) = Ok tt.
Proof.
  destruct u. unfold _validateHighS, nonZero.
  destruct x as [n|]; [|done]. destruct (n =? 0); [|done].
  by rewrite andb_false_r.
Qed.

(** Building a transaction again from the data of its values array. *)
Lemma constructor_rawData d opts t :
  constructor LIMIT_BLOBS_PER_TX d opts = Ok t →
  nonNegative t →
  0 ≤ common.chainId (optCommon opts) →
  constructor LIMIT_BLOBS_PER_TX (rawData t) opts = Ok (decoded t).
Proof.
  intros H Hnn Hchain. revert Hnn.
  unfold constructor, BaseTransaction_constructor in H. inv_bind.
  repeat match goal with
    | H : check _ _ = Ok _ |- _ => apply check_Ok in H
    | H : _getCommon _ _ = Ok _ |- _ => apply _getCommon_inv in H; subst
    end.
  unfold nonNegative, decoded, rawData. cbn [txNonce txGasLimit txTo txValue
    txData txV txR txS txChainId txAccessList txMaxPriorityFeePerGas
    txMaxFeePerGas txMaxFeePerDataGas txVersionedHashes txBlobs
    txKzgCommitments txKzgProofs txCommon txFrozen].
  intros (Hn & Hg & Hv & Hp & Hf & Hd & HV & HR & HS).
  unfold constructor, BaseTransaction_constructor.
  cbn [chainId nonce maxPriorityFeePerGas maxFeePerGas gasLimit to value data
       accessList maxFeePerDataGas versionedHashes v r s blobs kzgCommitments
       kzgProofs baseNonce baseGasLimit baseTo baseValue baseData baseV baseR
       baseS] in *.
  repeat match goal with u : unit |- _ => destruct u end.
  rewrite default_to.
  rewrite !toBigInt_unpadded by done.
  rewrite bytesToBigInt_optionalUnpadded by done.
  rewrite optionalBigInt_IBigInt by (destruct x21; simpl; auto; lia).
  rewrite !optionalBigInt_unpadded by done.
  rewrite _getCommon_chainId by done.
  cbn [toBytes mbind result_bind default].
  repeat match goal with
    | |- context [id ?x] => change (id x) with x
    end.
  rewrite !default_nonZero.
  rewrite H19, H25, H26, H27, H28, H29. cbn [check mbind result_bind].
  rewrite H30. cbn [mbind result_bind].
  rewrite H2, H3, H4. cbn [check mbind result_bind baseGasLimit baseV baseS].
  rewrite H7, H8, H9, H10. cbn [check mbind result_bind].
  rewrite (_validateYParity_default _ _ H12).
  rewrite (_validateHighS_nonZero _ _ _ H13).
  cbn [mbind result_bind].
  rewrite H14, H15. reflexivity.
Qed.

Lemma typeByte_split (enc : bytes) :
  js.slice 0 1 (TRANSACTION_TYPE_BYTES ++ enc) = TRANSACTION_TYPE_BYTES
  ∧ js.sliceFrom 1 (TRANSACTION_TYPE_BYTES ++ enc) = enc.
Proof.
  unfold TRANSACTION_TYPE_BYTES. split.
  - rewrite js_facts.slice_prefix; [done|]. simpl length. lia.
  - rewrite js_facts.sliceFrom_drop; [done|]. simpl length. lia.
Qed.

(** C6, as amended. A transaction [t] that the constructor has built,
    from data whose numeric fields, where they are byte arrays, hold
    octets, on a chain whose id is not negative, and whose serialized
    encoding is shorter than [2^64] octets: decoding the serialized
    encoding of [t] with the same options gives [t] back field for
    field, except that the blobs, commitments and proofs are gone, that
    a missing [v] comes back as [0], and that an [r] or [s] equal to [0]
    comes back missing. The serialized encoding is determined by the
    values array. *)
Theorem fromSerializedTx_serialize d opts t :
  constructor LIMIT_BLOBS_PER_TX d opts = Ok t →
  Forall octetInput (numericInputs d) →
  0 ≤ common.chainId (optCommon opts) →
  Z.of_nat (length (serialize t)) < 2 ^ 64 →
  fromSerializedTx LIMIT_BLOBS_PER_TX (serialize t) opts = Ok (decoded t)
  ∧ (∀ t', raw t' = raw t → serialize t' = serialize t).
Proof.
  intros Hc Ho Hchain Hbound. split.
  - pose proof (constructor_nonNegative _ _ _ Hc Ho) as Hnn.
    unfold fromSerializedTx. unfold serialize in *.
    cbv zeta in *. rewrite length_app in Hbound.
    destruct (typeByte_split (rlp.encode (rlp.List (raw t)))) as [-> ->].
    rewrite rlp_facts.decode_encode by lia. unfold util.equalsBytes.
    rewrite bool_decide_eq_true_2 by done. cbn [check mbind result_bind].
    rewrite fromValuesArray_raw by done.
    by eapply constructor_rawData.
  - intros t' Hraw. unfold serialize. by rewrite Hraw.
Qed.

End Codec.

(** A transfer to the address [bb..bb] with a blob, and with [0] given
    for [r]. *)
Definition blobTxData : TxData :=
  {| chainId := IBigInt 1; nonce := IBigInt 7;
     maxPriorityFeePerGas := IBigInt 2; maxFeePerGas := IBigInt 30;
     gasLimit := IBigInt 21000; to := IBytes (replicate 20 0xbb);
     value := IBigInt 1000; data := IBytes [0xca; 0xfe];
     accessList := Some [(replicate 20 0xbb, [replicate 32 0x01])];
     maxFeePerDataGas := IBigInt 5;
     versionedHashes := Some [versionedPrefix sampleCommitment 1];
     v := IUndefined; r := IBigInt 0; s := IUndefined;
     blobs := Some [sampleBlob]; kzgCommitments := Some [sampleCommitment];
     kzgProofs := Some [sampleProof] |}.

Lemma fromSerializedTx_serialize_witness :
  ∃ t,
    constructor 6 blobTxData cancunOpts = Ok t
    ∧ fromSerializedTx 6 (serialize t) cancunOpts = Ok (decoded t).
Proof.
  destruct (passes_Ok (constructor 6 blobTxData cancunOpts)
              (λ t, bool_decide (length (serialize t) < 1000)%nat))
    as (t & Ht & Hlen).
  - vm_compute. reflexivity.
  - exists t. split; [exact Ht|].
    apply bool_decide_eq_true_1 in Hlen.
    apply (fromSerializedTx_serialize 6 blobTxData cancunOpts t Ht).
    + unfold numericInputs, blobTxData. simpl. repeat constructor.
    + vm_compute. discriminate.
    + lia.
Defined.

(** Building a transaction and decoding its serialized encoding. *)
Definition roundTrip (d : TxData) (opts : TxOptions)
  : result (BlobEIP4844Transaction * BlobEIP4844Transaction) :=
  t ← constructor 6 d opts;
  t' ← fromSerializedTx 6 (serialize t) opts;
  Ok (t, t').

(** C6 fails as stated: the transaction built from [blobTxData] has a
    blob, no [v] and [r = 0]; the one decoded from its serialized
    encoding has no blobs, [v = 0] and no [r]. *)
Lemma fromSerializedTx_serialize_counterexample :
  ∃ t t',
    constructor 6 blobTxData cancunOpts = Ok t
    ∧ fromSerializedTx 6 (serialize t) cancunOpts = Ok t'
    ∧ txBlobs t = Some [sampleBlob] ∧ txBlobs t' = None
    ∧ txV t = None ∧ txV t' = Some 0
    ∧ txR t = Some 0 ∧ txR t' = None
    ∧ t' ≠ t.
Proof.
  destruct (passes_Ok (roundTrip blobTxData cancunOpts)
              (λ p, bool_decide (txBlobs p.1 = Some [sampleBlob])
                    && bool_decide (txBlobs p.2 = None)
                    && bool_decide (txV p.1 = None)
                    && bool_decide (txV p.2 = Some 0)
                    && bool_decide (txR p.1 = Some 0)
                    && bool_decide (txR p.2 = None)))
    as ([t t'] & Ht & [[[[[H1 H2]%andb_prop H3]%andb_prop H4]%andb_prop
                          H5]%andb_prop H6]%andb_prop).
  - vm_compute. reflexivity.
  - unfold roundTrip in Ht. apply bind_Ok in Ht as (t0 & Ht0 & Ht).
    apply bind_Ok in Ht as (t0' & Ht0' & [= -> ->]).
    apply bool_decide_eq_true_1 in H1, H2, H3, H4, H5, H6. simpl in *.
    exists t, t'. repeat (split; [assumption|]).
    intros ->. rewrite H1 in H2. discriminate H2.
Qed.

End tx_facts.
